(** * The lambda worker of the cloud renderer: runtime engine

    A shallow embedding of [LambdaWorker] (the worker's event handlers, its
    ray queues, the reliable ray transport and the peer handshake), of
    [pluralize] (util/util.h) and of the [ParamSet], matrix, ray and
    diagnostics converters (messages/utils.cpp), followed by the properties
    proved about them.

    Conventions.
    - Unsigned machine integers ([size_t], [uint64_t], [uint16_t]) are [Z]
      values; the arithmetic of the code on counters, lengths and sequence
      numbers is followed by its wrap-around ([wrap64], [wrap16]).
    - [std::string] payloads are [list Byte.byte]; the words handled by
      [pluralize] are [string]s.
    - [map]s are [gmap]s, [set]s are [gset]s, [deque]s and [vector]s are
      [list]s with the front of the queue at the head. A loop over a map or
      a set with integer keys visits it in the order of the keys
      ([map_in_order], [set_in_order]).
    - A handler that can throw (or step outside an array) returns an
      [option]: [None] stands for "no resulting state". *)

From Stdlib Require Import ZArith Lia Sorted.
From Stdlib Require Strings.Byte.
From stdpp Require Import gmap strings list fin_maps sorting.

#[local] Open Scope Z_scope.
#[local] Set Warnings "-clear-no-such-hyp".

(** ** util/util.h *)

Module Util.

(** [pluralize(word, count)]: [word], followed by the letter s when
    [count == 1] and by the empty string otherwise. *)
Definition pluralize (word : string) (count : N) : string :=
  word +:+ (if (count =? 1)%N then "s" else EmptyString).

End Util.

(** ** Machine integers and byte strings *)

Definition wrap64 (z : Z) : Z := z mod 2 ^ 64.
Definition wrap16 (z : Z) : Z := z mod 2 ^ 16.

Definition UDP_MTU_BYTES : Z := 1350.

(** [s.length()] of a byte string, as a [size_t]. *)
Definition len (s : list Byte.byte) : Z := Z.of_nat (length s).

Definition byte_of_Z (z : Z) : Byte.byte :=
  default Byte.x00 (Byte.of_N (Z.to_N (z mod 256))).

Definition Z_of_byte (b : Byte.byte) : Z := Z.of_N (Byte.to_N b).

(** Big-endian encoding of the low [n] bytes of [z]. *)
Fixpoint be_bytes (n : nat) (z : Z) : list Byte.byte :=
  match n with
  | O => []
  | S n' => be_bytes n' (z / 256) ++ [byte_of_Z z]
  end.

(** Big-endian value of a byte string. *)
Definition be_value (bs : list Byte.byte) : Z :=
  foldl (fun acc b => acc * 256 + Z_of_byte b) 0 bs.

(** [put_field] of a 64-bit, an 8-bit and a 16-bit field. *)
Definition put_field64 (z : Z) : list Byte.byte := be_bytes 8 z.
Definition put_field8 (b : bool) : list Byte.byte := [byte_of_Z (if b then 1 else 0)].
Definition put_field16 (z : Z) : list Byte.byte := be_bytes 2 z.

(** Modelled from the spec: [protobuf::RecordWriter::write] (its class is not
    part of the sources). "Each [ray is] framed by a 4-byte length prefix",
    "length-prefixed (4-byte big-endian)". *)
Definition RecordWriter_write (oss : list Byte.byte) (record : list Byte.byte) : list Byte.byte :=
  oss ++ be_bytes 4 (len record) ++ record.

(** A network address: IP and port. *)
Abbreviation Address := (string * Z)%type.

(** ** Ordered containers

    The worker keeps its queues and its peers in [std::map]s and the
    treelets to ask for in a [std::set] (the members are declared in
    lambda-worker.h, which is not part of the sources); a [for] over such a
    container visits it in the order of the keys. [map_in_order] and
    [set_in_order] are the entries of a map and the elements of a set over
    integer keys in that order. *)
Definition keyLe {A : Type} (a b : Z * A) : Prop := a.1 <= b.1.

#[global] Instance keyLe_dec {A : Type} (a b : Z * A) : Decision (keyLe a b) :=
  decide (a.1 <= b.1).

Definition map_in_order {A : Type} (m : gmap Z A) : list (Z * A) :=
  merge_sort keyLe (map_to_list m).

Definition set_in_order (s : gset Z) : list Z := merge_sort Z.le (elements s).

(** ** Messages *)

Module OpCode.
Inductive t : Set :=
  | Hey | Ping | GetObjects | GenerateRays | ConnectTo | MultipleConnect
  | ConnectionRequest | ConnectionResponse | SendRays | Ack | FinishedPaths
  | FinishedRays | WorkerStats | GetWorker | StartBenchmark | Bye.

#[global] Instance eq_dec : EqDecision t.
Proof. solve_decision. Defined.
End OpCode.

(** Modelled from the spec: [meow::Message] (execution/meow/message.h is not
    part of the sources). "A message has the fields {senderId, opcode,
    payload, reliable, sequenceNumber, tracked, attempt}", and "messages
    carry a one-bit read mark". A datagram is kept as the message it encodes:
    the wire codec [Message::str] is not modelled. *)
Module Message.
Record t : Type := mk {
  sender_id : Z;
  opcode : OpCode.t;
  payload : list Byte.byte;
  reliable : bool;
  sequence_number : Z;
  tracked : bool;
  attempt : Z;
  is_read : bool
}.

Definition set_read (m : t) : t :=
  mk (sender_id m) (opcode m) (payload m) (reliable m) (sequence_number m)
     (tracked m) (attempt m) true.

(** [Message(senderId, opcode, payload, reliable, sequenceNumber, tracked)]:
    a fresh message has attempt 0 and is unread. *)
Definition make (sender : Z) (op : OpCode.t) (pl : list Byte.byte)
    (rel : bool) (seqNo : Z) (trk : bool) : t :=
  mk sender op pl rel seqNo trk 0 false.

(** [Message(senderId, opcode, payload)]: unreliable, sequence number 0. *)
Definition plain (sender : Z) (op : OpCode.t) (pl : list Byte.byte) : t :=
  make sender op pl false 0 false.

Definition set_attempt (a : Z) (m : t) : t :=
  mk (sender_id m) (opcode m) (payload m) (reliable m) (sequence_number m)
     (tracked m) a (is_read m).
End Message.

(** What [sendto] was handed: the interface, the destination and the
    message. *)
Definition Datagram : Type := (Z * Address * Message.t)%type.

(** ** The rays and the tracer

    [RayState] (cloud/raystate.h) and the tracer [CloudIntegrator]
    (cloud/integrator.h) are external collaborators: the worker sees them
    through the operations below. *)

Class RayModel : Type := {
  RayState : Type;
  CurrentTreelet : RayState -> Z;
  toVisitEmpty : RayState -> bool;
  hit : RayState -> bool;
  isShadowRay : RayState -> bool;
  trackRay : RayState -> bool;
  PathID : RayState -> Z;
  (** [RayState::serialize] *)
  serialize : RayState -> list Byte.byte;
  (** [ray.Ld = 0.f] *)
  clearLd : RayState -> RayState;
  (** [ray.tick++] *)
  incTick : RayState -> RayState;
  (** [CloudIntegrator::Trace(ray, bvh)] and
      [CloudIntegrator::Shade(ray, bvh, lights, sampler, arena)], for the
      loaded scene *)
  Trace : RayState -> RayState;
  Shade : RayState -> list RayState * bool
}.

(** The random sources, the timing constants of lambda-worker.h and the
    protobuf encoders of the handshake payloads: [coin n] is the [n]-th draw
    of [packetLogBD(randEngine)], [pick n] the [n]-th draw of
    [random::sample]. *)
Class Runtime : Type := {
  coin : nat -> bool;
  pick : nat -> nat;
  PACKET_TIMEOUT : Z;
  KEEP_ALIVE_INTERVAL : Z;
  to_string_request : Z -> Z -> Z -> Z -> list Byte.byte;
  to_string_response : Z -> Z -> Z -> Z -> list Z -> list Byte.byte
}.

(** ** Packets and peers (declared in lambda-worker.h) *)

(** Modelled from the spec: [RayPacket]. "Destination address + worker id,
    target treelet, sequence number, attempt count, reliability flag, tracked
    flag, serialized payload, list of tracked rays". A packet is created with
    attempt 0 and is not a retransmission. *)
Module RayPacket.
Record t `{RM : RayModel} : Type := mk {
  destination : Address;
  destinationId : Z;
  targetTreelet : Z;
  rayCount : Z;
  data : Message.t;
  reliable : bool;
  sequenceNumber : Z;
  tracked : bool;
  attempt : Z;
  retransmission : bool;
  trackedRays : list RayState
}.

Definition make `{RM : RayModel} (addr : Address) (destId treeletId count : Z)
    (msg : Message.t) (rel : bool) (seqNo : Z) (trk : bool) : t :=
  mk _ addr destId treeletId count msg rel seqNo trk 0 false [].

Definition set_trackedRays `{RM : RayModel} (rays : list RayState) (p : t) : t :=
  mk _ (destination p) (destinationId p) (targetTreelet p) (rayCount p)
     (data p) (reliable p) (sequenceNumber p) (tracked p) (attempt p)
     (retransmission p) rays.

(** Modelled from the spec: [RayPacket::incrementAttempts], "increment its
    attempt"; the attempt travels in the datagram as a 16-bit field. *)
Definition incrementAttempts `{RM : RayModel} (p : t) : t :=
  mk _ (destination p) (destinationId p) (targetTreelet p) (rayCount p)
     (Message.set_attempt (wrap16 (attempt p + 1)) (data p))
     (reliable p) (sequenceNumber p) (tracked p) (wrap16 (attempt p + 1))
     (retransmission p) (trackedRays p).

Definition set_retransmission `{RM : RayModel} (b : bool) (p : t) : t :=
  mk _ (destination p) (destinationId p) (targetTreelet p) (rayCount p)
     (data p) (reliable p) (sequenceNumber p) (tracked p) (attempt p)
     b (trackedRays p).
End RayPacket.

(** Modelled from the spec: [ServicePacket]. "Destination, interface index
    0/1, opaque payload, optional ack metadata"; a packet built without ack
    metadata goes to interface 0 unless [iface] is assigned. *)
Module ServicePacket.
Record t : Type := mk {
  destination : Address;
  destinationId : Z;
  data : Message.t;
  ackPacket : bool;
  ackId : Z;
  tracked : bool;
  iface : Z
}.

Definition make (addr : Address) (destId : Z) (msg : Message.t) : t :=
  mk addr destId msg false 0 false 0.

Definition make_ack (addr : Address) (destId : Z) (msg : Message.t)
    (id : Z) (trk : bool) : t :=
  mk addr destId msg true id trk 0.

Definition set_iface (i : Z) (p : t) : t :=
  mk (destination p) (destinationId p) (data p) (ackPacket p) (ackId p)
     (tracked p) i.
End ServicePacket.

(** A C array of two elements, indexed by an integer read from the wire. *)
Definition arr2_get {A : Type} (a : A * A) (i : Z) : option A :=
  if i =? 0 then Some a.1 else if i =? 1 then Some a.2 else None.

Definition arr2_set {A : Type} (a : A * A) (i : Z) (v : A) : option (A * A) :=
  if i =? 0 then Some (v, a.2) else if i =? 1 then Some (a.1, v) else None.

(** Modelled from the spec: the peer record [Worker]. "id, two addresses (one
    per interface), two connected flags, seed, state in {Connecting,
    Connected}, set of treelets the peer owns, next-keep-alive deadline,
    tries"; a peer is created in [Connecting]. *)
Module Worker.
Inductive State : Set := Connecting | Connected.

#[global] Instance State_eq_dec : EqDecision State.
Proof. solve_decision. Defined.

Record t : Type := mk {
  id : Z;
  address : Address * Address;
  connected : bool * bool;
  seed : Z;
  state : State;
  treelets : gset Z;
  nextKeepAlive : Z;
  tries : Z
}.

Definition make (workerId : Z) : t :=
  mk workerId ((EmptyString, 0), (EmptyString, 0)) (false, false) 0
     Connecting ∅ 0 0.

Definition set_address (a : Address * Address) (p : t) : t :=
  mk (id p) a (connected p) (seed p) (state p) (treelets p)
     (nextKeepAlive p) (tries p).
Definition set_connected (c : bool * bool) (p : t) : t :=
  mk (id p) (address p) c (seed p) (state p) (treelets p)
     (nextKeepAlive p) (tries p).
Definition set_seed (s : Z) (p : t) : t :=
  mk (id p) (address p) (connected p) s (state p) (treelets p)
     (nextKeepAlive p) (tries p).
Definition set_state (s : State) (p : t) : t :=
  mk (id p) (address p) (connected p) (seed p) s (treelets p)
     (nextKeepAlive p) (tries p).
Definition set_treelets (ts : gset Z) (p : t) : t :=
  mk (id p) (address p) (connected p) (seed p) (state p) ts
     (nextKeepAlive p) (tries p).
Definition set_nextKeepAlive (d : Z) (p : t) : t :=
  mk (id p) (address p) (connected p) (seed p) (state p) (treelets p)
     d (tries p).
Definition set_tries (n : Z) (p : t) : t :=
  mk (id p) (address p) (connected p) (seed p) (state p) (treelets p)
     (nextKeepAlive p) n.
End Worker.

(** The payloads of the handshake messages, decoded. *)
Module ConnectTo.
Record t : Type := mk { worker_id : Z; address : list Address }.
End ConnectTo.

Module ConnectRequest.
Record t : Type := mk {
  worker_id : Z; my_seed : Z; your_seed : Z; address_no : Z
}.
End ConnectRequest.

Module ConnectResponse.
Record t : Type := mk {
  worker_id : Z; my_seed : Z; your_seed : Z; address_no : Z;
  treelet_ids : list Z
}.
End ConnectResponse.

(** What else the worker sees of the rays, and the encoder of the requests
    for a treelet: [RayState::deserialize], [ray->hop++], [ray->tick = 0],
    the serialized [protobuf::FinishedRay] that [handleFinishedQueue] makes
    of a ray, and [protoutil::to_string] of a [protobuf::GetWorker]. *)
Class RayRecords `{RM : RayModel} : Type := {
  deserialize : list Byte.byte -> RayState;
  incHop : RayState -> RayState;
  resetTick : RayState -> RayState;
  finishedRecord : RayState -> list Byte.byte;
  to_string_getWorker : Z -> list Byte.byte
}.

(** ** The worker's state *)

Section Model.
Context `{RM : RayModel} `{RT : Runtime}.

(** The members of [LambdaWorker] that the handlers below read or write;
    [messageParser] holds its completed messages, [randEngine] counts the
    random draws made so far, [udpSent] logs what was handed to [sendto]. *)
Record LambdaWorker : Type := mkLambdaWorker {
  sendReliably : bool;
  workerId : option Z;
  mySeed : Z;
  treeletIds : gset Z;
  treeletToWorker : gmap Z (list Z);
  neededTreelets : gset Z;
  requestedTreelets : gset Z;
  rayQueue : list RayState;
  outQueue : gmap Z (list RayState);
  pendingQueue : gmap Z (list RayState);
  finishedQueue : list RayState;
  finishedPathIds : list Z;
  outQueueSize : Z;
  pendingQueueSize : Z;
  peers : gmap Z Worker.t;
  addressToWorker : gmap Address Z;
  sequenceNumbers : gmap Address Z;
  rayPackets : list RayPacket.t;
  servicePackets : list ServicePacket.t;
  outstandingRayPackets : list (Z * RayPacket.t);
  toBeAcked : gmap Address (list (Z * bool * Z));
  receivedAcks : gmap Address (gset Z);
  receivedPacketSeqNos : gmap Address (gset Z);
  messageParser : list Message.t;
  ackId : Z;
  randEngine : nat;
  udpSent : list Datagram
}.

(** Assignment to one member. *)
Definition with_sendReliably (v : bool) (w : LambdaWorker) : LambdaWorker :=
  mkLambdaWorker v (workerId w) (mySeed w) (treeletIds w) (treeletToWorker w)
    (neededTreelets w) (requestedTreelets w) (rayQueue w) (outQueue w)
    (pendingQueue w) (finishedQueue w) (finishedPathIds w) (outQueueSize w)
    (pendingQueueSize w) (peers w) (addressToWorker w) (sequenceNumbers w)
    (rayPackets w) (servicePackets w) (outstandingRayPackets w) (toBeAcked w)
    (receivedAcks w) (receivedPacketSeqNos w) (messageParser w) (ackId w)
    (randEngine w) (udpSent w).
Definition with_workerId (v : option Z) (w : LambdaWorker) : LambdaWorker :=
  mkLambdaWorker (sendReliably w) v (mySeed w) (treeletIds w) (treeletToWorker
    w) (neededTreelets w) (requestedTreelets w) (rayQueue w) (outQueue w)
    (pendingQueue w) (finishedQueue w) (finishedPathIds w) (outQueueSize w)
    (pendingQueueSize w) (peers w) (addressToWorker w) (sequenceNumbers w)
    (rayPackets w) (servicePackets w) (outstandingRayPackets w) (toBeAcked w)
    (receivedAcks w) (receivedPacketSeqNos w) (messageParser w) (ackId w)
    (randEngine w) (udpSent w).
Definition with_mySeed (v : Z) (w : LambdaWorker) : LambdaWorker :=
  mkLambdaWorker (sendReliably w) (workerId w) v (treeletIds w)
    (treeletToWorker w) (neededTreelets w) (requestedTreelets w) (rayQueue w)
    (outQueue w) (pendingQueue w) (finishedQueue w) (finishedPathIds w)
    (outQueueSize w) (pendingQueueSize w) (peers w) (addressToWorker w)
    (sequenceNumbers w) (rayPackets w) (servicePackets w)
    (outstandingRayPackets w) (toBeAcked w) (receivedAcks w)
    (receivedPacketSeqNos w) (messageParser w) (ackId w) (randEngine w)
    (udpSent w).
Definition with_treeletIds (v : gset Z) (w : LambdaWorker) : LambdaWorker :=
  mkLambdaWorker (sendReliably w) (workerId w) (mySeed w) v (treeletToWorker
    w) (neededTreelets w) (requestedTreelets w) (rayQueue w) (outQueue w)
    (pendingQueue w) (finishedQueue w) (finishedPathIds w) (outQueueSize w)
    (pendingQueueSize w) (peers w) (addressToWorker w) (sequenceNumbers w)
    (rayPackets w) (servicePackets w) (outstandingRayPackets w) (toBeAcked w)
    (receivedAcks w) (receivedPacketSeqNos w) (messageParser w) (ackId w)
    (randEngine w) (udpSent w).
Definition with_treeletToWorker (v : gmap Z (list Z)) (w : LambdaWorker) : LambdaWorker :=
  mkLambdaWorker (sendReliably w) (workerId w) (mySeed w) (treeletIds w) v
    (neededTreelets w) (requestedTreelets w) (rayQueue w) (outQueue w)
    (pendingQueue w) (finishedQueue w) (finishedPathIds w) (outQueueSize w)
    (pendingQueueSize w) (peers w) (addressToWorker w) (sequenceNumbers w)
    (rayPackets w) (servicePackets w) (outstandingRayPackets w) (toBeAcked w)
    (receivedAcks w) (receivedPacketSeqNos w) (messageParser w) (ackId w)
    (randEngine w) (udpSent w).
Definition with_neededTreelets (v : gset Z) (w : LambdaWorker) : LambdaWorker :=
  mkLambdaWorker (sendReliably w) (workerId w) (mySeed w) (treeletIds w)
    (treeletToWorker w) v (requestedTreelets w) (rayQueue w) (outQueue w)
    (pendingQueue w) (finishedQueue w) (finishedPathIds w) (outQueueSize w)
    (pendingQueueSize w) (peers w) (addressToWorker w) (sequenceNumbers w)
    (rayPackets w) (servicePackets w) (outstandingRayPackets w) (toBeAcked w)
    (receivedAcks w) (receivedPacketSeqNos w) (messageParser w) (ackId w)
    (randEngine w) (udpSent w).
Definition with_requestedTreelets (v : gset Z) (w : LambdaWorker) : LambdaWorker :=
  mkLambdaWorker (sendReliably w) (workerId w) (mySeed w) (treeletIds w)
    (treeletToWorker w) (neededTreelets w) v (rayQueue w) (outQueue w)
    (pendingQueue w) (finishedQueue w) (finishedPathIds w) (outQueueSize w)
    (pendingQueueSize w) (peers w) (addressToWorker w) (sequenceNumbers w)
    (rayPackets w) (servicePackets w) (outstandingRayPackets w) (toBeAcked w)
    (receivedAcks w) (receivedPacketSeqNos w) (messageParser w) (ackId w)
    (randEngine w) (udpSent w).
Definition with_rayQueue (v : list RayState) (w : LambdaWorker) : LambdaWorker :=
  mkLambdaWorker (sendReliably w) (workerId w) (mySeed w) (treeletIds w)
    (treeletToWorker w) (neededTreelets w) (requestedTreelets w) v (outQueue
    w) (pendingQueue w) (finishedQueue w) (finishedPathIds w) (outQueueSize w)
    (pendingQueueSize w) (peers w) (addressToWorker w) (sequenceNumbers w)
    (rayPackets w) (servicePackets w) (outstandingRayPackets w) (toBeAcked w)
    (receivedAcks w) (receivedPacketSeqNos w) (messageParser w) (ackId w)
    (randEngine w) (udpSent w).
Definition with_outQueue (v : gmap Z (list RayState)) (w : LambdaWorker) : LambdaWorker :=
  mkLambdaWorker (sendReliably w) (workerId w) (mySeed w) (treeletIds w)
    (treeletToWorker w) (neededTreelets w) (requestedTreelets w) (rayQueue w)
    v (pendingQueue w) (finishedQueue w) (finishedPathIds w) (outQueueSize w)
    (pendingQueueSize w) (peers w) (addressToWorker w) (sequenceNumbers w)
    (rayPackets w) (servicePackets w) (outstandingRayPackets w) (toBeAcked w)
    (receivedAcks w) (receivedPacketSeqNos w) (messageParser w) (ackId w)
    (randEngine w) (udpSent w).
Definition with_pendingQueue (v : gmap Z (list RayState)) (w : LambdaWorker) : LambdaWorker :=
  mkLambdaWorker (sendReliably w) (workerId w) (mySeed w) (treeletIds w)
    (treeletToWorker w) (neededTreelets w) (requestedTreelets w) (rayQueue w)
    (outQueue w) v (finishedQueue w) (finishedPathIds w) (outQueueSize w)
    (pendingQueueSize w) (peers w) (addressToWorker w) (sequenceNumbers w)
    (rayPackets w) (servicePackets w) (outstandingRayPackets w) (toBeAcked w)
    (receivedAcks w) (receivedPacketSeqNos w) (messageParser w) (ackId w)
    (randEngine w) (udpSent w).
Definition with_finishedQueue (v : list RayState) (w : LambdaWorker) : LambdaWorker :=
  mkLambdaWorker (sendReliably w) (workerId w) (mySeed w) (treeletIds w)
    (treeletToWorker w) (neededTreelets w) (requestedTreelets w) (rayQueue w)
    (outQueue w) (pendingQueue w) v (finishedPathIds w) (outQueueSize w)
    (pendingQueueSize w) (peers w) (addressToWorker w) (sequenceNumbers w)
    (rayPackets w) (servicePackets w) (outstandingRayPackets w) (toBeAcked w)
    (receivedAcks w) (receivedPacketSeqNos w) (messageParser w) (ackId w)
    (randEngine w) (udpSent w).
Definition with_finishedPathIds (v : list Z) (w : LambdaWorker) : LambdaWorker :=
  mkLambdaWorker (sendReliably w) (workerId w) (mySeed w) (treeletIds w)
    (treeletToWorker w) (neededTreelets w) (requestedTreelets w) (rayQueue w)
    (outQueue w) (pendingQueue w) (finishedQueue w) v (outQueueSize w)
    (pendingQueueSize w) (peers w) (addressToWorker w) (sequenceNumbers w)
    (rayPackets w) (servicePackets w) (outstandingRayPackets w) (toBeAcked w)
    (receivedAcks w) (receivedPacketSeqNos w) (messageParser w) (ackId w)
    (randEngine w) (udpSent w).
Definition with_outQueueSize (v : Z) (w : LambdaWorker) : LambdaWorker :=
  mkLambdaWorker (sendReliably w) (workerId w) (mySeed w) (treeletIds w)
    (treeletToWorker w) (neededTreelets w) (requestedTreelets w) (rayQueue w)
    (outQueue w) (pendingQueue w) (finishedQueue w) (finishedPathIds w) v
    (pendingQueueSize w) (peers w) (addressToWorker w) (sequenceNumbers w)
    (rayPackets w) (servicePackets w) (outstandingRayPackets w) (toBeAcked w)
    (receivedAcks w) (receivedPacketSeqNos w) (messageParser w) (ackId w)
    (randEngine w) (udpSent w).
Definition with_pendingQueueSize (v : Z) (w : LambdaWorker) : LambdaWorker :=
  mkLambdaWorker (sendReliably w) (workerId w) (mySeed w) (treeletIds w)
    (treeletToWorker w) (neededTreelets w) (requestedTreelets w) (rayQueue w)
    (outQueue w) (pendingQueue w) (finishedQueue w) (finishedPathIds w)
    (outQueueSize w) v (peers w) (addressToWorker w) (sequenceNumbers w)
    (rayPackets w) (servicePackets w) (outstandingRayPackets w) (toBeAcked w)
    (receivedAcks w) (receivedPacketSeqNos w) (messageParser w) (ackId w)
    (randEngine w) (udpSent w).
Definition with_peers (v : gmap Z Worker.t) (w : LambdaWorker) : LambdaWorker :=
  mkLambdaWorker (sendReliably w) (workerId w) (mySeed w) (treeletIds w)
    (treeletToWorker w) (neededTreelets w) (requestedTreelets w) (rayQueue w)
    (outQueue w) (pendingQueue w) (finishedQueue w) (finishedPathIds w)
    (outQueueSize w) (pendingQueueSize w) v (addressToWorker w)
    (sequenceNumbers w) (rayPackets w) (servicePackets w)
    (outstandingRayPackets w) (toBeAcked w) (receivedAcks w)
    (receivedPacketSeqNos w) (messageParser w) (ackId w) (randEngine w)
    (udpSent w).
Definition with_addressToWorker (v : gmap Address Z) (w : LambdaWorker) : LambdaWorker :=
  mkLambdaWorker (sendReliably w) (workerId w) (mySeed w) (treeletIds w)
    (treeletToWorker w) (neededTreelets w) (requestedTreelets w) (rayQueue w)
    (outQueue w) (pendingQueue w) (finishedQueue w) (finishedPathIds w)
    (outQueueSize w) (pendingQueueSize w) (peers w) v (sequenceNumbers w)
    (rayPackets w) (servicePackets w) (outstandingRayPackets w) (toBeAcked w)
    (receivedAcks w) (receivedPacketSeqNos w) (messageParser w) (ackId w)
    (randEngine w) (udpSent w).
Definition with_sequenceNumbers (v : gmap Address Z) (w : LambdaWorker) : LambdaWorker :=
  mkLambdaWorker (sendReliably w) (workerId w) (mySeed w) (treeletIds w)
    (treeletToWorker w) (neededTreelets w) (requestedTreelets w) (rayQueue w)
    (outQueue w) (pendingQueue w) (finishedQueue w) (finishedPathIds w)
    (outQueueSize w) (pendingQueueSize w) (peers w) (addressToWorker w) v
    (rayPackets w) (servicePackets w) (outstandingRayPackets w) (toBeAcked w)
    (receivedAcks w) (receivedPacketSeqNos w) (messageParser w) (ackId w)
    (randEngine w) (udpSent w).
Definition with_rayPackets (v : list RayPacket.t) (w : LambdaWorker) : LambdaWorker :=
  mkLambdaWorker (sendReliably w) (workerId w) (mySeed w) (treeletIds w)
    (treeletToWorker w) (neededTreelets w) (requestedTreelets w) (rayQueue w)
    (outQueue w) (pendingQueue w) (finishedQueue w) (finishedPathIds w)
    (outQueueSize w) (pendingQueueSize w) (peers w) (addressToWorker w)
    (sequenceNumbers w) v (servicePackets w) (outstandingRayPackets w)
    (toBeAcked w) (receivedAcks w) (receivedPacketSeqNos w) (messageParser w)
    (ackId w) (randEngine w) (udpSent w).
Definition with_servicePackets (v : list ServicePacket.t) (w : LambdaWorker) : LambdaWorker :=
  mkLambdaWorker (sendReliably w) (workerId w) (mySeed w) (treeletIds w)
    (treeletToWorker w) (neededTreelets w) (requestedTreelets w) (rayQueue w)
    (outQueue w) (pendingQueue w) (finishedQueue w) (finishedPathIds w)
    (outQueueSize w) (pendingQueueSize w) (peers w) (addressToWorker w)
    (sequenceNumbers w) (rayPackets w) v (outstandingRayPackets w) (toBeAcked
    w) (receivedAcks w) (receivedPacketSeqNos w) (messageParser w) (ackId w)
    (randEngine w) (udpSent w).
Definition with_outstandingRayPackets (v : list (Z * RayPacket.t)) (w : LambdaWorker) : LambdaWorker :=
  mkLambdaWorker (sendReliably w) (workerId w) (mySeed w) (treeletIds w)
    (treeletToWorker w) (neededTreelets w) (requestedTreelets w) (rayQueue w)
    (outQueue w) (pendingQueue w) (finishedQueue w) (finishedPathIds w)
    (outQueueSize w) (pendingQueueSize w) (peers w) (addressToWorker w)
    (sequenceNumbers w) (rayPackets w) (servicePackets w) v (toBeAcked w)
    (receivedAcks w) (receivedPacketSeqNos w) (messageParser w) (ackId w)
    (randEngine w) (udpSent w).
Definition with_toBeAcked (v : gmap Address (list (Z * bool * Z))) (w : LambdaWorker) : LambdaWorker :=
  mkLambdaWorker (sendReliably w) (workerId w) (mySeed w) (treeletIds w)
    (treeletToWorker w) (neededTreelets w) (requestedTreelets w) (rayQueue w)
    (outQueue w) (pendingQueue w) (finishedQueue w) (finishedPathIds w)
    (outQueueSize w) (pendingQueueSize w) (peers w) (addressToWorker w)
    (sequenceNumbers w) (rayPackets w) (servicePackets w)
    (outstandingRayPackets w) v (receivedAcks w) (receivedPacketSeqNos w)
    (messageParser w) (ackId w) (randEngine w) (udpSent w).
Definition with_receivedAcks (v : gmap Address (gset Z)) (w : LambdaWorker) : LambdaWorker :=
  mkLambdaWorker (sendReliably w) (workerId w) (mySeed w) (treeletIds w)
    (treeletToWorker w) (neededTreelets w) (requestedTreelets w) (rayQueue w)
    (outQueue w) (pendingQueue w) (finishedQueue w) (finishedPathIds w)
    (outQueueSize w) (pendingQueueSize w) (peers w) (addressToWorker w)
    (sequenceNumbers w) (rayPackets w) (servicePackets w)
    (outstandingRayPackets w) (toBeAcked w) v (receivedPacketSeqNos w)
    (messageParser w) (ackId w) (randEngine w) (udpSent w).
Definition with_receivedPacketSeqNos (v : gmap Address (gset Z)) (w : LambdaWorker) : LambdaWorker :=
  mkLambdaWorker (sendReliably w) (workerId w) (mySeed w) (treeletIds w)
    (treeletToWorker w) (neededTreelets w) (requestedTreelets w) (rayQueue w)
    (outQueue w) (pendingQueue w) (finishedQueue w) (finishedPathIds w)
    (outQueueSize w) (pendingQueueSize w) (peers w) (addressToWorker w)
    (sequenceNumbers w) (rayPackets w) (servicePackets w)
    (outstandingRayPackets w) (toBeAcked w) (receivedAcks w) v (messageParser
    w) (ackId w) (randEngine w) (udpSent w).
Definition with_messageParser (v : list Message.t) (w : LambdaWorker) : LambdaWorker :=
  mkLambdaWorker (sendReliably w) (workerId w) (mySeed w) (treeletIds w)
    (treeletToWorker w) (neededTreelets w) (requestedTreelets w) (rayQueue w)
    (outQueue w) (pendingQueue w) (finishedQueue w) (finishedPathIds w)
    (outQueueSize w) (pendingQueueSize w) (peers w) (addressToWorker w)
    (sequenceNumbers w) (rayPackets w) (servicePackets w)
    (outstandingRayPackets w) (toBeAcked w) (receivedAcks w)
    (receivedPacketSeqNos w) v (ackId w) (randEngine w) (udpSent w).
Definition with_ackId (v : Z) (w : LambdaWorker) : LambdaWorker :=
  mkLambdaWorker (sendReliably w) (workerId w) (mySeed w) (treeletIds w)
    (treeletToWorker w) (neededTreelets w) (requestedTreelets w) (rayQueue w)
    (outQueue w) (pendingQueue w) (finishedQueue w) (finishedPathIds w)
    (outQueueSize w) (pendingQueueSize w) (peers w) (addressToWorker w)
    (sequenceNumbers w) (rayPackets w) (servicePackets w)
    (outstandingRayPackets w) (toBeAcked w) (receivedAcks w)
    (receivedPacketSeqNos w) (messageParser w) v (randEngine w) (udpSent w).
Definition with_randEngine (v : nat) (w : LambdaWorker) : LambdaWorker :=
  mkLambdaWorker (sendReliably w) (workerId w) (mySeed w) (treeletIds w)
    (treeletToWorker w) (neededTreelets w) (requestedTreelets w) (rayQueue w)
    (outQueue w) (pendingQueue w) (finishedQueue w) (finishedPathIds w)
    (outQueueSize w) (pendingQueueSize w) (peers w) (addressToWorker w)
    (sequenceNumbers w) (rayPackets w) (servicePackets w)
    (outstandingRayPackets w) (toBeAcked w) (receivedAcks w)
    (receivedPacketSeqNos w) (messageParser w) (ackId w) v (udpSent w).
Definition with_udpSent (v : list Datagram) (w : LambdaWorker) : LambdaWorker :=
  mkLambdaWorker (sendReliably w) (workerId w) (mySeed w) (treeletIds w)
    (treeletToWorker w) (neededTreelets w) (requestedTreelets w) (rayQueue w)
    (outQueue w) (pendingQueue w) (finishedQueue w) (finishedPathIds w)
    (outQueueSize w) (pendingQueueSize w) (peers w) (addressToWorker w)
    (sequenceNumbers w) (rayPackets w) (servicePackets w)
    (outstandingRayPackets w) (toBeAcked w) (receivedAcks w)
    (receivedPacketSeqNos w) (messageParser w) (ackId w) (randEngine w) v.

(** [*workerId]: the id assigned by the coordinator. [Optional] is not part
    of the sources; reading it before [Hey] has set it is modelled as 0. *)
Definition deref_workerId (w : LambdaWorker) : Z := default 0 (workerId w).

Definition is_nil {A : Type} (l : list A) : bool :=
  match l with [] => true | _ => false end.

(** Monadic left fold for handlers that can fail. *)
Fixpoint foldlM {A B : Type} (f : B -> A -> option B) (b : B) (l : list A)
    : option B :=
  match l with
  | [] => Some b
  | x :: l' => b' ← f b x; foldlM f b' l'
  end.

(** *** Ray queues: [handleRayQueue] and [generateRays] *)

Definition MAX_RAYS : Z := 20000.

Definition pushRayQueue (state : RayState) (w : LambdaWorker) : LambdaWorker :=
  with_rayQueue (rayQueue w ++ [state]) w.

Definition recordFinishedPath (pathId : Z) (w : LambdaWorker) : LambdaWorker :=
  with_finishedPathIds (finishedPathIds w ++ [pathId]) w.

Definition pushFinished (ray : RayState) (w : LambdaWorker) : LambdaWorker :=
  with_finishedQueue (finishedQueue w ++ [ray]) w.

(** The first loop of [handleRayQueue]: pops up to [MAX_RAYS] rays off
    [queue] (the ray queue), traces or shades each, and collects the rays
    to route in [processedRays]. *)
Fixpoint traceLoop (i : Z) (queue processedRays : list RayState)
    (w : LambdaWorker) : option (list RayState * LambdaWorker) :=
  match queue with
  | [] => Some (processedRays, with_rayQueue [] w)
  | ray :: rest =>
    if i <? MAX_RAYS then
      let pathId := PathID ray in
      if negb (toVisitEmpty ray) then
        let newRay := Trace ray in
        let hit_ := hit newRay in
        let emptyVisit := toVisitEmpty newRay in
        if isShadowRay newRay then
          if hit_ || emptyVisit then
            traceLoop (i + 1) rest processedRays
              (pushFinished (if hit_ then clearLd newRay else newRay) w)
          else traceLoop (i + 1) rest (processedRays ++ [newRay]) w
        else if negb emptyVisit || hit_ then
          traceLoop (i + 1) rest (processedRays ++ [newRay]) w
        else if emptyVisit then
          traceLoop (i + 1) rest processedRays
            (recordFinishedPath pathId (pushFinished (clearLd newRay) w))
        else traceLoop (i + 1) rest processedRays w
      else if hit ray then
        let newRays := Shade ray in
        traceLoop (i + 1) rest (processedRays ++ newRays.1)
          (if newRays.2 then recordFinishedPath pathId w else w)
      else None
    else Some (processedRays, with_rayQueue queue w)
  end.

(** The body of the second loop of [handleRayQueue]. *)
Definition routeProcessedRay (w : LambdaWorker) (ray : RayState) : LambdaWorker :=
  let nextTreelet := CurrentTreelet ray in
  if bool_decide (nextTreelet ∈ treeletIds w) then pushRayQueue ray w
  else if bool_decide (is_Some (treeletToWorker w !! nextTreelet)) then
    let w1 :=
      with_outQueue
        (<[nextTreelet := default [] (outQueue w !! nextTreelet) ++ [ray]]>
           (outQueue w)) w in
    with_outQueueSize (wrap64 (outQueueSize w1 + 1)) w1
  else
    let w1 := with_neededTreelets ({[nextTreelet]} ∪ neededTreelets w) w in
    let w2 :=
      with_pendingQueue
        (<[nextTreelet := default [] (pendingQueue w1 !! nextTreelet) ++ [ray]]>
           (pendingQueue w1)) w1 in
    with_pendingQueueSize (wrap64 (pendingQueueSize w2 + 1)) w2.

Definition handleRayQueue (w : LambdaWorker) : option LambdaWorker :=
  '(processedRays, w1) ← traceLoop 0 (rayQueue w) [] w;
  Some (foldl routeProcessedRay w1 processedRays).

(** The tail of the loop body of [generateRays], from
    [state.CurrentTreelet()] on. *)
Definition routeGeneratedRay (w : LambdaWorker) (state : RayState) : LambdaWorker :=
  let nextTreelet := CurrentTreelet state in
  if bool_decide (nextTreelet ∈ treeletIds w) then pushRayQueue state w
  else if bool_decide (is_Some (treeletToWorker w !! nextTreelet)) then
    let w1 :=
      with_outQueue
        (<[nextTreelet := default [] (outQueue w !! nextTreelet) ++ [state]]>
           (outQueue w)) w in
    with_outQueueSize (wrap64 (outQueueSize w1 + 1)) w1
  else
    let w1 := with_neededTreelets ({[nextTreelet]} ∪ neededTreelets w) w in
    let w2 :=
      with_pendingQueue
        (<[nextTreelet := default [] (pendingQueue w1 !! nextTreelet) ++ [state]]>
           (pendingQueue w1)) w1 in
    with_pendingQueueSize (wrap64 (pendingQueueSize w2 + 1)) w2.

(** [generateRays(bounds)]: [states] are the camera rays of the samples and
    pixels of [bounds], in the order of the two loops (the camera and the
    sampler are external). *)
Definition generateRays (states : list RayState) (w : LambdaWorker) : LambdaWorker :=
  foldl routeGeneratedRay w states.

(** *** Packet assembly: [handleOutQueue] *)

(** The local variables of one packet under construction, and what the
    inner loop leaves of the queue. *)
Record Packing : Type := mkPacking {
  pk_outRays : list RayState;
  pk_packetLen : Z;
  pk_rayCount : Z;
  pk_oss : list Byte.byte;
  pk_trackedRays : list RayState;
  pk_outQueueSize : Z;
  pk_unpackedRayStr : list Byte.byte;
  pk_unpackedRayPtr : option RayState
}.

(** The inner loop, [while (packetLen < UDP_MTU_BYTES && !outRays.empty())]:
    a ray that does not fit is kept in [unpackedRayStr]/[unpackedRayPtr]. *)
Fixpoint packRays (outRays : list RayState) (packetLen rayCount : Z)
    (oss : list Byte.byte) (trackedRays : list RayState) (queueSize : Z)
    (unpackedRayPtr : option RayState) : Packing :=
  match outRays with
  | [] =>
    mkPacking [] packetLen rayCount oss trackedRays queueSize [] unpackedRayPtr
  | ray :: rest =>
    if packetLen <? UDP_MTU_BYTES then
      let queueSize' := wrap64 (queueSize - 1) in
      let rayStr := serialize ray in
      let len_ := wrap64 (len rayStr + 4) in
      if wrap64 (len_ + packetLen) >? UDP_MTU_BYTES then
        mkPacking rest packetLen rayCount oss trackedRays queueSize'
          rayStr (Some ray)
      else
        packRays rest (wrap64 (packetLen + len_)) (wrap64 (rayCount + 1))
          (RecordWriter_write oss rayStr)
          (if trackRay ray then trackedRays ++ [ray] else trackedRays)
          queueSize' unpackedRayPtr
    else
      mkPacking outRays packetLen rayCount oss trackedRays queueSize []
        unpackedRayPtr
  end.

(** The start of a packet: the ray carried over from the previous packet, if
    its string is not empty, is written first and sets [packetLen]. *)
Definition startPacket (unpackedRayStr : list Byte.byte)
    (unpackedRayPtr : option RayState)
    : option (Z * Z * list Byte.byte * list RayState * option RayState) :=
  match unpackedRayStr with
  | [] => Some (25, 0, [], [], unpackedRayPtr)
  | _ =>
    ray ← unpackedRayPtr;
    Some (wrap64 (len unpackedRayStr + 4), wrap64 (0 + 1),
          RecordWriter_write [] unpackedRayStr,
          if trackRay ray then [ray] else [],
          if trackRay ray then None else Some ray)
  end.

(** One turn of [while (!outRays.empty() || !unpackedRayStr.empty())]: builds
    one packet for [peer] and appends it to [rayPackets]. *)
Definition assembleOne (peer : Worker.t) (treeletId : Z)
    (outRays : list RayState) (unpackedRayStr : list Byte.byte)
    (unpackedRayPtr : option RayState) (w : LambdaWorker)
    : option (Packing * LambdaWorker) :=
  '(packetLen, rayCount, oss, trackedRays, ptr) ←
    startPacket unpackedRayStr unpackedRayPtr;
  let pk := packRays outRays packetLen rayCount oss trackedRays
              (outQueueSize w) ptr in
  let w1 := with_outQueueSize (pk_outQueueSize pk) w in
  let tracked := coin (randEngine w1) in
  let w2 := with_randEngine (S (randEngine w1)) w1 in
  let addr := (Worker.address peer).1 in
  let peerSeqNo := default 0 (sequenceNumbers w2 !! addr) in
  let rayPacket :=
    RayPacket.set_trackedRays (pk_trackedRays pk)
      (RayPacket.make addr (Worker.id peer) treeletId (pk_rayCount pk)
         (Message.make (deref_workerId w2) OpCode.SendRays (pk_oss pk)
            (sendReliably w2) peerSeqNo tracked)
         (sendReliably w2) peerSeqNo tracked) in
  let w3 := with_rayPackets (rayPackets w2 ++ [rayPacket]) w2 in
  Some (pk,
        with_sequenceNumbers
          (<[addr := wrap64 (peerSeqNo + 1)]> (sequenceNumbers w3)) w3).

(** The outer loop for one treelet; [fuel] bounds its turns. When it ends
    the (emptied) deque is what is left in [outQueue[treeletId]]. *)
Fixpoint assemblePackets (fuel : nat) (peer : Worker.t) (treeletId : Z)
    (outRays : list RayState) (unpackedRayStr : list Byte.byte)
    (unpackedRayPtr : option RayState) (w : LambdaWorker)
    : option LambdaWorker :=
  if is_nil outRays && is_nil unpackedRayStr then
    Some (with_outQueue (<[treeletId := outRays]> (outQueue w)) w)
  else
    match fuel with
    | O => None
    | S fuel' =>
      '(pk, w') ← assembleOne peer treeletId outRays unpackedRayStr
                    unpackedRayPtr w;
      assemblePackets fuel' peer treeletId (pk_outRays pk)
        (pk_unpackedRayStr pk) (pk_unpackedRayPtr pk) w'
    end.

(** [random::sample(begin, end)]: an element of the range, none when the
    range is empty. *)
Definition random_sample (candidates : list Z) (n : nat) : option Z :=
  candidates !! (pick n mod length candidates)%nat.

(** The body of [for (auto& q : outQueue)]. Every turn of the outer loop
    takes a ray off the deque or uses up the carried ray, so
    [2 * |outRays| + 1] turns are enough. *)
Definition handleOutQueue_entry (w : LambdaWorker) (q : Z * list RayState)
    : option LambdaWorker :=
  let treeletId := q.1 in
  let outRays := q.2 in
  if is_nil outRays then Some w
  else
    let candidates := default [] (treeletToWorker w !! treeletId) in
    let w1 :=
      with_treeletToWorker (<[treeletId := candidates]> (treeletToWorker w)) w in
    chosen ← random_sample candidates (randEngine w1);
    let w2 := with_randEngine (S (randEngine w1)) w1 in
    peer ← peers w2 !! chosen;
    let addr := (Worker.address peer).1 in
    let w3 :=
      with_sequenceNumbers
        (<[addr := default 0 (sequenceNumbers w2 !! addr)]> (sequenceNumbers w2))
        w2 in
    assemblePackets (2 * length outRays + 1) peer treeletId outRays [] None w3.

(** [for (auto& q : outQueue)]: the queues are taken in the order of their
    treelet ids. *)
Definition handleOutQueue (w : LambdaWorker) : option LambdaWorker :=
  foldlM handleOutQueue_entry w (map_in_order (outQueue w)).

(** *** Acknowledgements and retransmission: [handleRayAcknowledgements] *)

(** Emits one [Ack] service packet carrying [ack]. *)
Definition emitAck (addr : Address) (destId : Z) (ack : list Byte.byte)
    (w : LambdaWorker) : LambdaWorker :=
  let myAckId := ackId w in
  let w1 := with_ackId (wrap64 (myAckId + 1)) w in
  let tracked := coin (randEngine w1) in
  let w2 := with_randEngine (S (randEngine w1)) w1 in
  let msg :=
    Message.make (deref_workerId w2) OpCode.Ack ack false myAckId tracked in
  with_servicePackets
    (servicePackets w2 ++ [ServicePacket.make_ack addr destId msg myAckId tracked])
    w2.

(** The loop over the triples to acknowledge to one address. *)
Fixpoint ackLoop (addr : Address) (destId : Z) (received : list (Z * bool * Z))
    (ack : list Byte.byte) (w : LambdaWorker) : LambdaWorker :=
  match received with
  | [] => w
  | r :: rest =>
    let ack' :=
      ack ++ put_field64 r.1.1 ++ put_field8 r.1.2 ++ put_field16 r.2 in
    if (len ack' >=? UDP_MTU_BYTES) || is_nil rest then
      ackLoop addr destId rest [] (emitAck addr destId ack' w)
    else ackLoop addr destId rest ack' w
  end.

Definition sendAcks_entry (w : LambdaWorker)
    (receivedKv : Address * list (Z * bool * Z)) : LambdaWorker :=
  let destId := default 0 (addressToWorker w !! receivedKv.1) in
  let w1 :=
    with_addressToWorker (<[receivedKv.1 := destId]> (addressToWorker w)) w in
  ackLoop receivedKv.1 destId receivedKv.2 [] w1.

(** The retransmission loop, on what is left of [outstandingRayPackets]. The
    block under [if (false && packet.attempt > 1)] is never run and is not
    modelled. *)
Fixpoint retransmitLoop (now : Z) (outstanding : list (Z * RayPacket.t))
    (w : LambdaWorker) : LambdaWorker :=
  match outstanding with
  | [] => with_outstandingRayPackets [] w
  | front :: rest =>
    if negb (bool_decide (receivedAcks w = ∅)) && (front.1 <=? now) then
      let packet := front.2 in
      let dest := RayPacket.destination packet in
      let thisReceivedAcks : gset Z := default ∅ (receivedAcks w !! dest) in
      let w1 :=
        with_receivedAcks (<[dest := thisReceivedAcks]> (receivedAcks w)) w in
      let w2 :=
        if negb (bool_decide (RayPacket.sequenceNumber packet ∈ thisReceivedAcks))
        then
          with_rayPackets
            (rayPackets w1 ++
               [RayPacket.set_retransmission true
                  (RayPacket.incrementAttempts packet)]) w1
        else w1 in
      retransmitLoop now rest w2
    else with_outstandingRayPackets outstanding w
  end.

(** [toBeAcked] is keyed by [Address], whose comparison is not part of the
    sources: its entries are taken as [map_to_list] gives them, and the
    statements about the acks are made address by address. *)
Definition handleRayAcknowledgements (now : Z) (w : LambdaWorker) : LambdaWorker :=
  let w1 := foldl sendAcks_entry w (map_to_list (toBeAcked w)) in
  let w2 := with_toBeAcked ∅ w1 in
  retransmitLoop now (outstandingRayPackets w2) w2.

(** The predicate of the [RayAcks] action. *)
Definition rayAcksPredicate (now : Z) (w : LambdaWorker) : bool :=
  negb (bool_decide (toBeAcked w = ∅)) ||
  (negb (bool_decide (receivedAcks w = ∅)) &&
   match outstandingRayPackets w with
   | [] => false
   | front :: _ => front.1 <=? now
   end).

(** *** Sending: [handleUdpSend] *)

Definition sendUdpPacket (peer : Address) (payload : Message.t) (iface : Z)
    (w : LambdaWorker) : LambdaWorker :=
  with_udpSent (udpSent w ++ [(iface, peer, payload)]) w.

(** The loop over [servicePackets]: the first packet for [iface], and the
    queue without it. *)
Fixpoint firstService (iface : Z) (packets : list ServicePacket.t)
    : option (ServicePacket.t * list ServicePacket.t) :=
  match packets with
  | [] => None
  | datagram :: rest =>
    if negb (ServicePacket.iface datagram =? iface) then
      match firstService iface rest with
      | Some (found, rest') => Some (found, datagram :: rest')
      | None => None
      end
    else Some (datagram, rest)
  end.

Definition handleUdpSend (iface : Z) (now : Z) (w : LambdaWorker) : LambdaWorker :=
  match firstService iface (servicePackets w) with
  | Some (datagram, rest) =>
    let w1 :=
      sendUdpPacket (ServicePacket.destination datagram)
        (ServicePacket.data datagram) (ServicePacket.iface datagram) w in
    with_servicePackets rest w1
  | None =>
    if negb (iface =? 0) || is_nil (rayPackets w) then w
    else
      match rayPackets w with
      | [] => w
      | packet :: rest =>
        let w1 :=
          sendUdpPacket (RayPacket.destination packet) (RayPacket.data packet)
            0 w in
        let packet' :=
          RayPacket.set_trackedRays
            (map incTick (RayPacket.trackedRays packet)) packet in
        let w2 :=
          if RayPacket.reliable packet' then
            with_outstandingRayPackets
              (outstandingRayPackets w1 ++ [(now + PACKET_TIMEOUT, packet')])
              w1
          else w1 in
        with_rayPackets rest w2
      end
  end.

(** The predicates of the [UdpSend] actions, without the pacing test of the
    channel. *)
Definition udpSend0_pending (w : LambdaWorker) : bool :=
  negb (is_nil (servicePackets w)) || negb (is_nil (rayPackets w)).
Definition udpSend1_pending (w : LambdaWorker) : bool :=
  negb (is_nil (servicePackets w)).

(** *** Receiving: [handleUdpReceive] *)

(** The loop over the payload of an [Ack]: 11 bytes per triple. Reading past
    the end of the chunk has no result. *)
Fixpoint parseAcks (chunk : list Byte.byte) (acks : gset Z) : option (gset Z) :=
  match chunk with
  | [] => Some acks
  | b0 :: b1 :: b2 :: b3 :: b4 :: b5 :: b6 :: b7 :: _ :: _ :: _ :: rest =>
    parseAcks rest ({[be_value [b0; b1; b2; b3; b4; b5; b6; b7]]} ∪ acks)
  | _ => None
  end.

(** The walk over the completed messages, newest first ([messages] is the
    reversed queue); returns what is left of them, newest first. *)
Fixpoint receiveWalk (source : Address) (messages : list Message.t)
    (w : LambdaWorker) : option (list Message.t * LambdaWorker) :=
  match messages with
  | [] => Some ([], w)
  | m :: older =>
    if Message.is_read m then Some (m :: older, w)
    else
      let it := Message.set_read m in
      let seqNo := Message.sequence_number it in
      let w1 :=
        if Message.reliable it then
          with_toBeAcked
            (<[source := default [] (toBeAcked w !! source) ++
                           [(seqNo, Message.tracked it, Message.attempt it)]]>
               (toBeAcked w)) w
        else w in
      let received : gset Z := default ∅ (receivedPacketSeqNos w1 !! source) in
      if Message.reliable it && bool_decide (seqNo ∈ received) then
        receiveWalk source older
          (with_receivedPacketSeqNos
             (<[source := received]> (receivedPacketSeqNos w1)) w1)
      else
        let w2 :=
          if Message.reliable it then
            with_receivedPacketSeqNos
              (<[source := {[seqNo]} ∪ received]> (receivedPacketSeqNos w1)) w1
          else w1 in
        if bool_decide (Message.opcode it = OpCode.Ack) then
          acks ← parseAcks (Message.payload it)
                   (default ∅ (receivedAcks w2 !! source));
          receiveWalk source older
            (with_receivedAcks (<[source := acks]> (receivedAcks w2)) w2)
        else
          '(kept, w3) ← receiveWalk source older w2;
          Some (it :: kept, w3)
  end.

(** [handleUdpReceive]: [source] is the sender of the datagram and [parsed]
    the messages that [messageParser.parse(data)] appended. *)
Definition handleUdpReceive (source : Address) (parsed : list Message.t)
    (w : LambdaWorker) : option LambdaWorker :=
  '(kept, w1) ← receiveWalk source (reverse (messageParser w ++ parsed)) w;
  Some (with_messageParser (reverse kept) w1).

(** *** The peer handshake: [processMessage] and [handlePeers] *)

Definition createConnectionRequest (peer : Worker.t) (addressNo : Z)
    (w : LambdaWorker) : Message.t :=
  Message.plain (deref_workerId w) OpCode.ConnectionRequest
    (to_string_request (deref_workerId w) (mySeed w) (Worker.seed peer)
       addressNo).

Definition createConnectionResponse (peer : Worker.t) (addressNo : Z)
    (w : LambdaWorker) : Message.t :=
  Message.plain (deref_workerId w) OpCode.ConnectionResponse
    (to_string_response (deref_workerId w) (mySeed w) (Worker.seed peer)
       addressNo (elements (treeletIds w))).

(** [servicePackets.emplace_front(...); servicePackets.front().iface = i]. *)
Definition emplaceFrontService (addr : Address) (destId : Z) (msg : Message.t)
    (i : Z) (w : LambdaWorker) : LambdaWorker :=
  with_servicePackets
    (ServicePacket.set_iface i (ServicePacket.make addr destId msg)
       :: servicePackets w) w.

(** [case OpCode::Hey], for the decoded worker id; [coordinatorAddr] is the
    address the worker was started with. *)
Definition processHey (coordinatorAddr : Address) (id : Z) (w : LambdaWorker)
    : LambdaWorker :=
  let w1 := with_workerId (Some id) w in
  let peer0 := default (Worker.make 0) (peers w1 !! 0) in
  let peer := Worker.set_address (coordinatorAddr, coordinatorAddr) peer0 in
  let w2 := with_peers (<[0 := peer]> (peers w1)) w1 in
  let w3 :=
    emplaceFrontService coordinatorAddr 0 (createConnectionRequest peer 0 w2)
      0 w2 in
  emplaceFrontService coordinatorAddr 0 (createConnectionRequest peer 1 w3)
    1 w3.

(** The loop of [handleConnectTo] over the first two addresses. *)
Fixpoint connectAddresses (id : Z) (i : Z) (addrs : list Address)
    (peer : Worker.t) (a2w : gmap Address Z) : Worker.t * gmap Address Z :=
  match addrs with
  | [] => (peer, a2w)
  | addr :: rest =>
    if i <? 2 then
      let address' := default (Worker.address peer)
                        (arr2_set (Worker.address peer) i addr) in
      connectAddresses id (i + 1) rest (Worker.set_address address' peer)
        (if bool_decide (is_Some (a2w !! addr)) then a2w else <[addr := id]> a2w)
    else (peer, a2w)
  end.

Definition handleConnectTo (proto : ConnectTo.t) (w : LambdaWorker) : LambdaWorker :=
  let id := ConnectTo.worker_id proto in
  if bool_decide (peers w !! id = None) && negb (id =? deref_workerId w) then
    let '(peer, a2w) :=
      connectAddresses id 0 (ConnectTo.address proto) (Worker.make id)
        (addressToWorker w) in
    with_addressToWorker a2w (with_peers (<[id := peer]> (peers w)) w)
  else w.

(** [case OpCode::ConnectionRequest]: [false] when the peer is not known
    yet (the message is kept for the next pass). *)
Definition processConnectionRequest (proto : ConnectRequest.t) (w : LambdaWorker)
    : option (bool * LambdaWorker) :=
  match peers w !! ConnectRequest.worker_id proto with
  | None => Some (false, w)
  | Some peer =>
    addr ← arr2_get (Worker.address peer) (ConnectRequest.address_no proto);
    Some (true,
          emplaceFrontService addr (ConnectRequest.worker_id proto)
            (createConnectionResponse peer (ConnectRequest.address_no proto) w)
            (ConnectRequest.address_no proto) w)
  end.

(** [while (!treeletPending.empty())]: moves the front of the pending deque
    to the back of the out deque. *)
Fixpoint movePending (treeletPending treeletOut : list RayState)
    : list RayState * list RayState :=
  match treeletPending with
  | [] => ([], treeletOut)
  | front :: rest => movePending rest (treeletOut ++ [front])
  end.

(** The body of [for (const auto treeletId : proto.treelet_ids())]. *)
Definition announceTreelet (otherWorkerId : Z) (w : LambdaWorker)
    (treeletId : Z) : LambdaWorker :=
  let w1 :=
    with_peers
      (alter (fun p => Worker.set_treelets ({[treeletId]} ∪ Worker.treelets p) p)
         otherWorkerId (peers w)) w in
  let w2 :=
    with_treeletToWorker
      (<[treeletId := default [] (treeletToWorker w1 !! treeletId)
                        ++ [otherWorkerId]]> (treeletToWorker w1)) w1 in
  let w3 := with_neededTreelets (neededTreelets w2 ∖ {[treeletId]}) w2 in
  let w4 := with_requestedTreelets (requestedTreelets w3 ∖ {[treeletId]}) w3 in
  match pendingQueue w4 !! treeletId with
  | Some treeletPending =>
    let treeletOut := default [] (outQueue w4 !! treeletId) in
    let w5 :=
      with_outQueueSize (wrap64 (outQueueSize w4 + Z.of_nat (length treeletPending)))
        w4 in
    let w6 :=
      with_pendingQueueSize
        (wrap64 (pendingQueueSize w5 - Z.of_nat (length treeletPending))) w5 in
    let moved := movePending treeletPending treeletOut in
    with_pendingQueue (<[treeletId := moved.1]> (pendingQueue w6))
      (with_outQueue (<[treeletId := moved.2]> (outQueue w6)) w6)
  | None => w4
  end.

(** [case OpCode::ConnectionResponse], for the decoded payload. Writing
    [connected[address_no]] outside the array has no result. *)
Definition processConnectionResponse (proto : ConnectResponse.t) (now : Z)
    (w : LambdaWorker) : option LambdaWorker :=
  let otherWorkerId := ConnectResponse.worker_id proto in
  match peers w !! otherWorkerId with
  | None => Some w
  | Some peer0 =>
    let peer1 := Worker.set_seed (ConnectResponse.my_seed proto) peer0 in
    if negb (bool_decide (Worker.state peer1 = Worker.Connected))
       && (ConnectResponse.your_seed proto =? mySeed w) then
      connected' ← arr2_set (Worker.connected peer1)
                     (ConnectResponse.address_no proto) true;
      let peer2 := Worker.set_connected connected' peer1 in
      let peer3 :=
        Worker.set_state
          (if Z.b2z (Worker.connected peer2).1 + Z.b2z (Worker.connected peer2).2
              =? 2
           then Worker.Connected else Worker.Connecting) peer2 in
      if negb (bool_decide (Worker.state peer3 = Worker.Connected)) then
        Some (with_peers (<[otherWorkerId := peer3]> (peers w)) w)
      else
        let peer4 :=
          Worker.set_nextKeepAlive (now + KEEP_ALIVE_INTERVAL) peer3 in
        let w1 := with_peers (<[otherWorkerId := peer4]> (peers w)) w in
        Some (foldl (announceTreelet otherWorkerId) w1
                (ConnectResponse.treelet_ids proto))
    else Some (with_peers (<[otherWorkerId := peer1]> (peers w)) w)
  end.

(** The body of the loop of [handlePeers]. *)
Definition handlePeers_entry (now : Z) (w : LambdaWorker) (kv : Z * Worker.t)
    : LambdaWorker :=
  let peerId := kv.1 in
  let peer := kv.2 in
  match Worker.state peer with
  | Worker.Connecting =>
    let w1 :=
      emplaceFrontService (Worker.address peer).1 (Worker.id peer)
        (createConnectionRequest peer 0 w) 0 w in
    let w2 :=
      emplaceFrontService (Worker.address peer).2 (Worker.id peer)
        (createConnectionRequest peer 1 w1) 1 w1 in
    with_peers
      (<[peerId := Worker.set_tries (wrap64 (Worker.tries peer + 1)) peer]>
         (peers w2)) w2
  | Worker.Connected =>
    if (0 <? peerId) && (Worker.nextKeepAlive peer <? now) then
      let peer' :=
        Worker.set_nextKeepAlive (Worker.nextKeepAlive peer + KEEP_ALIVE_INTERVAL)
          peer in
      let w1 := with_peers (<[peerId := peer']> (peers w)) w in
      with_servicePackets
        (servicePackets w1 ++
           [ServicePacket.make (Worker.address peer).1 (Worker.id peer)
              (Message.plain (deref_workerId w1) OpCode.Ping
                 (put_field64 (deref_workerId w1)))]) w1
    else w
  end.

(** [for (auto it = peers.begin(); it != peers.end(); it++)]: the peers are
    taken in the order of their ids. *)
Definition handlePeers (now : Z) (w : LambdaWorker) : LambdaWorker :=
  foldl (handlePeers_entry now) w (map_in_order (peers w)).

(** *** The runs of the worker *)

(** The worker as it is constructed: no peer is known, the queues and the
    transport tables are empty. *)
Definition initial (reliably : bool) (seed : Z) : LambdaWorker :=
  mkLambdaWorker reliably None seed ∅ ∅ ∅ ∅ [] ∅ ∅ [] [] 0 0 ∅ ∅ ∅ [] [] []
    ∅ ∅ ∅ [] 0 O [].

(** One activation of a handler. [step_other] stands for the handlers that
    are not modelled (finished rays, statistics, diagnostics, scene loading,
    benchmark): they leave the peer table and the seed alone. *)
Inductive step : LambdaWorker -> LambdaWorker -> Prop :=
  | step_rayQueue w w' :
      handleRayQueue w = Some w' -> step w w'
  | step_generateRays states w :
      step w (generateRays states w)
  | step_outQueue w w' :
      handleOutQueue w = Some w' -> step w w'
  | step_rayAcks now w :
      step w (handleRayAcknowledgements now w)
  | step_udpSend iface now w :
      step w (handleUdpSend iface now w)
  | step_udpReceive source parsed w w' :
      handleUdpReceive source parsed w = Some w' -> step w w'
  | step_hey addr id w :
      step w (processHey addr id w)
  | step_connectTo proto w :
      step w (handleConnectTo proto w)
  | step_connectionRequest proto w b w' :
      processConnectionRequest proto w = Some (b, w') -> step w w'
  | step_connectionResponse proto now w w' :
      processConnectionResponse proto now w = Some w' -> step w w'
  | step_peers now w :
      step w (handlePeers now w)
  | step_other w w' :
      peers w' = peers w -> mySeed w' = mySeed w -> step w w'.

Inductive reachable : LambdaWorker -> Prop :=
  | reachable_initial reliably seed : reachable (initial reliably seed)
  | reachable_step w w' : reachable w -> step w w' -> reachable w'.

(** *** Vocabulary of the statements *)

(** The acks received so far from [addr]: [receivedAcks[addr]]. *)
Definition acksFrom (w : LambdaWorker) (addr : Address) : gset Z :=
  default ∅ (receivedAcks w !! addr).

(** [packet] has not been acknowledged by its destination. *)
Definition unacked (w : LambdaWorker) (packet : RayPacket.t) : Prop :=
  RayPacket.sequenceNumber packet ∉ acksFrom w (RayPacket.destination packet).

#[global] Instance unacked_dec w packet : Decision (unacked w packet).
Proof. unfold unacked. apply _. Defined.

(** The packet as it is queued again for retransmission. *)
Definition retransmitted (packet : RayPacket.t) : RayPacket.t :=
  RayPacket.set_retransmission true (RayPacket.incrementAttempts packet).

(** The packet as it is kept after it was sent: its tracked rays have
    ticked. *)
Definition sentPacket (packet : RayPacket.t) : RayPacket.t :=
  RayPacket.set_trackedRays (map incTick (RayPacket.trackedRays packet)) packet.

(** The deadline of the entry at the head of [rest], if any, is after
    [now]. *)
Definition notDue (now : Z) (rest : list (Z * RayPacket.t)) : Prop :=
  match rest with
  | [] => True
  | front :: _ => now < front.1
  end.

(** A peer in state [Connected] has both interfaces connected. *)
Definition bothConnected (p : Worker.t) : Prop :=
  Worker.state p = Worker.Connected -> Worker.connected p = (true, true).

Definition peersConsistent (w : LambdaWorker) : Prop :=
  ∀ id p, peers w !! id = Some p -> bothConnected p.


(** The newest completed message, if any, is marked read. *)
Definition tailRead (messages : list Message.t) : Prop :=
  match reverse messages with
  | [] => True
  | newest :: _ => Message.is_read newest = true
  end.


Definition toBeAckedFor (w : LambdaWorker) (addr : Address)
    : list (Z * bool * Z) :=
  default [] (toBeAcked w !! addr).

(** [pendingQueue[t]], [outQueue[t]] and [treeletToWorker[t]]. *)
Definition pendingFor (w : LambdaWorker) (t : Z) : list RayState :=
  default [] (pendingQueue w !! t).
Definition outFor (w : LambdaWorker) (t : Z) : list RayState :=
  default [] (outQueue w !! t).
Definition workersFor (w : LambdaWorker) (t : Z) : list Z :=
  default [] (treeletToWorker w !! t).

(** The number of rays pending for the treelets [ts], each treelet counted
    once. *)
Definition pendingCount (w : LambdaWorker) (ts : list Z) : Z :=
  foldr Z.add 0 (map (fun t => Z.of_nat (length (pendingFor w t)))
                   (remove_dups ts)).

(** A serialized ray as [RecordWriter] writes it: its length on 4 bytes,
    then its bytes. *)
Definition framed (s : list Byte.byte) : list Byte.byte :=
  RecordWriter_write [] s.

Definition framedRays (rays : list RayState) : list Byte.byte :=
  flat_map (fun ray => framed (serialize ray)) rays.

(** The serialized ray is not empty and, with its length prefix, is no
    longer than a datagram. *)
Definition fits (ray : RayState) : Prop :=
  0 < len (serialize ray) ∧ len (serialize ray) + 4 <= UDP_MTU_BYTES.

(** What is still to be written: the carried ray, then the queue. *)
Definition toWrite (unpackedRayStr : list Byte.byte) (outRays : list RayState)
    : list Byte.byte :=
  (if is_nil unpackedRayStr then [] else framed unpackedRayStr)
    ++ framedRays outRays.

Definition packetPayload (packet : RayPacket.t) : list Byte.byte :=
  Message.payload (RayPacket.data packet).

(** [sequenceNumbers[addr]]. *)
Definition seqNoFor (w : LambdaWorker) (addr : Address) : Z :=
  default 0 (sequenceNumbers w !! addr).

(** [k] times [peerSeqNo++], and the numbers handed out on the way. *)
Fixpoint bump (k : nat) (s : Z) : Z :=
  match k with
  | O => s
  | S k' => bump k' (wrap64 (s + 1))
  end.

Fixpoint consecutive (s : Z) (k : nat) : list Z :=
  match k with
  | O => []
  | S k' => s :: consecutive (wrap64 (s + 1)) k'
  end.

Definition packetsTo (addr : Address) (packets : list RayPacket.t)
    : list RayPacket.t :=
  filter (fun p => RayPacket.destination p = addr) packets.

(** A packet as [handleOutQueue] builds it. *)
Definition freshPacket (w : LambdaWorker) (packet : RayPacket.t) : Prop :=
  RayPacket.attempt packet = 0 ∧ RayPacket.retransmission packet = false ∧
  RayPacket.reliable packet = sendReliably w ∧
  Message.sequence_number (RayPacket.data packet)
    = RayPacket.sequenceNumber packet ∧
  Message.opcode (RayPacket.data packet) = OpCode.SendRays.

(** Every treelet with rays to send has candidates, all of them known
    peers. *)
Definition sendable (w : LambdaWorker) : Prop :=
  ∀ t rays, outQueue w !! t = Some rays -> rays ≠ [] ->
    workersFor w t ≠ [] ∧
    Forall (fun c => is_Some (peers w !! c)) (workersFor w t).

(** What the sending of acks leaves alone. *)
Definition ackFrame (w w' : LambdaWorker) : Prop :=
  receivedAcks w' = receivedAcks w ∧
  outstandingRayPackets w' = outstandingRayPackets w ∧
  rayPackets w' = rayPackets w ∧
  sequenceNumbers w' = sequenceNumbers w ∧
  peers w' = peers w ∧ mySeed w' = mySeed w.

(** What leaves the peer table and the seed alone. *)
Definition peerFrame (w w' : LambdaWorker) : Prop :=
  peers w' = peers w ∧ mySeed w' = mySeed w.

(** The turns still needed by the outer loop. *)
Definition turns (outRays : list RayState) (str : list Byte.byte) : nat :=
  (2 * length outRays + (if is_nil str then 0 else 1))%nat.

(** *** Writing to the coordinator

    [handleNeededTreelets], [handleFinishedPaths] and [handleFinishedQueue]
    write to the coordinator over TCP: the messages they enqueue are
    returned, in order, beside the new state. *)

Context `{RR : !RayRecords}.

(** The body of the loop of [handleNeededTreelets]. *)
Definition requestTreelet (acc : list Message.t * LambdaWorker)
    (treeletId : Z) : list Message.t * LambdaWorker :=
  let w := acc.2 in
  if bool_decide (treeletId ∈ requestedTreelets w) then acc
  else
    (acc.1 ++ [Message.plain (deref_workerId w) OpCode.GetWorker
                 (to_string_getWorker treeletId)],
     with_requestedTreelets ({[treeletId]} ∪ requestedTreelets w) w).

(** [for (const auto& treeletId : neededTreelets)]: the treelets are taken in
    the order of their ids. *)
Definition handleNeededTreelets (w : LambdaWorker)
    : list Message.t * LambdaWorker :=
  let acc := foldl requestTreelet ([], w) (set_in_order (neededTreelets w)) in
  (acc.1, with_neededTreelets ∅ acc.2).

Definition handleFinishedPaths (w : LambdaWorker)
    : list Message.t * LambdaWorker :=
  let payload :=
    foldl (fun payload pathId => payload ++ put_field64 pathId) []
      (finishedPathIds w) in
  let w1 := with_finishedPathIds [] w in
  ([Message.plain (deref_workerId w1) OpCode.FinishedPaths payload], w1).

(** [FinishedRayAction] (lambda-worker.h is not part of the sources): the
    three actions that the handler names, and any other value of
    [config.finishedRayAction]. *)
Inductive FinishedRayAction : Type :=
  | Discard | SendBack | Upload | OtherAction (n : Z).

(** [handleFinishedQueue], for [config.finishedRayAction = action]; an
    action that is none of the three throws. *)
Definition handleFinishedQueue (action : FinishedRayAction) (w : LambdaWorker)
    : option (list Message.t * LambdaWorker) :=
  match action with
  | Discard => Some ([], with_finishedQueue [] w)
  | SendBack =>
    let oss :=
      foldl (fun oss ray => RecordWriter_write oss (finishedRecord ray)) []
        (finishedQueue w) in
    let w1 := with_finishedQueue [] w in
    Some ([Message.plain (deref_workerId w1) OpCode.FinishedRays oss], w1)
  | Upload => Some ([], w)
  | OtherAction _ => None
  end.

(** The predicates of the [RayQueue], [OutQueue], [FinishedQueue], [Peers]
    and [Messages] actions. *)
Definition rayQueuePredicate (w : LambdaWorker) : bool :=
  negb (is_nil (rayQueue w)).
Definition outQueuePredicate (w : LambdaWorker) : bool :=
  outQueueSize w >? 0.
Definition finishedQueuePredicate (action : FinishedRayAction)
    (w : LambdaWorker) : bool :=
  match action with
  | Discard => Z.of_nat (length (finishedQueue w)) >? 5000
  | SendBack => negb (is_nil (finishedQueue w))
  | _ => false
  end.
Definition peersPredicate (w : LambdaWorker) : bool :=
  negb (bool_decide (peers w = ∅)).
Definition messagesPredicate (w : LambdaWorker) : bool :=
  negb (is_nil (messageParser w)).

(** *** Receiving rays: [case OpCode::SendRays] of [processMessage] *)

(** Modelled from the spec: [protobuf::RecordReader] (its class is not part
    of the sources), the reader of what [RecordWriter] writes. "Each [ray
    is] framed by a 4-byte length prefix", "length-prefixed (4-byte
    big-endian)". A record that is cut short ends the reading; every record
    takes at least four bytes, so [length data] turns are enough. *)
Fixpoint readRecords (fuel : nat) (data : list Byte.byte)
    : list (list Byte.byte) :=
  match fuel with
  | O => []
  | S fuel' =>
    if len data <? 4 then []
    else
      let n := be_value (take 4 data) in
      let rest := drop 4 data in
      if len rest <? n then []
      else take (Z.to_nat n) rest :: readRecords fuel' (drop (Z.to_nat n) rest)
  end.

Definition RecordReader_records (data : list Byte.byte)
    : list (list Byte.byte) :=
  readRecords (length data) data.

(** The body of the loop: [deserialize], [hop++], [tick = 0],
    [pushRayQueue]. *)
Definition receiveRay (w : LambdaWorker) (rayStr : list Byte.byte)
    : LambdaWorker :=
  pushRayQueue (resetTick (incHop (deserialize rayStr))) w.

Definition processSendRays (message : Message.t) (w : LambdaWorker)
    : LambdaWorker :=
  foldl receiveRay w (RecordReader_records (Message.payload message)).

(** *** Vocabulary of the statements, continued *)

(** The number of rays in the deques of [queue]. *)
Definition queuedRays (queue : gmap Z (list RayState)) : Z :=
  foldr Z.add 0 (map (fun kv => Z.of_nat (length kv.2)) (map_to_list queue)).

(** The counters agree with the deques, as 64-bit numbers. *)
Definition countersAgree (w : LambdaWorker) : Prop :=
  wrap64 (outQueueSize w) = wrap64 (queuedRays (outQueue w)) ∧
  wrap64 (pendingQueueSize w) = wrap64 (queuedRays (pendingQueue w)).

Definition countersInRange (w : LambdaWorker) : Prop :=
  0 <= outQueueSize w < 2 ^ 64 ∧ 0 <= pendingQueueSize w < 2 ^ 64.

(** The peers that are known stay known. *)
Definition peersKept (w w' : LambdaWorker) : Prop :=
  ∀ c, is_Some (peers w !! c) -> is_Some (peers w' !! c).

(** Every treelet of [treeletToWorker] has at least one worker, all of its
    workers are known peers, and every treelet with rays to send is one of
    them. *)
Definition routable (w : LambdaWorker) : Prop :=
  (∀ t workers, treeletToWorker w !! t = Some workers ->
     workers ≠ [] ∧ Forall (fun c => is_Some (peers w !! c)) workers) ∧
  (∀ t rays, outQueue w !! t = Some rays -> rays ≠ [] ->
     is_Some (treeletToWorker w !! t)).

(** Every deque of [outQueue] and of [pendingQueue] holds rays for its own
    treelet only. *)
Definition keyed (w : LambdaWorker) : Prop :=
  ∀ t rays,
    outQueue w !! t = Some rays ∨ pendingQueue w !! t = Some rays ->
    Forall (fun ray => CurrentTreelet ray = t) rays.

(** Every treelet with pending rays is on the list of the treelets to ask
    the coordinator for, or was asked for. *)
Definition remembered (w : LambdaWorker) : Prop :=
  ∀ t rays, pendingQueue w !! t = Some rays -> rays ≠ [] ->
    t ∈ neededTreelets w ∪ requestedTreelets w.

(** What leaves the pending rays and the treelets to ask for alone. *)
Definition treeletFrame (w w' : LambdaWorker) : Prop :=
  pendingQueue w' = pendingQueue w ∧
  neededTreelets w' = neededTreelets w ∧
  requestedTreelets w' = requestedTreelets w.

Definition healthy (w : LambdaWorker) : Prop :=
  countersAgree w ∧ countersInRange w ∧ routable w.

(** A ray that can be neither traced nor shaded: nothing left to visit and
    no hit. *)
Definition invalidRay (ray : RayState) : bool :=
  toVisitEmpty ray && negb (hit ray).

(** The service packets that [handlePeers] queues for one peer: at the
    front, the connection requests of a peer that is connecting (interface
    1 first); at the back, the keep-alive of a connected peer whose deadline
    has passed. *)
Definition peerRequests (w : LambdaWorker) (peer : Worker.t)
    : list ServicePacket.t :=
  match Worker.state peer with
  | Worker.Connecting =>
    [ServicePacket.set_iface 1
       (ServicePacket.make (Worker.address peer).2 (Worker.id peer)
          (createConnectionRequest peer 1 w));
     ServicePacket.set_iface 0
       (ServicePacket.make (Worker.address peer).1 (Worker.id peer)
          (createConnectionRequest peer 0 w))]
  | Worker.Connected => []
  end.

Definition keepAliveDue (now : Z) (kv : Z * Worker.t) : bool :=
  match Worker.state kv.2 with
  | Worker.Connected => (0 <? kv.1) && (Worker.nextKeepAlive kv.2 <? now)
  | Worker.Connecting => false
  end.

Definition peerKeepAlive (now : Z) (w : LambdaWorker) (kv : Z * Worker.t)
    : list ServicePacket.t :=
  if keepAliveDue now kv then
    [ServicePacket.make (Worker.address kv.2).1 (Worker.id kv.2)
       (Message.plain (deref_workerId w) OpCode.Ping
          (put_field64 (deref_workerId w)))]
  else [].

(** The peer as [handlePeers] leaves it. *)
Definition peerAfter (now : Z) (kv : Z * Worker.t) : Worker.t :=
  match Worker.state kv.2 with
  | Worker.Connecting =>
    Worker.set_tries (wrap64 (Worker.tries kv.2 + 1)) kv.2
  | Worker.Connected =>
    if keepAliveDue now kv then
      Worker.set_nextKeepAlive
        (Worker.nextKeepAlive kv.2 + KEEP_ALIVE_INTERVAL) kv.2
    else kv.2
  end.

(** The sequence number of an entry of [toBeAcked], as the 64 bits that are
    sent. *)
Definition ackedSeqNo (r : Z * bool * Z) : Z := wrap64 r.1.1.

(** The eleven bytes of an entry of [toBeAcked] in the payload of an
    [Ack]. *)
Definition ackTriple (r : Z * bool * Z) : list Byte.byte :=
  put_field64 r.1.1 ++ put_field8 r.1.2 ++ put_field16 r.2.

(** A service packet as [handleRayAcknowledgements] builds it for [addr]:
    an unreliable, unread [Ack] for interface 0. *)
Definition ackPacketFor (addr : Address) (p : ServicePacket.t) : Prop :=
  ServicePacket.destination p = addr ∧ ServicePacket.ackPacket p = true ∧
  ServicePacket.iface p = 0 ∧
  Message.opcode (ServicePacket.data p) = OpCode.Ack ∧
  Message.reliable (ServicePacket.data p) = false ∧
  Message.is_read (ServicePacket.data p) = false.

Definition servicePayload (p : ServicePacket.t) : list Byte.byte :=
  Message.payload (ServicePacket.data p).

(** The payloads of the packets of [packets] that go to [addr]. *)
Definition ackPayloads (addr : Address) (packets : list ServicePacket.t)
    : list (list Byte.byte) :=
  map servicePayload
    (filter (fun p => ServicePacket.destination p = addr) packets).

(** The size of the payload of an [Ack]: between one and 123 triples of
    eleven bytes. *)
Definition ackSized (p : ServicePacket.t) : Prop :=
  11 <= len (servicePayload p) <= UDP_MTU_BYTES + 3 ∧
  len (servicePayload p) mod 11 = 0.

(** What the receiver makes of the payloads of a run of [Ack] messages. *)
Definition parseAll (payloads : list (list Byte.byte)) (acks : gset Z)
    : option (gset Z) :=
  foldlM (fun acks payload => parseAcks payload acks) acks payloads.

(** What leaves the queues of rays for other workers alone. *)
Definition queueFrame (w w' : LambdaWorker) : Prop :=
  outQueue w' = outQueue w ∧ outQueueSize w' = outQueueSize w ∧
  pendingQueue w' = pendingQueue w ∧
  pendingQueueSize w' = pendingQueueSize w ∧
  treeletToWorker w' = treeletToWorker w.

(** What leaves the packets to send alone. *)
Definition sendFrame (w w' : LambdaWorker) : Prop :=
  servicePackets w' = servicePackets w ∧ rayPackets w' = rayPackets w ∧
  outstandingRayPackets w' = outstandingRayPackets w ∧
  workerId w' = workerId w ∧ ackId w' = ackId w ∧
  randEngine w' = randEngine w ∧ addressToWorker w' = addressToWorker w.

(** The sender receives the [Ack] packets one datagram after the other. *)
Definition receiveAcks (source : Address) (acks : list ServicePacket.t)
    (w : LambdaWorker) : option LambdaWorker :=
  foldlM (fun w a => handleUdpReceive source [ServicePacket.data a] w) w acks.

(** *** The runs of the worker, with the queues

    One activation of a handler, as [step], with the handlers of this
    section; [act_other] stands for what is left (statistics, diagnostics,
    scene loading, benchmark), which leaves the peer table, the seed, the
    ray queues for other workers, their counters and the treelets to ask
    for alone. *)
Inductive activation : LambdaWorker -> LambdaWorker -> Prop :=
  | act_rayQueue w w' :
      handleRayQueue w = Some w' -> activation w w'
  | act_generateRays states w :
      activation w (generateRays states w)
  | act_outQueue w w' :
      handleOutQueue w = Some w' -> activation w w'
  | act_rayAcks now w :
      activation w (handleRayAcknowledgements now w)
  | act_udpSend iface now w :
      activation w (handleUdpSend iface now w)
  | act_udpReceive source parsed w w' :
      handleUdpReceive source parsed w = Some w' -> activation w w'
  | act_hey addr id w :
      activation w (processHey addr id w)
  | act_connectTo proto w :
      activation w (handleConnectTo proto w)
  | act_connectionRequest proto w b w' :
      processConnectionRequest proto w = Some (b, w') -> activation w w'
  | act_connectionResponse proto now w w' :
      processConnectionResponse proto now w = Some w' -> activation w w'
  | act_peers now w :
      activation w (handlePeers now w)
  | act_neededTreelets w :
      activation w (handleNeededTreelets w).2
  | act_finishedPaths w :
      activation w (handleFinishedPaths w).2
  | act_finishedQueue action w out w' :
      handleFinishedQueue action w = Some (out, w') -> activation w w'
  | act_sendRays message w :
      activation w (processSendRays message w)
  | act_other w w' :
      peers w' = peers w -> mySeed w' = mySeed w ->
      outQueue w' = outQueue w -> outQueueSize w' = outQueueSize w ->
      pendingQueue w' = pendingQueue w ->
      pendingQueueSize w' = pendingQueueSize w ->
      treeletToWorker w' = treeletToWorker w ->
      neededTreelets w' = neededTreelets w ->
      requestedTreelets w' = requestedTreelets w ->
      activation w w'.

Inductive running : LambdaWorker -> Prop :=
  | running_initial reliably seed : running (initial reliably seed)
  | running_activation w w' : running w -> activation w w' -> running w'.
(** *** What a packet carries *)

(** [rays] are the rays of [packet]: its payload is their records in order,
    [rayCount] their number and [trackedRays] those with [trackRay] set. *)
Definition carries (packet : RayPacket.t) (rays : list RayState) : Prop :=
  packetPayload packet = framedRays rays ∧
  RayPacket.rayCount packet = Z.of_nat (length rays) ∧
  RayPacket.trackedRays packet = List.filter trackRay rays.

(** The rays of the groups marked with treelet [t], in order. *)
Definition raysFor (t : Z) (groups : list (Z * list RayState))
    : list RayState :=
  flat_map snd (filter (fun g => g.1 = t) groups).


End Model.

(** ** The [ParamSet] converters of messages/utils.cpp

    [ParamSet] (core/paramset.h) is not part of the sources: its lists of
    parameters are read as they are, and its [Add...] methods are taken as
    they come. *)

Module ParamSetCodec.

(** A [ParamSetItem<T>], its name and its [nValues] values; an item of the
    protobuf message has the same shape. *)
Definition Item (T : Type) : Type := (string * list T)%type.

(** The lists of a [ParamSet], and the repeated fields of a
    [protobuf::ParamSet]. The types of the values are [B], [I], [F] for
    [bool], [int], [Float], then those of the points, vectors, normals and
    spectra, [S] for [std::string]. *)
Record Lists (B I F P2 V2 P3 V3 N3 Sp S : Type) : Type := mkLists {
  bools : list (Item B);
  ints : list (Item I);
  floats : list (Item F);
  point2fs : list (Item P2);
  vector2fs : list (Item V2);
  point3fs : list (Item P3);
  vector3fs : list (Item V3);
  normals : list (Item N3);
  spectra : list (Item Sp);
  strings : list (Item S);
  textures : list (Item S)
}.

Arguments mkLists {B I F P2 V2 P3 V3 N3 Sp S}.
Arguments bools {B I F P2 V2 P3 V3 N3 Sp S}.
Arguments ints {B I F P2 V2 P3 V3 N3 Sp S}.
Arguments floats {B I F P2 V2 P3 V3 N3 Sp S}.
Arguments point2fs {B I F P2 V2 P3 V3 N3 Sp S}.
Arguments vector2fs {B I F P2 V2 P3 V3 N3 Sp S}.
Arguments point3fs {B I F P2 V2 P3 V3 N3 Sp S}.
Arguments vector3fs {B I F P2 V2 P3 V3 N3 Sp S}.
Arguments normals {B I F P2 V2 P3 V3 N3 Sp S}.
Arguments spectra {B I F P2 V2 P3 V3 N3 Sp S}.
Arguments strings {B I F P2 V2 P3 V3 N3 Sp S}.
Arguments textures {B I F P2 V2 P3 V3 N3 Sp S}.

Section Codec.
Context {B I F P2 V2 P3 V3 N3 Sp S : Type}.
Context {pP2 pV2 pP3 pV3 pN3 pSp : Type}.
(** [to_protobuf] and [from_protobuf] of the values *)
Context (toP2 : P2 -> pP2) (toV2 : V2 -> pV2) (toP3 : P3 -> pP3)
        (toV3 : V3 -> pV3) (toN3 : N3 -> pN3) (toSp : Sp -> pSp).
Context (ofP2 : pP2 -> P2) (ofV2 : pV2 -> V2) (ofP3 : pP3 -> P3)
        (ofV3 : pV3 -> V3) (ofN3 : pN3 -> N3) (ofSp : pSp -> Sp).
(** [ParamSet], the empty one, and its methods *)
Context {ParamSet : Type} (empty : ParamSet).
Context (AddBool : string -> list B -> nat -> ParamSet -> ParamSet)
        (AddInt : string -> list I -> nat -> ParamSet -> ParamSet)
        (AddFloat : string -> list F -> nat -> ParamSet -> ParamSet)
        (AddPoint2f : string -> list P2 -> nat -> ParamSet -> ParamSet)
        (AddVector2f : string -> list V2 -> nat -> ParamSet -> ParamSet)
        (AddPoint3f : string -> list P3 -> nat -> ParamSet -> ParamSet)
        (AddVector3f : string -> list V3 -> nat -> ParamSet -> ParamSet)
        (AddNormal3f : string -> list N3 -> nat -> ParamSet -> ParamSet)
        (AddSpectrum : string -> list Sp -> nat -> ParamSet -> ParamSet)
        (AddString : string -> list S -> nat -> ParamSet -> ParamSet)
        (AddTexture : string -> S -> ParamSet -> ParamSet).

(** The lambdas [ap] and [ao]: the item with its name and its values, the
    values converted by [ao]. *)
Definition ap {T : Type} (item : Item T) : Item T := (item.1, item.2).
Definition ao {T U : Type} (conv : T -> U) (item : Item T) : Item U :=
  (item.1, map conv item.2).

(** [to_protobuf(const ParamSet&)]: the twelve loops, in their order, each
    appending to a repeated field of the message; the fourth and the eighth
    both run over [ps.point2fs]. *)
Definition to_protobuf (ps : Lists B I F P2 V2 P3 V3 N3 Sp S)
    : Lists B I F pP2 pV2 pP3 pV3 pN3 pSp S :=
  let m0 := mkLists [] [] [] [] [] [] [] [] [] [] [] in
  let m1 := mkLists (bools m0 ++ map ap (bools ps)) (ints m0) (floats m0)
              (point2fs m0) (vector2fs m0) (point3fs m0) (vector3fs m0)
              (normals m0) (spectra m0) (strings m0) (textures m0) in
  let m2 := mkLists (bools m1) (ints m1 ++ map ap (ints ps)) (floats m1)
              (point2fs m1) (vector2fs m1) (point3fs m1) (vector3fs m1)
              (normals m1) (spectra m1) (strings m1) (textures m1) in
  let m3 := mkLists (bools m2) (ints m2) (floats m2 ++ map ap (floats ps))
              (point2fs m2) (vector2fs m2) (point3fs m2) (vector3fs m2)
              (normals m2) (spectra m2) (strings m2) (textures m2) in
  let m4 := mkLists (bools m3) (ints m3) (floats m3)
              (point2fs m3 ++ map (ao toP2) (point2fs ps)) (vector2fs m3)
              (point3fs m3) (vector3fs m3) (normals m3) (spectra m3)
              (strings m3) (textures m3) in
  let m5 := mkLists (bools m4) (ints m4) (floats m4) (point2fs m4)
              (vector2fs m4 ++ map (ao toV2) (vector2fs ps)) (point3fs m4)
              (vector3fs m4) (normals m4) (spectra m4) (strings m4)
              (textures m4) in
  let m6 := mkLists (bools m5) (ints m5) (floats m5) (point2fs m5)
              (vector2fs m5) (point3fs m5 ++ map (ao toP3) (point3fs ps))
              (vector3fs m5) (normals m5) (spectra m5) (strings m5)
              (textures m5) in
  let m7 := mkLists (bools m6) (ints m6) (floats m6) (point2fs m6)
              (vector2fs m6) (point3fs m6)
              (vector3fs m6 ++ map (ao toV3) (vector3fs ps)) (normals m6)
              (spectra m6) (strings m6) (textures m6) in
  let m8 := mkLists (bools m7) (ints m7) (floats m7)
              (point2fs m7 ++ map (ao toP2) (point2fs ps)) (vector2fs m7)
              (point3fs m7) (vector3fs m7) (normals m7) (spectra m7)
              (strings m7) (textures m7) in
  let m9 := mkLists (bools m8) (ints m8) (floats m8) (point2fs m8)
              (vector2fs m8) (point3fs m8) (vector3fs m8)
              (normals m8 ++ map (ao toN3) (normals ps)) (spectra m8)
              (strings m8) (textures m8) in
  let m10 := mkLists (bools m9) (ints m9) (floats m9) (point2fs m9)
               (vector2fs m9) (point3fs m9) (vector3fs m9) (normals m9)
               (spectra m9 ++ map (ao toSp) (spectra ps)) (strings m9)
               (textures m9) in
  let m11 := mkLists (bools m10) (ints m10) (floats m10) (point2fs m10)
               (vector2fs m10) (point3fs m10) (vector3fs m10) (normals m10)
               (spectra m10) (strings m10 ++ map ap (strings ps))
               (textures m10) in
  mkLists (bools m11) (ints m11) (floats m11) (point2fs m11) (vector2fs m11)
    (point3fs m11) (vector3fs m11) (normals m11) (spectra m11) (strings m11)
    (textures m11 ++ map ap (textures ps)).

(** One loop of [from_protobuf(const protobuf::ParamSet&)]:
    [ps.Add...(item.name(), values, item.values_size())]. *)
Definition addAll {T U : Type}
    (Add : string -> list U -> nat -> ParamSet -> ParamSet) (conv : T -> U)
    (items : list (Item T)) (ps : ParamSet) : ParamSet :=
  foldl (fun ps item => Add item.1 (map conv item.2) (length item.2) ps)
    ps items.

(** The loop over [pp.textures()]: only the first value of an item is
    added, an item without values adds nothing. *)
Definition addTextures (items : list (Item S)) (ps : ParamSet) : ParamSet :=
  foldl (fun ps item =>
           match item.2 with
           | [] => ps
           | val :: _ => AddTexture item.1 val ps
           end) ps items.

Definition from_protobuf (pp : Lists B I F pP2 pV2 pP3 pV3 pN3 pSp S)
    : ParamSet :=
  let ps1 := addAll AddBool (fun v => v) (bools pp) empty in
  let ps2 := addAll AddInt (fun v => v) (ints pp) ps1 in
  let ps3 := addAll AddFloat (fun v => v) (floats pp) ps2 in
  let ps4 := addAll AddPoint2f ofP2 (point2fs pp) ps3 in
  let ps5 := addAll AddVector2f ofV2 (vector2fs pp) ps4 in
  let ps6 := addAll AddPoint3f ofP3 (point3fs pp) ps5 in
  let ps7 := addAll AddVector3f ofV3 (vector3fs pp) ps6 in
  let ps8 := addAll AddNormal3f ofN3 (normals pp) ps7 in
  let ps9 := addAll AddSpectrum ofSp (spectra pp) ps8 in
  let ps10 := addAll AddString (fun v => v) (strings pp) ps9 in
  addTextures (textures pp) ps10.

End Codec.
End ParamSetCodec.

(** ** A small instance, to run the handlers on *)

Module Sample.

(** A ray reduced to what the worker observes of it. *)
Record ray : Type := mkRay {
  ray_treelet : Z;
  ray_bytes : list Byte.byte;
  ray_tracked : bool;
  ray_tick : Z
}.

Definition rays : RayModel := {|
  RayState := ray;
  CurrentTreelet := ray_treelet;
  toVisitEmpty := fun _ => true;
  hit := fun _ => true;
  isShadowRay := fun _ => false;
  trackRay := ray_tracked;
  PathID := fun _ => 0;
  serialize := ray_bytes;
  clearLd := fun r => r;
  incTick := fun r =>
    mkRay (ray_treelet r) (ray_bytes r) (ray_tracked r) (ray_tick r + 1);
  Trace := fun r => r;
  Shade := fun _ => ([], true)
|}.

Definition runtime : Runtime := {|
  coin := fun _ => false;
  pick := fun _ => O;
  PACKET_TIMEOUT := 1000;
  KEEP_ALIVE_INTERVAL := 1000;
  to_string_request := fun _ _ _ _ => [];
  to_string_response := fun _ _ _ _ _ => []
|}.

Definition worker : Type := @LambdaWorker rays.

Definition addrA : Address := ("10.0.0.1"%string, 5000).
Definition addrB : Address := ("10.0.0.2"%string, 5000).

(** A worker that owns treelet 0, with id 1 and seed 42. *)
Definition w0 : worker :=
  with_treeletIds (RM := rays) {[0]}
    (with_workerId (RM := rays) (Some 1) (initial (RM := rays) true 42)).

Definition small_ray (t : Z) : ray := mkRay t [Byte.x01; Byte.x02] false 0.


(** A ray of 600 bytes: two of them fit in a datagram, three do not. *)
Definition mid_ray (t : Z) : ray := mkRay t (repeat Byte.x07 600) true 0.

(** A ray of 1340 bytes: it fits in a datagram, not beside the 25 bytes
    kept for the header. *)
Definition wide_ray (t : Z) : ray := mkRay t (repeat Byte.x05 1340) false 0.

(** Peer 2, at [addrA] and [addrB], as [ConnectTo] records it. *)
Definition connectTo2 : ConnectTo.t := ConnectTo.mk 2 [addrA; addrB].

Definition w_peer : worker :=
  handleConnectTo (RM := rays) connectTo2 w0.

(** The same, with interface 1 of peer 2 already confirmed. *)
Definition w_half : worker :=
  with_peers (RM := rays)
    (Worker.set_connected (false, true) <$> peers w_peer) w_peer.

(** Peer 2 is known; a ray for treelet 7, whose owner is not known, is
    pending. *)
Definition w_pending : worker :=
  routeProcessedRay (RM := rays) w_peer (small_ray 7).

Definition w_half_pending : worker :=
  routeProcessedRay (RM := rays) w_half (small_ray 7).

(** A matching response of peer 2 on interface 0, announcing treelet 7. *)
Definition response2 : ConnectResponse.t := ConnectResponse.mk 2 9 42 0 [7].

(** Peer 2 owns treelet 7 and [rays] are queued for it. *)
Definition w_out (queued : list ray) : worker :=
  with_outQueueSize (RM := rays) (Z.of_nat (length queued))
    (with_outQueue (RM := rays) (<[7 := queued]> ∅)
       (with_treeletToWorker (RM := rays) (<[7 := [2]]> ∅) w_peer)).

(** Peer 2 owns the treelets 1 and 2 and rays are queued for both. *)
Definition w_out2 (queued1 queued2 : list ray) : worker :=
  with_outQueueSize (RM := rays)
    (Z.of_nat (length queued1 + length queued2))
    (with_outQueue (RM := rays) (<[1 := queued1]> (<[2 := queued2]> ∅))
       (with_treeletToWorker (RM := rays) (<[1 := [2]]> (<[2 := [2]]> ∅))
          w_peer)).

(** A reliable packet to [addrA], sent and not acknowledged; the only ack
    ever received came from [addrB]. *)
Definition packetA : RayPacket.t (RM := rays) :=
  RayPacket.make (RM := rays) addrA 2 7 1
    (Message.make 1 OpCode.SendRays [] true 1 false) true 1 false.

Definition w_timeout : worker :=
  with_outstandingRayPackets (RM := rays) [(0, packetA)]
    (with_receivedAcks (RM := rays) (<[addrB := {[5]}]> ∅) w_peer).

(** The state after [handleOutQueue] has packed three rays of 600 bytes. *)
Definition w_sent : worker :=
  default w0
    (handleOutQueue (RM := rays) (RT := runtime)
       (w_out [mid_ray 7; mid_ray 7; mid_ray 7])).

(** Peer 2 as it is in [w_half]. *)
Definition peer2_half : Worker.t :=
  default (Worker.make 2) (peers w_half !! 2).

(** A reliable message from [addrA]. *)
Definition message1 : Message.t :=
  Message.make 2 OpCode.SendRays [] true 17 false.

End Sample.

(** ** The timeout of the event loop: [min_neg_infinity] and [run] *)

(** Minimum, where negative numbers are regarded as infinitely positive. *)
Definition min_neg_infinity (a b : Z) : Z :=
  if a <? 0 then b else if b <? 0 then a else Z.min a b.

(** The conversion of an [int64_t] to [int]. *)
Definition to_int (z : Z) : Z := (z + 2 ^ 31) mod 2 ^ 32 - 2 ^ 31.

(** [timeout_ms] of one channel in the loop of [run]: [within_pace] and
    [ahead_us] are what [within_pace()] and [micros_ahead_of_pace()] of the
    channel return (the channels are external). *)
Definition timeout_ms (within_pace : bool) (ahead_us : Z) : Z :=
  let ahead_ms := Z.quot ahead_us 1000 in
  let ahead_ms :=
    if negb (ahead_us =? 0) && (ahead_ms =? 0) then 1 else ahead_ms in
  to_int (if within_pace then -1 else ahead_ms).

(** [min_timeout_ms] as [run] hands it to [loop_once], for the channels in
    the order of the loop (the worker has two). *)
Definition min_timeout_ms (channels : list (bool * Z)) : Z :=
  foldl (fun acc c => min_neg_infinity acc (timeout_ms c.1 c.2)) (-1) channels.

(** ** The matrix converters of messages/utils.cpp *)

Module MatrixCodec.

(** The indices of a row or a column of a [Matrix4x4]. *)
Inductive I4 : Type := i0 | i1 | i2 | i3.

Definition idx (i : I4) : nat :=
  match i with i0 => 0 | i1 => 1 | i2 => 2 | i3 => 3 end%nat.

(** [for (size_t i = 0; i < 4; i++)] *)
Definition all4 : list I4 := [i0; i1; i2; i3].

Section Codec.
Context {F : Type}.

(** [Float m[4][4]] *)
Definition Row : Type := (F * F * F * F)%type.
Definition Matrix4x4 : Type := (Row * Row * Row * Row)%type.

Definition get4 {A : Type} (i : I4) (r : A * A * A * A) : A :=
  match i, r with
  | i0, (a, _, _, _) => a
  | i1, (_, b, _, _) => b
  | i2, (_, _, c, _) => c
  | i3, (_, _, _, d) => d
  end.

Definition set4 {A : Type} (i : I4) (v : A) (r : A * A * A * A)
    : A * A * A * A :=
  match i, r with
  | i0, (_, b, c, d) => (v, b, c, d)
  | i1, (a, _, c, d) => (a, v, c, d)
  | i2, (a, b, _, d) => (a, b, v, d)
  | i3, (a, b, c, _) => (a, b, c, v)
  end.

(** [matrix.m[i][j]] and [matrix.m[i][j] = v] *)
Definition m_get (i j : I4) (matrix : Matrix4x4) : F :=
  get4 j (get4 i matrix).
Definition m_set (i j : I4) (v : F) (matrix : Matrix4x4) : Matrix4x4 :=
  set4 i (set4 j v (get4 i matrix)) matrix.

(** [to_protobuf(const Matrix4x4&)]: the repeated field [m] of the
    message. *)
Definition to_protobuf (matrix : Matrix4x4) : list F :=
  foldl (fun proto_matrix i =>
           foldl (fun proto_matrix j => proto_matrix ++ [m_get i j matrix])
             proto_matrix all4)
    [] all4.

(** The inner loop of [from_protobuf(const protobuf::Matrix&)],
    [for (j = 0; j < 4 and (4 * i + j < proto_matrix.m_size()); j++)]. *)
Fixpoint fillRow (i : I4) (js : list I4) (proto_matrix : list F)
    (matrix : Matrix4x4) : Matrix4x4 :=
  match js with
  | [] => matrix
  | j :: js' =>
    if (4 * idx i + idx j <? length proto_matrix)%nat then
      match proto_matrix !! (4 * idx i + idx j)%nat with
      | Some v => fillRow i js' proto_matrix (m_set i j v matrix)
      | None => matrix
      end
    else matrix
  end.

(** [from_protobuf(const protobuf::Matrix&)]; [matrix] is the matrix as
    [Matrix4x4 matrix;] constructs it (core/transform.h is not part of the
    sources). *)
Definition from_protobuf (matrix : Matrix4x4) (proto_matrix : list F)
    : Matrix4x4 :=
  foldl (fun matrix i => fillRow i all4 proto_matrix matrix) matrix all4.

End Codec.
End MatrixCodec.

(** ** The ray converters of messages/utils.cpp *)

Module RayCodec.
Section Codec.
Context {F : Type}.

(** [Point3f] and [Vector3f], and their messages. *)
Record Point3f : Type := mkPoint3f { p_x : F; p_y : F; p_z : F }.
Record Vector3f : Type := mkVector3f { v_x : F; v_y : F; v_z : F }.
Record pPoint3f : Type := mkpPoint3f { pp_x : F; pp_y : F; pp_z : F }.
Record pVector3f : Type := mkpVector3f { pv_x : F; pv_y : F; pv_z : F }.

Definition to_protobuf_point (point : Point3f) : pPoint3f :=
  mkpPoint3f (p_x point) (p_y point) (p_z point).
Definition from_protobuf_point (point : pPoint3f) : Point3f :=
  mkPoint3f (pp_x point) (pp_y point) (pp_z point).
Definition to_protobuf_vector (vector : Vector3f) : pVector3f :=
  mkpVector3f (v_x vector) (v_y vector) (v_z vector).
Definition from_protobuf_vector (vector : pVector3f) : Vector3f :=
  mkVector3f (pv_x vector) (pv_y vector) (pv_z vector).

(** The fields of a [RayDifferential] that the converters read and
    write. *)
Record RayDifferential : Type := mkRayDifferential {
  o : Point3f;
  d : Vector3f;
  tMax : F;
  time : F;
  hasDifferentials : bool;
  rxOrigin : Point3f;
  ryOrigin : Point3f;
  rxDirection : Vector3f;
  ryDirection : Vector3f
}.

(** [protobuf::RayDifferential]: a sub-message that was never set is
    absent. *)
Record pRayDifferential : Type := mkpRayDifferential {
  proto_o : pPoint3f;
  proto_d : pVector3f;
  t_max : F;
  proto_time : F;
  has_differentials : bool;
  rx_origin : option pPoint3f;
  ry_origin : option pPoint3f;
  rx_direction : option pVector3f;
  ry_direction : option pVector3f
}.

Definition to_protobuf (ray : RayDifferential) : pRayDifferential :=
  let hd := hasDifferentials ray in
  mkpRayDifferential (to_protobuf_point (o ray)) (to_protobuf_vector (d ray))
    (tMax ray) (time ray) hd
    (if hd then Some (to_protobuf_point (rxOrigin ray)) else None)
    (if hd then Some (to_protobuf_point (ryOrigin ray)) else None)
    (if hd then Some (to_protobuf_vector (rxDirection ray)) else None)
    (if hd then Some (to_protobuf_vector (ryDirection ray)) else None).

(** [from_protobuf(const protobuf::RayDifferential&)]; [ray] is the ray as
    [RayDifferential ray;] constructs it, [zero] the value of an unset
    number of a message. *)
Definition from_protobuf (ray : RayDifferential) (zero : F)
    (proto_ray : pRayDifferential) : RayDifferential :=
  let point0 := mkpPoint3f zero zero zero in
  let vector0 := mkpVector3f zero zero zero in
  let hd := has_differentials proto_ray in
  mkRayDifferential
    (from_protobuf_point (proto_o proto_ray))
    (from_protobuf_vector (proto_d proto_ray))
    (t_max proto_ray) (proto_time proto_ray) hd
    (if hd then from_protobuf_point (default point0 (rx_origin proto_ray))
     else rxOrigin ray)
    (if hd then from_protobuf_point (default point0 (ry_origin proto_ray))
     else ryOrigin ray)
    (if hd then from_protobuf_vector (default vector0 (rx_direction proto_ray))
     else rxDirection ray)
    (if hd then from_protobuf_vector (default vector0 (ry_direction proto_ray))
     else ryDirection ray).

End Codec.
End RayCodec.

(** ** The diagnostics converters of messages/utils.cpp *)

Module DiagnosticsCodec.
Section Codec.
(** The types of a time per action and of the value of a metric, both
    [double]. *)
Context {T V : Type}.

(** The fields of [WorkerDiagnostics] that the converters read and write:
    three counters and three maps keyed by the name of an action or of a
    metric. *)
Record WorkerDiagnostics : Type := mkWorkerDiagnostics {
  bytesSent : Z;
  bytesReceived : Z;
  outstandingUdp : Z;
  timePerAction : gmap string T;
  intervalsPerAction : gmap string (list (Z * Z));
  metricsOverTime : gmap string (list (Z * V))
}.

(** [protobuf::WorkerDiagnostics] *)
Record pWorkerDiagnostics : Type := mkpWorkerDiagnostics {
  bytes_sent : Z;
  bytes_received : Z;
  outstanding_udp : Z;
  time_per_action : list (string * T);
  intervals_per_action : list (string * list (Z * Z));
  metrics_over_time : list (string * list (Z * V))
}.

Definition to_protobuf (diagnostics : WorkerDiagnostics) : pWorkerDiagnostics :=
  mkpWorkerDiagnostics (bytesSent diagnostics) (bytesReceived diagnostics)
    (outstandingUdp diagnostics)
    (map_to_list (timePerAction diagnostics))
    (map_to_list (intervalsPerAction diagnostics))
    (map_to_list (metricsOverTime diagnostics)).

(** [m[name].push_back(v)] for every [v] of one item. *)
Definition pushAll {A : Type} (m : gmap string (list A))
    (item : string * list A) : gmap string (list A) :=
  foldl (fun m v => <[item.1 := default [] (m !! item.1) ++ [v]]> m) m item.2.

Definition from_protobuf (proto : pWorkerDiagnostics) : WorkerDiagnostics :=
  mkWorkerDiagnostics (bytes_sent proto) (bytes_received proto)
    (outstanding_udp proto)
    (foldl (fun m kv => <[kv.1 := kv.2]> m) ∅ (time_per_action proto))
    (foldl pushAll ∅ (intervals_per_action proto))
    (foldl pushAll ∅ (metrics_over_time proto)).

(** The entries of a map whose list is not empty. *)
Definition nonEmpty {A : Type} (m : gmap string (list A))
    : gmap string (list A) :=
  filter (fun kv => is_nil kv.2 = false) m.

End Codec.
End DiagnosticsCodec.

(** ** The small instance, continued *)

Module SampleRun.

(** A received ray starts in treelet 0, with the bytes it came as. *)
Definition records : RayRecords (RM := Sample.rays) :=
  @Build_RayRecords Sample.rays
    (fun s => Sample.mkRay 0 s false 0)
    (fun r => r)
    (fun r =>
       Sample.mkRay (Sample.ray_treelet r) (Sample.ray_bytes r)
         (Sample.ray_tracked r) 0)
    Sample.ray_bytes
    (fun t => be_bytes 4 t).

(** Two channels that are ahead of pace, by 2.5 ms and by 0.7 ms, and one
    that is within pace. *)
Definition channels : list (bool * Z) := [(true, 0); (false, 2500); (false, 700)].

Definition two_rays : list Sample.ray := [Sample.small_ray 7; Sample.small_ray 7].

(** A [SendRays] message that carries [two_rays]. *)
Definition sendRays : Message.t :=
  Message.make 2 OpCode.SendRays (framedRays (RM := Sample.rays) two_rays)
    true 3 false.

(** The worker with two rays of its own treelet in the ray queue, and after
    one activation of [handleRayQueue]. *)
Definition w_queue : Sample.worker :=
  with_rayQueue (RM := Sample.rays) [Sample.small_ray 0; Sample.small_ray 0]
    Sample.w0.

Definition w_traced : Sample.worker :=
  default Sample.w0 (handleRayQueue (RM := Sample.rays) w_queue).

(** The worker after a datagram from [addrA] has brought [message1]. *)
Definition w_received : Sample.worker :=
  default Sample.w0
    (handleUdpReceive (RM := Sample.rays) Sample.addrA [Sample.message1]
       Sample.w0).


(** The two responses of peer 2, one per interface, and the worker after
    each of them: after the second the peer is connected and the pending
    ray for treelet 7 is ready to be sent. *)
Definition response2b : ConnectResponse.t := ConnectResponse.mk 2 9 42 1 [7].

Definition w_run1 : Sample.worker :=
  default Sample.w0
    (processConnectionResponse (RM := Sample.rays) (RT := Sample.runtime)
       Sample.response2 100 Sample.w_pending).

Definition w_run2 : Sample.worker :=
  default Sample.w0
    (processConnectionResponse (RM := Sample.rays) (RT := Sample.runtime)
       response2b 200 w_run1).

(** A sender with three reliable packets to [addrB] outstanding: number 17
    (the packet of [Sample.message1]) and number 18 are due at 10 and 20,
    number 19 at 900. *)
Definition packetTo (seqNo : Z) : RayPacket.t (RM := Sample.rays) :=
  RayPacket.make (RM := Sample.rays) Sample.addrB 2 7 1
    (Message.make 2 OpCode.SendRays [] true seqNo false) true seqNo false.

Definition w_sender : Sample.worker :=
  with_outstandingRayPackets (RM := Sample.rays)
    [(10, packetTo 17); (20, packetTo 18); (900, packetTo 19)] Sample.w_peer.

End SampleRun.
(** * Properties *)

(** ** Ordered containers *)

Lemma map_in_order_perm {A : Type} (m : gmap Z A) :
  map_in_order m ≡ₚ map_to_list m.
Proof. apply merge_sort_Permutation. Qed.

Lemma elem_of_map_in_order {A : Type} (m : gmap Z A) k v :
  (k, v) ∈ map_in_order m ↔ m !! k = Some v.
Proof. rewrite map_in_order_perm. apply elem_of_map_to_list. Qed.

Lemma NoDup_fst_map_in_order {A : Type} (m : gmap Z A) :
  NoDup (map_in_order m).*1.
Proof. rewrite map_in_order_perm. apply NoDup_fst_map_to_list. Qed.

Lemma list_to_map_in_order {A : Type} (m : gmap Z A) :
  list_to_map (map_in_order m) = m.
Proof.
  rewrite <- (list_to_map_to_list m) at 2.
  apply list_to_map_proper;
    [apply NoDup_fst_map_in_order | apply map_in_order_perm].
Qed.

(** The entries come with their keys in strictly increasing order. *)
Lemma map_in_order_sorted {A : Type} (m : gmap Z A) :
  StronglySorted (fun a b => a.1 < b.1) (map_in_order m).
Proof.
  assert (Hsorted : StronglySorted keyLe (map_in_order m)).
  { apply StronglySorted_merge_sort.
    - intros a b c. unfold keyLe. lia.
    - intros a b. unfold keyLe. lia. }
  pose proof (NoDup_fst_map_in_order m) as Hnd.
  induction Hsorted as [|a l Hl IH Hall]; [constructor|].
  rewrite fmap_cons in Hnd. apply NoDup_cons in Hnd as [Hnotin Hnd].
  constructor; [exact (IH Hnd)|].
  apply Forall_forall. intros b Hb.
  pose proof (proj1 (Forall_forall _ _) Hall b Hb) as Hle. unfold keyLe in Hle.
  assert (a.1 ≠ b.1).
  { intros Heq. apply Hnotin. rewrite Heq. apply list_elem_of_fmap.
    exists b. split; [reflexivity | exact Hb]. }
  lia.
Qed.

Lemma set_in_order_perm (s : gset Z) : set_in_order s ≡ₚ elements s.
Proof. apply merge_sort_Permutation. Qed.

Lemma elem_of_set_in_order (s : gset Z) k : k ∈ set_in_order s ↔ k ∈ s.
Proof. rewrite set_in_order_perm. apply elem_of_elements. Qed.

Lemma NoDup_set_in_order (s : gset Z) : NoDup (set_in_order s).
Proof. rewrite set_in_order_perm. apply NoDup_elements. Qed.

Lemma set_in_order_empty : set_in_order ∅ = [].
Proof. unfold set_in_order. rewrite elements_empty. reflexivity. Qed.

Lemma set_in_order_sorted (s : gset Z) :
  StronglySorted Z.lt (set_in_order s).
Proof.
  assert (Hsorted : StronglySorted Z.le (set_in_order s)).
  { apply StronglySorted_merge_sort; [intros a b c; lia | intros a b; lia]. }
  pose proof (NoDup_set_in_order s) as Hnd.
  induction Hsorted as [|a l Hl IH Hall]; [constructor|].
  apply NoDup_cons in Hnd as [Hnotin Hnd].
  constructor; [exact (IH Hnd)|].
  apply Forall_forall. intros b Hb.
  pose proof (proj1 (Forall_forall _ _) Hall b Hb) as Hle.
  assert (a ≠ b) by (intros ->; contradiction).
  lia.
Qed.

Lemma list_to_set_in_order (s : gset Z) :
  (list_to_set (set_in_order s) : gset Z) = s.
Proof.
  apply set_eq. intros k.
  rewrite elem_of_list_to_set. apply elem_of_set_in_order.
Qed.

#[local] Opaque map_in_order set_in_order.


(** ** [pluralize] *)

Lemma string_app_empty_r (s : string) : s +:+ EmptyString = s.
Proof.
  induction s as [|c s IH]; [reflexivity|].
  change (String c (s +:+ EmptyString) = String c s). now rewrite IH.
Qed.

Lemma string_length_app (s1 s2 : string) :
  String.length (s1 +:+ s2) = (String.length s1 + String.length s2)%nat.
Proof.
  induction s1 as [|c s1 IH]; [reflexivity|].
  change (S (String.length (s1 +:+ s2))
          = S (String.length s1 + String.length s2)).
  now rewrite IH.
Qed.

Lemma string_app_s_neq (word : string) : word +:+ "s" ≠ word.
Proof.
  intros Heq. apply (f_equal String.length) in Heq.
  rewrite string_length_app in Heq. simpl in Heq. lia.
Qed.

(** C10. [pluralize(word, count)] is [word] followed by "s" exactly when
    [count] is 1; for every other count (0 and the counts above 1) it is
    [word] itself. *)
Theorem pluralize_suffix_iff_one (word : string) (count : N) :
  (count = 1%N ∧ Util.pluralize word count = word +:+ "s") ∨
  (count ≠ 1%N ∧ Util.pluralize word count = word
   ∧ Util.pluralize word count ≠ word +:+ "s").
Proof.
  unfold Util.pluralize. destruct (N.eqb_spec count 1) as [->|Hne].
  - left. split; reflexivity.
  - right. cbv iota. rewrite string_app_empty_r. split; [exact Hne|].
    split; [reflexivity|]. intros Heq. symmetry in Heq.
    exact (string_app_s_neq word Heq).
Qed.

Example pluralize_ray_1 : Util.pluralize "ray" 1 = "rays"%string.
Proof. reflexivity. Qed.

Example pluralize_ray_0 : Util.pluralize "ray" 0 = "ray"%string.
Proof. reflexivity. Qed.

Example pluralize_ray_2 : Util.pluralize "ray" 2 = "ray"%string.
Proof. reflexivity. Qed.

(** ** The worker *)

Section Properties.
Context `{RM : RayModel} `{RT : Runtime}.

Implicit Types w : LambdaWorker.

(** *** Routing of processed and generated rays *)

Lemma routeGeneratedRay_eq w ray :
  routeGeneratedRay w ray = routeProcessedRay w ray.
Proof. reflexivity. Qed.


(** The second loop of [handleRayQueue] routes the processed rays one by one,
    in the order they were processed. *)
Lemma handleRayQueue_routes w w' :
  handleRayQueue w = Some w' ->
  ∃ processedRays w1,
    traceLoop 0 (rayQueue w) [] w = Some (processedRays, w1) ∧
    w' = foldl routeProcessedRay w1 processedRays.
Proof.
  unfold handleRayQueue. intros H.
  destruct (traceLoop 0 (rayQueue w) [] w) as [[processed w1]|]; simpl in H;
    [|discriminate].
  injection H as <-. eauto.
Qed.

(** *** Sending *)

Lemma firstService_Some iface packets d rest :
  firstService iface packets = Some (d, rest) ->
  ∃ pre post,
    packets = pre ++ d :: post ∧
    Forall (fun x => ServicePacket.iface x ≠ iface) pre ∧
    ServicePacket.iface d = iface ∧ rest = pre ++ post.
Proof.
  revert d rest. induction packets as [|x packets IH]; intros d rest H.
  - discriminate.
  - simpl in H. destruct (Z.eqb_spec (ServicePacket.iface x) iface) as [He|Hne].
    + simpl in H. injection H as <- <-. exists [], packets. auto.
    + simpl in H. destruct (firstService iface packets) as [[f r]|]; [|discriminate].
      injection H as <- <-.
      destruct (IH f r eq_refl) as (pre & post & -> & Hpre & Hd & ->).
      exists (x :: pre), post. auto.
Qed.

Lemma firstService_None iface packets :
  firstService iface packets = None ->
  Forall (fun x => ServicePacket.iface x ≠ iface) packets.
Proof.
  induction packets as [|x packets IH]; intros H; [constructor|].
  simpl in H. destruct (Z.eqb_spec (ServicePacket.iface x) iface) as [He|Hne].
  - discriminate.
  - simpl in H. destruct (firstService iface packets) as [[f r]|]; [discriminate|].
    constructor; auto.
Qed.

(** C8. One activation of [handleUdpSend(iface)] sends at most one packet.
    Either the first queued service packet for [iface] is sent and removed,
    and the ray packets are left alone; or no service packet is queued for
    [iface], [iface] is 0, and the front ray packet is sent and removed, the
    entry [(now + PACKET_TIMEOUT, packet)] being appended to
    [outstandingRayPackets] when the packet is reliable; or nothing is sent
    (so no ray packet ever leaves on interface 1). *)
Theorem udpSend_one_packet (iface now : Z) w :
  let w' := handleUdpSend iface now w in
  (∃ pre d post,
      servicePackets w = pre ++ d :: post ∧
      Forall (fun x => ServicePacket.iface x ≠ iface) pre ∧
      ServicePacket.iface d = iface ∧
      udpSent w' =
        udpSent w ++
          [(iface, ServicePacket.destination d, ServicePacket.data d)] ∧
      servicePackets w' = pre ++ post ∧
      rayPackets w' = rayPackets w ∧
      outstandingRayPackets w' = outstandingRayPackets w)
  ∨
  (Forall (fun x => ServicePacket.iface x ≠ iface) (servicePackets w) ∧
   iface = 0 ∧
   ∃ packet rest,
      rayPackets w = packet :: rest ∧
      udpSent w' =
        udpSent w ++
          [(0, RayPacket.destination packet, RayPacket.data packet)] ∧
      rayPackets w' = rest ∧
      servicePackets w' = servicePackets w ∧
      outstandingRayPackets w' =
        outstandingRayPackets w ++
          (if RayPacket.reliable packet
           then [(now + PACKET_TIMEOUT, sentPacket packet)] else []))
  ∨
  (Forall (fun x => ServicePacket.iface x ≠ iface) (servicePackets w) ∧
   (iface ≠ 0 ∨ rayPackets w = []) ∧ w' = w).
Proof.
  intros w'. subst w'. unfold handleUdpSend.
  destruct (firstService iface (servicePackets w)) as [[d rest]|] eqn:Hfirst.
  - left. destruct (firstService_Some _ _ _ _ Hfirst)
      as (pre & post & Hsp & Hpre & Hd & ->).
    exists pre, d, post. simpl. rewrite Hd. auto 10.
  - apply firstService_None in Hfirst. right.
    destruct (Z.eqb_spec iface 0) as [->|Hne]; simpl.
    + destruct (rayPackets w) as [|packet rest] eqn:Hrp; simpl.
      * right. auto.
      * left. split; [exact Hfirst|]. split; [reflexivity|].
        exists packet, rest. split; [reflexivity|].
        fold (sentPacket packet).
        replace (RayPacket.reliable (sentPacket packet))
          with (RayPacket.reliable packet) by reflexivity.
        destruct (RayPacket.reliable packet); simpl;
          rewrite ?app_nil_r; auto.
    + right. auto.
Qed.

(** *** Acknowledgements and retransmission *)

Lemma ackFrame_refl w : ackFrame w w.
Proof. repeat split. Qed.

Lemma ackFrame_trans w1 w2 w3 : ackFrame w1 w2 -> ackFrame w2 w3 -> ackFrame w1 w3.
Proof.
  unfold ackFrame. intros (?&?&?&?&?&?) (?&?&?&?&?&?).
  repeat split; congruence.
Qed.

Lemma emitAck_frame addr destId ack w : ackFrame w (emitAck addr destId ack w).
Proof. repeat split. Qed.

Lemma ackLoop_frame addr destId received ack w :
  ackFrame w (ackLoop addr destId received ack w).
Proof.
  revert ack w. induction received as [|r rest IH]; intros ack w; simpl.
  - apply ackFrame_refl.
  - destruct (_ || _).
    + eapply ackFrame_trans; [apply emitAck_frame | apply IH].
    + apply IH.
Qed.

Lemma sendAcks_frame entries w : ackFrame w (foldl sendAcks_entry w entries).
Proof.
  revert w. induction entries as [|kv entries IH]; intros w; simpl.
  - apply ackFrame_refl.
  - eapply ackFrame_trans; [|apply IH]. unfold sendAcks_entry.
    eapply ackFrame_trans; [|apply ackLoop_frame]. repeat split.
Qed.

Lemma acksFrom_touch w dest addr :
  default ∅ (<[dest := acksFrom w dest]> (receivedAcks w) !! addr)
  = acksFrom w addr.
Proof.
  unfold acksFrom. destruct (decide (dest = addr)) as [->|Hne].
  - now rewrite lookup_insert_eq.
  - now rewrite lookup_insert_ne.
Qed.

(** The retransmission loop, when some ack has been received: the entries
    that are due leave [outstandingRayPackets]; those not acknowledged by
    their destination are queued again, in order. *)
Lemma retransmitLoop_spec now expired rest w :
  receivedAcks w ≠ ∅ ->
  Forall (fun e => e.1 <= now) expired ->
  notDue now rest ->
  let w' := retransmitLoop now (expired ++ rest) w in
  rayPackets w' =
    rayPackets w ++ map retransmitted (filter (unacked w) (map snd expired)) ∧
  outstandingRayPackets w' = rest ∧
  (∀ addr, acksFrom w' addr = acksFrom w addr) ∧
  sequenceNumbers w' = sequenceNumbers w ∧ peers w' = peers w ∧
  mySeed w' = mySeed w.
Proof.
  revert w. induction expired as [|[deadline packet] expired IH];
    intros w Hne Hdue Hrest; simpl.
  - destruct rest as [|front rest]; simpl.
    + rewrite app_nil_r. auto 10.
    + simpl in Hrest. rewrite bool_decide_eq_false_2 by exact Hne. simpl.
      destruct (Z.leb_spec front.1 now) as [Hle|Hgt]; [lia|].
      simpl. rewrite app_nil_r. auto 10.
  - inversion Hdue as [|? ? Hd Hdue']; subst. simpl in Hd.
    rewrite bool_decide_eq_false_2 by exact Hne. simpl.
    destruct (Z.leb_spec deadline now) as [_|Hgt]; [|lia]. simpl.
    fold (acksFrom w (RayPacket.destination packet)).
    set (w1 := with_receivedAcks _ w).
    assert (Hsame : ∀ addr, acksFrom w1 addr = acksFrom w addr).
    { intros addr. apply acksFrom_touch. }
    assert (Hne1 : receivedAcks w1 ≠ ∅).
    { subst w1. simpl. apply insert_non_empty. }
    assert (Hfilter : ∀ l : list RayPacket.t,
               filter (unacked w1) l = filter (unacked w) l).
    { intros l. apply list_filter_iff. intros p. unfold unacked.
      now rewrite Hsame. }
    destruct (decide (unacked w packet)) as [Hun|Hack].
    + rewrite bool_decide_eq_false_2 by exact Hun. simpl.
      set (w2 := with_rayPackets _ w1).
      assert (Hsame2 : ∀ addr, acksFrom w2 addr = acksFrom w addr)
        by exact Hsame.
      destruct (IH w2 Hne1 Hdue' Hrest) as (Hrp & Hout & Hacks & Hseq & Hp & Hs).
      rewrite filter_cons_True by exact Hun.
      split.
      { rewrite Hrp. change (unacked w2) with (unacked w1).
        rewrite Hfilter. subst w2. simpl. now rewrite <- app_assoc. }
      split; [exact Hout|]. split.
      { intros addr. rewrite Hacks. apply Hsame2. }
      auto.
    + rewrite bool_decide_eq_true_2
        by (unfold unacked in Hack; apply dec_stable; exact Hack).
      simpl.
      destruct (IH w1 Hne1 Hdue' Hrest) as (Hrp & Hout & Hacks & Hseq & Hp & Hs).
      rewrite filter_cons_False by exact Hack.
      split; [rewrite Hrp, Hfilter; reflexivity|].
      split; [exact Hout|]. split.
      { intros addr. rewrite Hacks. apply Hsame. }
      auto.
Qed.

(** With no ack received from anyone, the loop does nothing. *)
Lemma retransmitLoop_gate now outstanding w :
  receivedAcks w = ∅ ->
  retransmitLoop now outstanding w = with_outstandingRayPackets outstanding w.
Proof.
  intros Hempty. destruct outstanding as [|front rest]; simpl; [reflexivity|].
  now rewrite bool_decide_eq_true_2 by exact Hempty.
Qed.

Lemma rayAcksPredicate_spec now w :
  rayAcksPredicate now w = true <->
  toBeAcked w ≠ ∅ ∨
  (receivedAcks w ≠ ∅ ∧
   ∃ front rest, outstandingRayPackets w = front :: rest ∧ front.1 <= now).
Proof.
  unfold rayAcksPredicate.
  rewrite orb_true_iff, andb_true_iff, !negb_true_iff, !bool_decide_eq_false.
  split; (intros [H|[Hacks Hfront]]; [now left|right; split; [exact Hacks|]]).
  - destruct (outstandingRayPackets w) as [|front rest]; [discriminate|].
    exists front, rest. split; [reflexivity|]. now apply Z.leb_le.
  - destruct Hfront as (front & rest & -> & Hle). now apply Z.leb_le.
Qed.

(** C1, amended. The entries at the front of [outstandingRayPackets] whose
    deadline is at most [now] are handled only once [receivedAcks] is not
    empty, that is once an ack has been received from any source: the gate
    is on the whole table, not on the destination of the packet. Each such
    entry is removed; it is queued again on [rayPackets], as a
    retransmission, exactly when its sequence number is not among the acks
    received from its destination - so also when that destination never
    acked anything. While [receivedAcks] is empty nothing is queued again. *)
Theorem retransmission_gate now w expired rest :
  outstandingRayPackets w = expired ++ rest ->
  Forall (fun e => e.1 <= now) expired ->
  notDue now rest ->
  let w' := handleRayAcknowledgements now w in
  (receivedAcks w = ∅ ∧ rayPackets w' = rayPackets w ∧
   outstandingRayPackets w' = outstandingRayPackets w)
  ∨
  (receivedAcks w ≠ ∅ ∧
   rayPackets w' =
     rayPackets w ++ map retransmitted (filter (unacked w) (map snd expired)) ∧
   outstandingRayPackets w' = rest).
Proof.
  intros Hout Hdue Hrest w'. subst w'. unfold handleRayAcknowledgements.
  set (w1 := foldl sendAcks_entry w (map_to_list (toBeAcked w))).
  destruct (sendAcks_frame (map_to_list (toBeAcked w)) w)
    as (Hacks & Hout1 & Hrp & _).
  fold w1 in Hacks, Hout1, Hrp.
  set (w2 := with_toBeAcked ∅ w1).
  assert (Hacks2 : receivedAcks w2 = receivedAcks w) by exact Hacks.
  assert (Hrp2 : rayPackets w2 = rayPackets w) by exact Hrp.
  assert (Hout2 : outstandingRayPackets w2 = expired ++ rest)
    by (rewrite <- Hout; exact Hout1).
  destruct (decide (receivedAcks w = ∅)) as [Hempty|Hne].
  - left. split; [exact Hempty|].
    rewrite retransmitLoop_gate by (rewrite Hacks2; exact Hempty).
    split; [exact Hrp | exact Hout1].
  - right. split; [exact Hne|]. rewrite Hout2.
    assert (Hne2 : receivedAcks w2 ≠ ∅) by (rewrite Hacks2; exact Hne).
    destruct (retransmitLoop_spec now expired rest w2 Hne2 Hdue Hrest)
      as (Hrp' & Hout' & _).
    split; [|exact Hout'].
    rewrite Hrp', Hrp2. f_equal. f_equal.
    apply list_filter_iff. intros p. unfold unacked, acksFrom.
    now rewrite Hacks2.
Qed.

(** What queuing a packet again changes: its attempt count (also in the
    datagram) and its retransmission flag, and nothing else. *)
Lemma retransmitted_fields (packet : RayPacket.t) :
  let packet' := retransmitted packet in
  RayPacket.sequenceNumber packet' = RayPacket.sequenceNumber packet ∧
  RayPacket.destination packet' = RayPacket.destination packet ∧
  RayPacket.destinationId packet' = RayPacket.destinationId packet ∧
  RayPacket.targetTreelet packet' = RayPacket.targetTreelet packet ∧
  RayPacket.rayCount packet' = RayPacket.rayCount packet ∧
  RayPacket.reliable packet' = RayPacket.reliable packet ∧
  RayPacket.tracked packet' = RayPacket.tracked packet ∧
  RayPacket.trackedRays packet' = RayPacket.trackedRays packet ∧
  Message.payload (RayPacket.data packet')
    = Message.payload (RayPacket.data packet) ∧
  Message.sequence_number (RayPacket.data packet')
    = Message.sequence_number (RayPacket.data packet) ∧
  RayPacket.attempt packet' = wrap16 (RayPacket.attempt packet + 1) ∧
  RayPacket.retransmission packet' = true.
Proof. repeat split. Qed.

(** *** Handlers that leave the peer table alone *)

Lemma peerFrame_refl w : peerFrame w w.
Proof. split; reflexivity. Qed.

Lemma peerFrame_trans w1 w2 w3 :
  peerFrame w1 w2 -> peerFrame w2 w3 -> peerFrame w1 w3.
Proof. unfold peerFrame. intros [? ?] [? ?]. split; congruence. Qed.

Ltac split_ifs H :=
  repeat match type of H with
         | context [if ?b then _ else _] => destruct b
         end.

Lemma traceLoop_peers i queue processed w processed' w' :
  traceLoop i queue processed w = Some (processed', w') -> peerFrame w w'.
Proof.
  revert i processed w. induction queue as [|ray rest IH];
    intros i processed w H; simpl in H.
  - injection H as _ <-. split; reflexivity.
  - split_ifs H; try discriminate;
      try (injection H as _ <-; split; reflexivity);
      apply IH in H; destruct H as [Hp Hs]; split; exact Hp || exact Hs.
Qed.

Lemma routeProcessedRay_peers w ray : peerFrame w (routeProcessedRay w ray).
Proof.
  unfold routeProcessedRay. repeat case_bool_decide; split; reflexivity.
Qed.

Lemma route_all_peers rays w : peerFrame w (foldl routeProcessedRay w rays).
Proof.
  revert w. induction rays as [|ray rays IH]; intros w; simpl.
  - apply peerFrame_refl.
  - eapply peerFrame_trans; [apply routeProcessedRay_peers | apply IH].
Qed.

Lemma handleRayQueue_peers w w' : handleRayQueue w = Some w' -> peerFrame w w'.
Proof.
  intros H. destruct (handleRayQueue_routes _ _ H) as (ps & w1 & Ht & ->).
  eapply peerFrame_trans; [eapply traceLoop_peers; exact Ht | apply route_all_peers].
Qed.

Lemma generateRays_peers states w : peerFrame w (generateRays states w).
Proof. apply (route_all_peers states w). Qed.

Lemma assembleOne_peers peer t outRays str ptr w pk w' :
  assembleOne peer t outRays str ptr w = Some (pk, w') -> peerFrame w w'.
Proof.
  unfold assembleOne. intros H.
  destruct (startPacket str ptr) as [[[[[pl rc] oss] tr] p]|]; simpl in H;
    [|discriminate].
  injection H as _ <-. split; reflexivity.
Qed.

Lemma assemblePackets_peers fuel peer t outRays str ptr w w' :
  assemblePackets fuel peer t outRays str ptr w = Some w' -> peerFrame w w'.
Proof.
  revert outRays str ptr w. induction fuel as [|fuel IH];
    intros outRays str ptr w H; simpl in H.
  - destruct (is_nil outRays && is_nil str); [|discriminate].
    injection H as <-. split; reflexivity.
  - destruct (is_nil outRays && is_nil str).
    + injection H as <-. split; reflexivity.
    + destruct (assembleOne peer t outRays str ptr w) as [[pk w1]|] eqn:Hone;
        simpl in H; [|discriminate].
      eapply peerFrame_trans; [eapply assembleOne_peers; exact Hone|].
      eapply IH; exact H.
Qed.

Lemma handleOutQueue_entry_peers w q w' :
  handleOutQueue_entry w q = Some w' -> peerFrame w w'.
Proof.
  unfold handleOutQueue_entry. intros H.
  destruct (is_nil q.2).
  - injection H as <-. apply peerFrame_refl.
  - destruct (random_sample _ _) as [chosen|]; simpl in H; [|discriminate].
    destruct (peers _ !! chosen) as [peer|]; simpl in H; [|discriminate].
    apply assemblePackets_peers in H. destruct H as [Hp Hs].
    split; [exact Hp | exact Hs].
Qed.

Lemma foldlM_frame {A : Type} (R : LambdaWorker -> LambdaWorker -> Prop)
    (f : LambdaWorker -> A -> option LambdaWorker) :
  (∀ w, R w w) -> (∀ w1 w2 w3, R w1 w2 -> R w2 w3 -> R w1 w3) ->
  (∀ w x w', f w x = Some w' -> R w w') ->
  ∀ l w w', foldlM f w l = Some w' -> R w w'.
Proof.
  intros Hrefl Htrans Hf. induction l as [|x l IH]; intros w w' H; simpl in H.
  - injection H as <-. apply Hrefl.
  - destruct (f w x) as [w1|] eqn:Hx; simpl in H; [|discriminate].
    eapply Htrans; [eapply Hf; exact Hx | eapply IH; exact H].
Qed.

Lemma handleOutQueue_peers w w' : handleOutQueue w = Some w' -> peerFrame w w'.
Proof.
  apply (foldlM_frame peerFrame handleOutQueue_entry peerFrame_refl
           peerFrame_trans handleOutQueue_entry_peers).
Qed.

Lemma retransmitLoop_peers now outstanding w :
  peerFrame w (retransmitLoop now outstanding w).
Proof.
  revert w. induction outstanding as [|front rest IH]; intros w; simpl.
  - split; reflexivity.
  - destruct (_ && _); [|split; reflexivity].
    eapply peerFrame_trans; [|apply IH].
    destruct (negb _); split; reflexivity.
Qed.

Lemma handleRayAcknowledgements_peers now w :
  peerFrame w (handleRayAcknowledgements now w).
Proof.
  unfold handleRayAcknowledgements.
  eapply peerFrame_trans; [|apply retransmitLoop_peers].
  destruct (sendAcks_frame (map_to_list (toBeAcked w)) w)
    as (_ & _ & _ & _ & Hp & Hs).
  split; [exact Hp | exact Hs].
Qed.

Lemma handleUdpSend_peers iface now w : peerFrame w (handleUdpSend iface now w).
Proof.
  unfold handleUdpSend.
  destruct (firstService _ _) as [[d rest]|]; [split; reflexivity|].
  destruct (_ || _); [apply peerFrame_refl|].
  destruct (rayPackets w) as [|packet rest]; [apply peerFrame_refl|].
  destruct (RayPacket.reliable _); split; reflexivity.
Qed.

Lemma receiveWalk_peers source messages w kept w' :
  receiveWalk source messages w = Some (kept, w') -> peerFrame w w'.
Proof.
  revert w kept. induction messages as [|m older IH]; intros w kept H;
    simpl in H.
  - injection H as _ <-. apply peerFrame_refl.
  - destruct (Message.is_read m); [injection H as _ <-; apply peerFrame_refl|].
    destruct (Message.reliable m) eqn:Hrel; simpl in H.
    + destruct (bool_decide _) in H.
      * apply IH in H. destruct H as [Hp Hs]. split; [exact Hp | exact Hs].
      * destruct (bool_decide _) in H.
        -- destruct (parseAcks _ _) as [acks|]; simpl in H; [|discriminate].
           apply IH in H. destruct H as [Hp Hs]. split; [exact Hp | exact Hs].
        -- destruct (receiveWalk source older _) as [[k w3]|] eqn:Hw;
             simpl in H; [|discriminate].
           injection H as _ <-. apply IH in Hw. destruct Hw as [Hp Hs].
           split; [exact Hp | exact Hs].
    + destruct (bool_decide _) in H.
      * destruct (parseAcks _ _) as [acks|]; simpl in H; [|discriminate].
        apply IH in H. destruct H as [Hp Hs]. split; [exact Hp | exact Hs].
      * destruct (receiveWalk source older _) as [[k w3]|] eqn:Hw;
          simpl in H; [|discriminate].
        injection H as _ <-. eapply IH; exact Hw.
Qed.

Lemma handleUdpReceive_peers source parsed w w' :
  handleUdpReceive source parsed w = Some w' -> peerFrame w w'.
Proof.
  unfold handleUdpReceive. intros H.
  destruct (receiveWalk _ _ _) as [[kept w1]|] eqn:Hw; simpl in H;
    [|discriminate].
  injection H as <-. apply receiveWalk_peers in Hw. destruct Hw as [Hp Hs].
  split; [exact Hp | exact Hs].
Qed.

Lemma processConnectionRequest_peers proto w b w' :
  processConnectionRequest proto w = Some (b, w') -> peerFrame w w'.
Proof.
  unfold processConnectionRequest. intros H.
  destruct (peers w !! _) as [peer|].
  - destruct (arr2_get _ _) as [addr|]; simpl in H; [|discriminate].
    injection H as _ <-. split; reflexivity.
  - injection H as _ <-. apply peerFrame_refl.
Qed.

(** *** The handshake *)

Lemma peersConsistent_frame w w' :
  peerFrame w w' -> peersConsistent w -> peersConsistent w'.
Proof. intros [Hp _] Hinv id p. rewrite Hp. apply Hinv. Qed.

Lemma peersConsistent_insert (id : Z) (p : Worker.t) (ps : gmap Z Worker.t) :
  (∀ i q, ps !! i = Some q -> bothConnected q) -> bothConnected p ->
  ∀ i q, <[id := p]> ps !! i = Some q -> bothConnected q.
Proof.
  intros Hinv Hp i q. destruct (decide (id = i)) as [->|Hne].
  - rewrite lookup_insert_eq. intros [= <-]. exact Hp.
  - rewrite lookup_insert_ne by exact Hne. apply Hinv.
Qed.

Lemma connectAddresses_flags id i addrs peer a2w :
  let peer' := (connectAddresses id i addrs peer a2w).1 in
  Worker.state peer' = Worker.state peer ∧
  Worker.connected peer' = Worker.connected peer.
Proof.
  revert i peer a2w. induction addrs as [|addr rest IH]; intros i peer a2w;
    simpl; [auto|].
  destruct (i <? 2); simpl; [|auto].
  destruct (IH (i + 1)
              (Worker.set_address
                 (default (Worker.address peer)
                    (arr2_set (Worker.address peer) i addr)) peer)
              (if bool_decide (is_Some (a2w !! addr)) then a2w
               else <[addr := id]> a2w)) as [Hs Hc].
  split; [exact Hs | exact Hc].
Qed.

Lemma processHey_consistent addr id w :
  peersConsistent w -> peersConsistent (processHey addr id w).
Proof.
  intros Hinv. unfold peersConsistent, processHey. simpl.
  apply peersConsistent_insert; [exact Hinv|].
  destruct (peers w !! 0) as [p0|] eqn:H0; simpl.
  - exact (Hinv 0 p0 H0).
  - intros Hst. discriminate Hst.
Qed.

Lemma handleConnectTo_consistent proto w :
  peersConsistent w -> peersConsistent (handleConnectTo proto w).
Proof.
  intros Hinv. unfold handleConnectTo.
  destruct (_ && _); [|exact Hinv].
  pose proof (connectAddresses_flags (ConnectTo.worker_id proto) 0
                (ConnectTo.address proto) (Worker.make (ConnectTo.worker_id proto))
                (addressToWorker w)) as [Hs Hc].
  destruct (connectAddresses _ _ _ _ _) as [peer a2w]. simpl in Hs, Hc.
  unfold peersConsistent. simpl.
  apply peersConsistent_insert; [exact Hinv|].
  intros Hst. rewrite Hs in Hst. discriminate Hst.
Qed.

Lemma announceTreelet_peers otherWorkerId w t :
  peers (announceTreelet otherWorkerId w t)
  = alter (fun p => Worker.set_treelets ({[t]} ∪ Worker.treelets p) p)
      otherWorkerId (peers w) ∧
  mySeed (announceTreelet otherWorkerId w t) = mySeed w.
Proof.
  unfold announceTreelet. simpl.
  destruct (pendingQueue w !! t); split; reflexivity.
Qed.

(** Announcing treelets changes, of the peer, only its set of treelets. *)
Lemma announce_all_peer otherWorkerId ts w p :
  peers w !! otherWorkerId = Some p ->
  ∃ p', peers (foldl (announceTreelet otherWorkerId) w ts) !! otherWorkerId
        = Some p' ∧
        Worker.state p' = Worker.state p ∧
        Worker.connected p' = Worker.connected p ∧
        Worker.nextKeepAlive p' = Worker.nextKeepAlive p ∧
        Worker.seed p' = Worker.seed p.
Proof.
  revert w p. induction ts as [|t ts IH]; intros w p Hp; simpl.
  - exists p. auto.
  - destruct (announceTreelet_peers otherWorkerId w t) as [Hpeers _].
    destruct (IH (announceTreelet otherWorkerId w t)
                (Worker.set_treelets ({[t]} ∪ Worker.treelets p) p))
      as (p' & Hp' & Hs & Hc & Hk & Hsd).
    { rewrite Hpeers, lookup_alter_eq, Hp. reflexivity. }
    exists p'. auto.
Qed.

Lemma announce_all_consistent otherWorkerId ts w :
  peersConsistent w ->
  peersConsistent (foldl (announceTreelet otherWorkerId) w ts).
Proof.
  revert w. induction ts as [|t ts IH]; intros w Hinv; simpl; [exact Hinv|].
  apply IH. intros id p.
  destruct (announceTreelet_peers otherWorkerId w t) as [-> _].
  destruct (decide (otherWorkerId = id)) as [->|Hne].
  - rewrite lookup_alter_eq.
    destruct (peers w !! id) as [q|] eqn:Hq; simpl; [|discriminate].
    intros [= <-]. exact (Hinv id q Hq).
  - rewrite lookup_alter_ne by exact Hne. apply Hinv.
Qed.

Lemma both_flags (c : bool * bool) :
  (Z.b2z c.1 + Z.b2z c.2 =? 2) = true <-> c = (true, true).
Proof.
  destruct c as [[|] [|]]; simpl; split; intros H; congruence.
Qed.

Lemma processConnectionResponse_consistent proto now w w' :
  processConnectionResponse proto now w = Some w' ->
  peersConsistent w -> peersConsistent w'.
Proof.
  unfold processConnectionResponse. intros H Hinv.
  destruct (peers w !! ConnectResponse.worker_id proto) as [peer0|] eqn:Hpeer;
    [|injection H as <-; exact Hinv].
  pose proof (Hinv _ _ Hpeer) as Hboth0.
  simpl in H.
  destruct (_ && _) in H.
  - destruct (arr2_set _ _ _) as [c|] eqn:Hset; simpl in H; [|discriminate].
    destruct (Z.b2z c.1 + Z.b2z c.2 =? 2) eqn:Hsum; simpl in H.
    + injection H as <-. apply announce_all_consistent.
      unfold peersConsistent. simpl.
      apply peersConsistent_insert; [exact Hinv|].
      intros _. simpl. now apply both_flags.
    + injection H as <-. unfold peersConsistent. simpl.
      apply peersConsistent_insert; [exact Hinv|].
      intros Hst. discriminate Hst.
  - injection H as <-. unfold peersConsistent. simpl.
    apply peersConsistent_insert; [exact Hinv|]. exact Hboth0.
Qed.

Lemma handlePeers_entry_consistent now w kv :
  peersConsistent w -> bothConnected kv.2 ->
  peersConsistent (handlePeers_entry now w kv).
Proof.
  intros Hinv Hkv. unfold handlePeers_entry.
  destruct (Worker.state kv.2) eqn:Hst.
  - unfold peersConsistent. simpl.
    apply peersConsistent_insert; [exact Hinv|].
    intros Hst'. simpl in Hst'. congruence.
  - destruct (_ && _); [|exact Hinv]. unfold peersConsistent. simpl.
    apply peersConsistent_insert; [exact Hinv|].
    intros _. simpl. exact (Hkv Hst).
Qed.

Lemma handlePeers_consistent now w :
  peersConsistent w -> peersConsistent (handlePeers now w).
Proof.
  intros Hinv. unfold handlePeers.
  assert (Hall : Forall (fun kv => bothConnected kv.2) (map_in_order (peers w))).
  { apply Forall_forall. intros [id p] Hin.
    apply elem_of_map_in_order in Hin. exact (Hinv id p Hin). }
  revert Hinv Hall. generalize (map_in_order (peers w)). intros l. revert w.
  induction l as [|kv l IH]; intros w Hinv Hall; simpl; [exact Hinv|].
  inversion Hall as [|? ? Hkv Hall']; subst.
  apply IH; [|exact Hall']. now apply handlePeers_entry_consistent.
Qed.

Lemma step_consistent w w' :
  step w w' -> peersConsistent w -> peersConsistent w'.
Proof.
  intros Hstep Hinv. destruct Hstep.
  - eapply peersConsistent_frame; [eapply handleRayQueue_peers|]; eassumption.
  - eapply peersConsistent_frame; [apply generateRays_peers | exact Hinv].
  - eapply peersConsistent_frame; [eapply handleOutQueue_peers|]; eassumption.
  - eapply peersConsistent_frame;
      [apply handleRayAcknowledgements_peers | exact Hinv].
  - eapply peersConsistent_frame; [apply handleUdpSend_peers | exact Hinv].
  - eapply peersConsistent_frame; [eapply handleUdpReceive_peers|]; eassumption.
  - now apply processHey_consistent.
  - now apply handleConnectTo_consistent.
  - eapply peersConsistent_frame;
      [eapply processConnectionRequest_peers|]; eassumption.
  - eapply processConnectionResponse_consistent; eassumption.
  - now apply handlePeers_consistent.
  - eapply peersConsistent_frame; [split|]; eassumption.
Qed.

Lemma reachable_consistent w : reachable w -> peersConsistent w.
Proof.
  induction 1 as [reliably seed|w w' _ IH Hstep].
  - intros id p H. unfold initial in H. simpl in H.
    rewrite lookup_empty in H. discriminate.
  - eapply step_consistent; eassumption.
Qed.

(** C6. In every reachable state a peer in state [Connected] has
    [connected[0]] and [connected[1]] set. A [ConnectionResponse] whose
    [your_seed] is [mySeed], from a peer that is not yet [Connected], sets
    [connected[address_no]] and leaves the other flag as it was; the peer
    becomes [Connected] exactly when both flags are then set, so a response
    on one interface alone leaves it [Connecting]. *)
Theorem connected_needs_both_interfaces w :
  reachable w ->
  (∀ id p, peers w !! id = Some p -> Worker.state p = Worker.Connected ->
           Worker.connected p = (true, true)) ∧
  (∀ proto now p,
     peers w !! ConnectResponse.worker_id proto = Some p ->
     Worker.state p ≠ Worker.Connected ->
     ConnectResponse.your_seed proto = mySeed w ->
     ConnectResponse.address_no proto = 0
       ∨ ConnectResponse.address_no proto = 1 ->
     ∃ w' p',
       processConnectionResponse proto now w = Some w' ∧
       peers w' !! ConnectResponse.worker_id proto = Some p' ∧
       arr2_get (Worker.connected p') (ConnectResponse.address_no proto)
         = Some true ∧
       arr2_get (Worker.connected p') (1 - ConnectResponse.address_no proto)
         = arr2_get (Worker.connected p)
             (1 - ConnectResponse.address_no proto) ∧
       (Worker.state p' = Worker.Connected
        <-> Worker.connected p' = (true, true)) ∧
       (arr2_get (Worker.connected p) (1 - ConnectResponse.address_no proto)
          = Some false -> Worker.state p' = Worker.Connecting)).
Proof.
  intros Hreach. split.
  - intros id p Hp Hst. exact (reachable_consistent w Hreach id p Hp Hst).
  - intros proto now p Hp Hst Hseed Hno.
    unfold processConnectionResponse. rewrite Hp. simpl.
    rewrite bool_decide_eq_false_2 by exact Hst.
    rewrite Hseed, Z.eqb_refl. simpl.
    destruct p as [pid paddr [c0 c1] pseed pstate ptreelets pkeep ptries].
    simpl in *.
    destruct Hno as [Hno|Hno]; rewrite Hno; simpl.
    + destruct c1; simpl.
      * edestruct (announce_all_peer (ConnectResponse.worker_id proto)
                     (ConnectResponse.treelet_ids proto))
          as (p' & Hp' & Hs' & Hc' & _); [|eexists; exists p'; split;
          [reflexivity|]; split; [exact Hp'|]].
        { simpl. apply lookup_insert_eq. }
        simpl in Hs', Hc'. rewrite Hc', Hs'. simpl.
        repeat split; try reflexivity; intros; discriminate.
      * eexists; eexists. split; [reflexivity|]. simpl.
        rewrite lookup_insert_eq. split; [reflexivity|]. simpl.
        repeat split; try reflexivity; intros; discriminate.
    + destruct c0; simpl.
      * edestruct (announce_all_peer (ConnectResponse.worker_id proto)
                     (ConnectResponse.treelet_ids proto))
          as (p' & Hp' & Hs' & Hc' & _); [|eexists; exists p'; split;
          [reflexivity|]; split; [exact Hp'|]].
        { simpl. apply lookup_insert_eq. }
        simpl in Hs', Hc'. rewrite Hc', Hs'. simpl.
        repeat split; try reflexivity; intros; discriminate.
      * eexists; eexists. split; [reflexivity|]. simpl.
        rewrite lookup_insert_eq. split; [reflexivity|]. simpl.
        repeat split; try reflexivity; intros; discriminate.
Qed.

(** *** Receiving *)










(** *** Promotion of pending rays *)

Lemma movePending_spec (treeletPending treeletOut : list RayState) :
  movePending treeletPending treeletOut = ([], treeletOut ++ treeletPending).
Proof.
  revert treeletOut. induction treeletPending as [|front rest IH];
    intros treeletOut; simpl.
  - now rewrite app_nil_r.
  - rewrite IH. now rewrite <- app_assoc.
Qed.

Lemma wrap64_add_l a b : wrap64 (wrap64 a + b) = wrap64 (a + b).
Proof. unfold wrap64. apply Zplus_mod_idemp_l. Qed.

Lemma wrap64_sub_l a b : wrap64 (wrap64 a - b) = wrap64 (a - b).
Proof. unfold wrap64. apply Zminus_mod_idemp_l. Qed.

Lemma wrap64_small a : 0 <= a < 2 ^ 64 -> wrap64 a = a.
Proof. intros H. unfold wrap64. now apply Z.mod_small. Qed.

(** One announced treelet. *)
Lemma announceTreelet_spec otherWorkerId w t :
  let w' := announceTreelet otherWorkerId w t in
  (∀ t', pendingFor w' t' = if decide (t' = t) then [] else pendingFor w t') ∧
  (∀ t', outFor w' t' =
         if decide (t' = t) then outFor w t ++ pendingFor w t
         else outFor w t') ∧
  (∀ t', workersFor w' t' =
         if decide (t' = t) then workersFor w t ++ [otherWorkerId]
         else workersFor w t') ∧
  neededTreelets w' = neededTreelets w ∖ {[t]} ∧
  requestedTreelets w' = requestedTreelets w ∖ {[t]} ∧
  wrap64 (outQueueSize w') =
    wrap64 (outQueueSize w + Z.of_nat (length (pendingFor w t))) ∧
  wrap64 (pendingQueueSize w') =
    wrap64 (pendingQueueSize w - Z.of_nat (length (pendingFor w t))) ∧
  rayQueue w' = rayQueue w ∧ finishedQueue w' = finishedQueue w.
Proof.
  unfold announceTreelet, pendingFor, outFor, workersFor. simpl.
  destruct (pendingQueue w !! t) as [pending|] eqn:Hpend; simpl.
  - rewrite movePending_spec. simpl.
    split; [|split; [|split]].
    + intros t'. destruct (decide (t' = t)) as [->|Hne].
      * now rewrite lookup_insert_eq.
      * rewrite lookup_insert_ne by congruence. reflexivity.
    + intros t'. destruct (decide (t' = t)) as [->|Hne].
      * now rewrite lookup_insert_eq.
      * rewrite lookup_insert_ne by congruence. reflexivity.
    + intros t'. destruct (decide (t' = t)) as [->|Hne].
      * now rewrite lookup_insert_eq.
      * rewrite lookup_insert_ne by congruence. reflexivity.
    + unfold wrap64. rewrite !Z.mod_mod by lia. auto 10.
  - split; [|split; [|split]].
    + intros t'. destruct (decide (t' = t)) as [->|Hne];
        [now rewrite Hpend | reflexivity].
    + intros t'. destruct (decide (t' = t)) as [->|Hne];
        [now rewrite app_nil_r | reflexivity].
    + intros t'. destruct (decide (t' = t)) as [->|Hne].
      * now rewrite lookup_insert_eq.
      * rewrite lookup_insert_ne by congruence. reflexivity.
    + rewrite Z.add_0_r, Z.sub_0_r. auto 10.
Qed.

(** Splitting a sum over a list without duplicates at one of its points. *)
Lemma sum_without (f g : Z -> Z) (t : Z) (l : list Z) :
  NoDup l -> (∀ x, x ≠ t -> g x = f x) -> g t = 0 ->
  foldr Z.add 0 (map f l)
  = (if decide (t ∈ l) then f t else 0) + foldr Z.add 0 (map g l).
Proof.
  intros Hnd Hg Ht. induction Hnd as [|x l Hx Hnd IH]; simpl.
  - destruct (decide (t ∈ [])) as [Hin|_]; [inversion Hin | reflexivity].
  - rewrite IH. destruct (decide (x = t)) as [->|Hne].
    + rewrite Ht. destruct (decide (t ∈ l)) as [Hin|_]; [contradiction|].
      destruct (decide (t ∈ t :: l)) as [_|Hout]; [lia|].
      exfalso. apply Hout. left.
    + rewrite (Hg x Hne).
      destruct (decide (t ∈ l)) as [Hin|Hout].
      * destruct (decide (t ∈ x :: l)) as [_|Hout']; [lia|].
        exfalso. apply Hout'. now right.
      * destruct (decide (t ∈ x :: l)) as [Hin'|_]; [|lia].
        exfalso. apply elem_of_cons in Hin'. destruct Hin'; congruence.
Qed.

Lemma pendingCount_cons w w1 t ts :
  (∀ t', pendingFor w1 t' = if decide (t' = t) then [] else pendingFor w t') ->
  pendingCount w (t :: ts)
  = Z.of_nat (length (pendingFor w t)) + pendingCount w1 ts.
Proof.
  intros Hstep. unfold pendingCount.
  set (f := fun t' => Z.of_nat (length (pendingFor w t'))).
  set (g := fun t' => Z.of_nat (length (pendingFor w1 t'))).
  assert (Hg : ∀ x, x ≠ t -> g x = f x).
  { intros x Hx. unfold g, f. rewrite Hstep.
    destruct (decide (x = t)); [contradiction | reflexivity]. }
  assert (Ht : g t = 0).
  { unfold g. rewrite Hstep. destruct (decide (t = t)); [reflexivity | congruence]. }
  pose proof (sum_without f g t (remove_dups ts) (NoDup_remove_dups ts) Hg Ht)
    as Hsum.
  simpl. destruct (decide_rel elem_of t ts) as [Hin|Hout].
  - rewrite Hsum. destruct (decide (t ∈ remove_dups ts)) as [_|Hno];
      [reflexivity|].
    exfalso. apply Hno. now apply elem_of_remove_dups.
  - simpl. fold f. rewrite Hsum.
    destruct (decide (t ∈ remove_dups ts)) as [Hyes|_];
      [|unfold f, g; cbv beta; lia].
    exfalso. apply Hout. now apply elem_of_remove_dups.
Qed.

(** All the treelets of a response. *)
Lemma announce_all_spec otherWorkerId ts w :
  let w' := foldl (announceTreelet otherWorkerId) w ts in
  (∀ t, pendingFor w' t = if decide (t ∈ ts) then [] else pendingFor w t) ∧
  (∀ t, outFor w' t =
        if decide (t ∈ ts) then outFor w t ++ pendingFor w t else outFor w t) ∧
  (∀ t, t ∈ ts -> otherWorkerId ∈ workersFor w' t) ∧
  (∀ t, t ∉ ts -> workersFor w' t = workersFor w t) ∧
  neededTreelets w' = neededTreelets w ∖ list_to_set ts ∧
  requestedTreelets w' = requestedTreelets w ∖ list_to_set ts ∧
  wrap64 (outQueueSize w') = wrap64 (outQueueSize w + pendingCount w ts) ∧
  wrap64 (pendingQueueSize w') = wrap64 (pendingQueueSize w - pendingCount w ts) ∧
  rayQueue w' = rayQueue w ∧ finishedQueue w' = finishedQueue w.
Proof.
  revert w. induction ts as [|t ts IH]; intros w; simpl.
  - unfold pendingCount. simpl. rewrite Z.add_0_r, Z.sub_0_r.
    repeat split; try reflexivity; clear; set_solver.
  - destruct (announceTreelet_spec otherWorkerId w t)
      as (Hp1 & Ho1 & Hw1 & Hn1 & Hr1 & Hos1 & Hps1 & Hrq1 & Hfq1).
    set (w1 := announceTreelet otherWorkerId w t) in *.
    destruct (IH w1) as (Hp & Ho & Hw & Hw' & Hn & Hr & Hos & Hps & Hrq & Hfq).
    set (w' := foldl (announceTreelet otherWorkerId) w1 ts) in *.
    rewrite (pendingCount_cons w w1 t ts Hp1).
    split; [|split; [|split; [|split; [|split; [|split; [|split; [|split]]]]]]].
    + intros t'. rewrite Hp, Hp1.
      destruct (decide (t' = t)) as [->|Hne].
      * destruct (decide (t ∈ ts)); destruct (decide (t ∈ t :: ts)) as [|Hno];
          try reflexivity; exfalso; apply Hno; left.
      * destruct (decide (t' ∈ ts)) as [Hin|Hout];
          destruct (decide (t' ∈ t :: ts)) as [Hin'|Hout'];
          try reflexivity.
        -- exfalso. apply Hout'. now right.
        -- exfalso. apply elem_of_cons in Hin'. destruct Hin'; congruence.
    + intros t'. rewrite Ho, Ho1, Hp1.
      destruct (decide (t' = t)) as [->|Hne].
      * destruct (decide (t ∈ t :: ts)) as [_|Hno]; [|exfalso; apply Hno; left].
        destruct (decide (t ∈ ts)); [now rewrite app_nil_r | reflexivity].
      * destruct (decide (t' ∈ ts)) as [Hin|Hout];
          destruct (decide (t' ∈ t :: ts)) as [Hin'|Hout'];
          try reflexivity.
        -- exfalso. apply Hout'. now right.
        -- exfalso. apply elem_of_cons in Hin'. destruct Hin'; congruence.
    + intros t' Hin. destruct (decide (t' ∈ ts)) as [Hts|Hnts].
      * now apply Hw.
      * rewrite (Hw' t' Hnts), Hw1. apply elem_of_cons in Hin.
        destruct Hin as [->|Hin]; [|contradiction].
        destruct (decide (t = t)); [|congruence].
        apply elem_of_app. right. left.
    + intros t' Hout. rewrite Hw', Hw1.
      * destruct (decide (t' = t)) as [->|_]; [|reflexivity].
        exfalso. apply Hout. left.
      * intros Hin. apply Hout. now right.
    + rewrite Hn, Hn1. clear. set_solver.
    + rewrite Hr, Hr1. clear. set_solver.
    + rewrite Hos. rewrite <- wrap64_add_l, Hos1, wrap64_add_l.
      f_equal. lia.
    + rewrite Hps. rewrite <- wrap64_sub_l, Hps1, wrap64_sub_l.
      f_equal. lia.
    + split; congruence.
Qed.

(** C5, amended. Treelets are recorded when a [ConnectionResponse] completes
    the handshake: the peer is known and not yet [Connected], [your_seed] is
    [mySeed], and with this response both [connected] flags are set. Then,
    for every treelet [t] of the response, the peer is recorded in
    [treeletToWorker[t]], [t] leaves [neededTreelets] and
    [requestedTreelets], and the rays of [pendingQueue[t]] move, in order, to
    the back of [outQueue[t]]; [pendingQueueSize] decreases and
    [outQueueSize] increases by the number of rays moved (as [size_t]
    values, modulo 2^64). A matching response that leaves the peer
    [Connecting] records no treelet and moves no ray. *)
Theorem pending_promotion proto now w p c :
  peers w !! ConnectResponse.worker_id proto = Some p ->
  Worker.state p ≠ Worker.Connected ->
  ConnectResponse.your_seed proto = mySeed w ->
  arr2_set (Worker.connected p) (ConnectResponse.address_no proto) true
    = Some c ->
  let ts := ConnectResponse.treelet_ids proto in
  ∃ w', processConnectionResponse proto now w = Some w' ∧
  ((c = (true, true) ∧
    (∀ t, t ∈ ts ->
       ConnectResponse.worker_id proto ∈ workersFor w' t ∧
       (t ∉ neededTreelets w') ∧ (t ∉ requestedTreelets w') ∧
       pendingFor w' t = [] ∧
       outFor w' t = outFor w t ++ pendingFor w t) ∧
    (∀ t, t ∉ ts ->
       workersFor w' t = workersFor w t ∧
       pendingFor w' t = pendingFor w t ∧ outFor w' t = outFor w t ∧
       (t ∈ neededTreelets w' <-> t ∈ neededTreelets w) ∧
       (t ∈ requestedTreelets w' <-> t ∈ requestedTreelets w)) ∧
    wrap64 (outQueueSize w') = wrap64 (outQueueSize w + pendingCount w ts) ∧
    wrap64 (pendingQueueSize w')
      = wrap64 (pendingQueueSize w - pendingCount w ts))
   ∨
   (c ≠ (true, true) ∧
    treeletToWorker w' = treeletToWorker w ∧
    neededTreelets w' = neededTreelets w ∧
    requestedTreelets w' = requestedTreelets w ∧
    pendingQueue w' = pendingQueue w ∧ outQueue w' = outQueue w ∧
    pendingQueueSize w' = pendingQueueSize w ∧
    outQueueSize w' = outQueueSize w)).
Proof.
  intros Hp Hst Hseed Hset ts.
  unfold processConnectionResponse. rewrite Hp. simpl.
  rewrite bool_decide_eq_false_2 by exact Hst.
  rewrite Hseed, Z.eqb_refl. simpl. rewrite Hset. simpl.
  destruct (Z.b2z c.1 + Z.b2z c.2 =? 2) eqn:Hsum; simpl.
  - eexists. split; [reflexivity|]. left.
    apply both_flags in Hsum. split; [exact Hsum|].
    match goal with
    | |- context [foldl _ ?w1 _] =>
      destruct (announce_all_spec (ConnectResponse.worker_id proto) ts w1)
        as (Hpend & Hout & Hwk & Hwk' & Hn & Hr & Hos & Hps & _)
    end.
    fold ts. split; [|split; [|split]].
    + intros t Hin. split; [now apply Hwk|].
      rewrite Hn, Hr, Hpend, Hout.
      destruct (decide (t ∈ ts)); [|contradiction].
      assert (Hts : t ∈ (list_to_set ts : gset Z)) by now apply elem_of_list_to_set.
      split; [clear -Hts; set_solver|]. split; [clear -Hts; set_solver|].
      split; reflexivity.
    + intros t Hout'. rewrite (Hwk' t Hout'), Hpend, Hout, Hn, Hr.
      destruct (decide (t ∈ ts)); [contradiction|].
      assert (Hts : t ∉ (list_to_set ts : gset Z))
        by (intros Hin; apply Hout'; now apply elem_of_list_to_set in Hin).
      split; [reflexivity|]. split; [reflexivity|]. split; [reflexivity|].
      split; (split; [intros Hin; apply elem_of_difference in Hin; tauto
                     |intros Hin; apply elem_of_difference; tauto]).
    + exact Hos.
    + exact Hps.
  - eexists. split; [reflexivity|]. right. simpl.
    split; [|auto 10].
    intros ->. simpl in Hsum. discriminate.
Qed.

(** *** Packet assembly *)

Lemma len_app (a b : list Byte.byte) : len (a ++ b) = len a + len b.
Proof. unfold len. rewrite length_app. lia. Qed.

Lemma be_bytes_length n z : length (be_bytes n z) = n.
Proof.
  revert z. induction n as [|n IH]; intros z; simpl; [reflexivity|].
  rewrite length_app, IH. simpl. lia.
Qed.

Lemma len_framed s : len (framed s) = len s + 4.
Proof.
  unfold framed, RecordWriter_write. rewrite app_nil_l, len_app.
  unfold len at 1. rewrite be_bytes_length. lia.
Qed.

Lemma write_framed oss s : RecordWriter_write oss s = oss ++ framed s.
Proof. reflexivity. Qed.

#[local] Opaque framed.

Lemma len_nonneg s : 0 <= len s.
Proof. unfold len. lia. Qed.

Lemma fits_not_nil ray : fits ray -> is_nil (serialize ray) = false.
Proof.
  intros [Hpos _]. destruct (serialize ray); [|reflexivity].
  unfold len in Hpos. simpl in Hpos. lia.
Qed.

Lemma MTU_value : UDP_MTU_BYTES = 1350.
Proof. reflexivity. Qed.

(** The inner loop writes a prefix of the queue and keeps the rest: nothing
    is lost, and the packet stays within the datagram size. *)
Lemma packRays_stream outRays packetLen rayCount oss trackedRays queueSize ptr :
  Forall fits outRays ->
  0 <= packetLen <= UDP_MTU_BYTES -> len oss <= packetLen ->
  let pk := packRays outRays packetLen rayCount oss trackedRays queueSize ptr in
  pk_oss pk ++ toWrite (pk_unpackedRayStr pk) (pk_outRays pk)
    = oss ++ framedRays outRays ∧
  len (pk_oss pk) <= UDP_MTU_BYTES ∧
  Forall fits (pk_outRays pk) ∧
  (pk_unpackedRayStr pk = [] ∨
   0 < len (pk_unpackedRayStr pk)
     ∧ len (pk_unpackedRayStr pk) + 4 <= UDP_MTU_BYTES).
Proof.
  revert packetLen rayCount oss trackedRays queueSize.
  induction outRays as [|ray rest IH];
    intros packetLen rayCount oss trackedRays queueSize Hfits Hlen Hoss; simpl.
  - split; [reflexivity|]. split; [lia|]. split; [constructor | now left].
  - inversion Hfits as [|? ? Hray Hrest]; subst.
    pose proof Hray as [Hpos Hmax]. rewrite MTU_value in *.
    destruct (Z.ltb_spec packetLen 1350) as [Hlt|Hge]; simpl.
    + rewrite (wrap64_small (len (serialize ray) + 4)) by lia.
      rewrite (wrap64_small (len (serialize ray) + 4 + packetLen)) by lia.
      destruct (Z.gtb_spec (len (serialize ray) + 4 + packetLen) 1350)
        as [Hover|Hok]; simpl.
      * unfold toWrite. rewrite (fits_not_nil ray Hray).
        split; [reflexivity|]. split; [lia|]. split; [exact Hrest|].
        right. lia.
      * rewrite (wrap64_small (packetLen + (len (serialize ray) + 4))) by lia.
        rewrite write_framed.
        destruct (IH (packetLen + (len (serialize ray) + 4))
                    (wrap64 (rayCount + 1)) (oss ++ framed (serialize ray))
                    (if trackRay ray then trackedRays ++ [ray] else trackedRays)
                    (wrap64 (queueSize - 1)) Hrest)
          as (Hstream & Hbound & Hkeep & Hstr).
        { lia. }
        { rewrite len_app, len_framed. lia. }
        split; [|auto].
        rewrite Hstream. unfold framedRays. simpl. now rewrite <- app_assoc.
    + unfold toWrite. simpl. split; [reflexivity|]. split; [lia|].
      split; [exact Hfits | now left].
Qed.

Lemma startPacket_carried str ray :
  is_nil str = false ->
  startPacket str (Some ray)
  = Some (wrap64 (len str + 4), 1, framed str,
          if trackRay ray then [ray] else [],
          if trackRay ray then None else Some ray).
Proof. destruct str; [discriminate | reflexivity]. Qed.


Lemma packRays_progress outRays packetLen rayCount oss trackedRays queueSize ptr :
  let pk := packRays outRays packetLen rayCount oss trackedRays queueSize ptr in
  (length (pk_outRays pk) <= length outRays)%nat ∧
  (is_nil (pk_unpackedRayStr pk) = false ->
   (length (pk_outRays pk) < length outRays)%nat
   ∧ is_Some (pk_unpackedRayPtr pk)) ∧
  (packetLen < UDP_MTU_BYTES -> outRays ≠ [] ->
   (length (pk_outRays pk) < length outRays)%nat).
Proof.
  revert packetLen rayCount oss trackedRays queueSize.
  induction outRays as [|ray rest IH];
    intros packetLen rayCount oss trackedRays queueSize; simpl.
  - split; [lia|]. split; [discriminate | congruence].
  - destruct (Z.ltb_spec packetLen UDP_MTU_BYTES) as [Hlt|Hge]; simpl.
    + destruct (_ >? _); simpl.
      * split; [lia|]. split; [eauto with lia | lia].
      * match goal with
        | |- context [packRays rest ?a ?b ?c ?d ?e ptr] =>
          destruct (IH a b c d e) as (Hle & Hheld & _)
        end.
        split; [lia|]. split; [|lia].
        intros Hnil. destruct (Hheld Hnil). split; [lia | assumption].
    + split; [lia|]. split; [discriminate | lia].
Qed.

Lemma startPacket_Some str ptr :
  (is_nil str = false -> is_Some ptr) ->
  ∃ pl rc oss tr ptr',
    startPacket str ptr = Some (pl, rc, oss, tr, ptr') ∧
    (is_nil str = true -> pl = 25 ∧ oss = []) ∧
    (is_nil str = false -> pl = wrap64 (len str + 4) ∧ oss = framed str).
Proof.
  intros Hptr. destruct str as [|b str].
  - exists 25, 0, [], [], ptr. split; [reflexivity|]. split; [auto | discriminate].
  - destruct (Hptr eq_refl) as [ray ->].
    rewrite startPacket_carried by reflexivity.
    do 5 eexists. split; [reflexivity|]. split; [discriminate | auto].
Qed.

Lemma seqNoFor_insert w addr a s :
  default 0 (<[addr := s]> (sequenceNumbers w) !! a)
  = if decide (addr = a) then s else seqNoFor w a.
Proof.
  unfold seqNoFor. destruct (decide (addr = a)) as [->|Hne].
  - now rewrite lookup_insert_eq.
  - now rewrite lookup_insert_ne.
Qed.

(** One packet. *)
Lemma assembleOne_spec peer t outRays str ptr w pl rc oss tr ptr' :
  startPacket str ptr = Some (pl, rc, oss, tr, ptr') ->
  let pk := packRays outRays pl rc oss tr (outQueueSize w) ptr' in
  let addr := (Worker.address peer).1 in
  ∃ w' p,
    assembleOne peer t outRays str ptr w = Some (pk, w') ∧
    rayPackets w' = rayPackets w ++ [p] ∧
    RayPacket.destination p = addr ∧
    RayPacket.sequenceNumber p = seqNoFor w addr ∧
    freshPacket w p ∧ packetPayload p = pk_oss pk ∧
    seqNoFor w' addr = wrap64 (seqNoFor w addr + 1) ∧
    (∀ a, a ≠ addr -> seqNoFor w' a = seqNoFor w a) ∧
    outQueue w' = outQueue w ∧ treeletToWorker w' = treeletToWorker w ∧
    peers w' = peers w ∧ sendReliably w' = sendReliably w.
Proof.
  intros Hstart pk addr. unfold assembleOne. rewrite Hstart. simpl.
  fold pk. fold addr. eexists; eexists. split; [reflexivity|]. simpl.
  split; [reflexivity|]. split; [reflexivity|]. split; [reflexivity|].
  split; [repeat split|]. split; [reflexivity|].
  split.
  { unfold seqNoFor at 1. simpl. rewrite lookup_insert_eq. reflexivity. }
  split; [|auto].
  intros a Hne. unfold seqNoFor at 1. simpl.
  rewrite lookup_insert_ne by congruence. reflexivity.
Qed.

Lemma consecutive_length s k : length (consecutive s k) = k.
Proof. revert s. induction k as [|k IH]; intros s; simpl; [|rewrite IH]; reflexivity. Qed.

Lemma consecutive_app s k1 k2 :
  consecutive s (k1 + k2) = consecutive s k1 ++ consecutive (bump k1 s) k2.
Proof.
  revert s. induction k1 as [|k1 IH]; intros s; simpl; [reflexivity|].
  now rewrite IH.
Qed.

Lemma bump_add s k1 k2 : bump (k1 + k2) s = bump k2 (bump k1 s).
Proof. revert s. induction k1 as [|k1 IH]; intros s; simpl; [reflexivity | apply IH]. Qed.

(** All the packets of one treelet. *)
Lemma assemblePackets_spec fuel peer t outRays str ptr w :
  (is_nil str = false -> is_Some ptr) ->
  (turns outRays str <= fuel)%nat ->
  let addr := (Worker.address peer).1 in
  ∃ w' new,
    assemblePackets fuel peer t outRays str ptr w = Some w' ∧
    rayPackets w' = rayPackets w ++ new ∧
    Forall (fun p => RayPacket.destination p = addr ∧ freshPacket w p) new ∧
    map RayPacket.sequenceNumber new
      = consecutive (seqNoFor w addr) (length new) ∧
    seqNoFor w' addr = bump (length new) (seqNoFor w addr) ∧
    (∀ a, a ≠ addr -> seqNoFor w' a = seqNoFor w a) ∧
    outQueue w' = <[t := []]> (outQueue w) ∧
    treeletToWorker w' = treeletToWorker w ∧
    peers w' = peers w ∧ sendReliably w' = sendReliably w ∧
    (Forall fits outRays ->
     str = [] ∨ 0 < len str ∧ len str + 4 <= UDP_MTU_BYTES ->
     flat_map packetPayload new = toWrite str outRays ∧
     Forall (fun p => len (packetPayload p) <= UDP_MTU_BYTES) new).
Proof.
  intros Hptr Hfuel addr. revert outRays str ptr w Hptr Hfuel.
  induction fuel as [|fuel IH]; intros outRays str ptr w Hptr Hfuel.
  - unfold turns in Hfuel.
    destruct outRays as [|r rs]; [|simpl in Hfuel; lia].
    destruct str as [|b bs]; [|simpl in Hfuel; lia].
    simpl. exists (with_outQueue (<[t := []]> (outQueue w)) w), [].
    rewrite app_nil_r. repeat split; try reflexivity; constructor.
  - simpl. destruct (is_nil outRays && is_nil str) eqn:Hdone.
    + apply andb_true_iff in Hdone. destruct Hdone as [Ho Hs].
      destruct outRays; [|discriminate]. destruct str; [|discriminate].
      exists (with_outQueue (<[t := []]> (outQueue w)) w), [].
      rewrite app_nil_r. repeat split; try reflexivity; constructor.
    + destruct (startPacket_Some str ptr Hptr)
        as (pl & rc & oss & tr & ptr' & Hstart & Hnil & Hcar).
      destruct (assembleOne_spec peer t outRays str ptr w pl rc oss tr ptr' Hstart)
        as (w1 & p & Hone & Hrp & Hdest & Hseq & Hfresh & Hpay & Hs1 & Hso1
            & Hoq1 & Ht2w1 & Hpeers1 & Hrel1).
      fold addr in Hdest, Hseq, Hs1, Hso1.
      set (pk := packRays outRays pl rc oss tr (outQueueSize w) ptr') in *.
      destruct (packRays_progress outRays pl rc oss tr (outQueueSize w) ptr')
        as (Hle & Hheld & Hpop).
      fold pk in Hle, Hheld, Hpop.
      destruct (IH (pk_outRays pk) (pk_unpackedRayStr pk) (pk_unpackedRayPtr pk) w1)
        as (w' & new & Hrun & Hrp' & Hall & Hseqs & Hs' & Hso' & Hoq' & Ht2w'
            & Hpeers' & Hrel' & Hbytes).
      { intros Hn. now destruct (Hheld Hn). }
      { unfold turns in *.
        destruct (is_nil (pk_unpackedRayStr pk)) eqn:Hn.
        - destruct (is_nil str) eqn:Hs.
          + destruct (Hnil eq_refl) as [-> _].
            assert (outRays ≠ []) by (intros ->; simpl in Hdone; discriminate).
            assert (length (pk_outRays pk) < length outRays)%nat
              by (apply Hpop; [rewrite MTU_value; lia | assumption]).
            lia.
          + lia.
        - destruct (Hheld eq_refl) as [Hlt _].
          destruct (is_nil str); lia. }
      rewrite Hone. simpl. exists w', (p :: new).
      split; [exact Hrun|].
      split; [rewrite Hrp', Hrp, <- app_assoc; reflexivity|].
      split.
      { constructor; [split; [exact Hdest | exact Hfresh]|].
        eapply Forall_impl; [exact Hall|]. intros q [Hq1 Hq2].
        split; [exact Hq1|]. unfold freshPacket in *. now rewrite <- Hrel1. }
      split; [simpl; rewrite Hseq, Hseqs, Hs1; reflexivity|].
      split; [simpl; rewrite Hs', Hs1; reflexivity|].
      split; [intros a Ha; rewrite (Hso' a Ha); now apply Hso1|].
      split; [rewrite Hoq', Hoq1; reflexivity|].
      split; [congruence|]. split; [congruence|]. split; [congruence|].
      intros Hfits Hstr.
      assert (Hpl : 0 <= pl <= UDP_MTU_BYTES ∧ len oss <= pl
                    ∧ oss = if is_nil str then [] else framed str).
      { destruct (is_nil str) eqn:Hs.
        - destruct (Hnil eq_refl) as [-> ->]. rewrite MTU_value.
          split; [lia|]. split; [unfold len; simpl; lia | reflexivity].
        - destruct (Hcar eq_refl) as [-> ->].
          destruct Hstr as [->|[Hpos Hmax]]; [discriminate|].
          rewrite MTU_value in *. rewrite wrap64_small by lia.
          rewrite len_framed. split; [lia|]. split; [lia | reflexivity]. }
      destruct Hpl as (Hpl & Hoss & Hosseq).
      destruct (packRays_stream outRays pl rc oss tr (outQueueSize w) ptr'
                  Hfits Hpl Hoss) as (Hstream & Hbound & Hkeep & Hstr').
      fold pk in Hstream, Hbound, Hkeep, Hstr'.
      destruct (Hbytes Hkeep Hstr') as [Hflat Hsmall].
      split.
      * simpl. rewrite Hpay, Hflat, Hstream. unfold toWrite.
        now rewrite Hosseq.
      * constructor; [rewrite Hpay; exact Hbound | exact Hsmall].
Qed.

Lemma packetsTo_single addr a (new : list RayPacket.t) :
  Forall (fun p => RayPacket.destination p = addr) new ->
  packetsTo a new = if decide (a = addr) then new else [].
Proof.
  intros Hall. unfold packetsTo. induction Hall as [|p new Hp Hall IH].
  - destruct (decide (a = addr)); reflexivity.
  - destruct (decide (a = addr)) as [->|Hne].
    + rewrite filter_cons_True by exact Hp. now rewrite IH.
    + rewrite filter_cons_False by congruence. exact IH.
Qed.

Lemma random_sample_known candidates n (known : Z -> Prop) :
  candidates ≠ [] -> Forall known candidates ->
  ∃ chosen, random_sample candidates n = Some chosen ∧ known chosen.
Proof.
  intros Hne Hall. unfold random_sample.
  destruct (lookup_lt_is_Some_2 candidates (pick n mod length candidates)%nat)
    as [chosen Hc].
  { apply Nat.mod_upper_bound. destruct candidates; [congruence | simpl; lia]. }
  exists chosen. split; [exact Hc|].
  eapply Forall_lookup_1; eassumption.
Qed.

(** With candidates that are known peers, the entry is handled. *)
Lemma handleOutQueue_entry_total w q :
  (q.2 ≠ [] ->
   workersFor w q.1 ≠ [] ∧
   Forall (fun c => is_Some (peers w !! c)) (workersFor w q.1)) ->
  is_Some (handleOutQueue_entry w q).
Proof.
  intros Hcand. unfold handleOutQueue_entry.
  destruct q as [t outRays]. simpl in *.
  destruct outRays as [|ray rest] eqn:Hrays; [simpl; eauto|].
  rewrite <- Hrays in *.
  assert (Hne : outRays ≠ []) by (rewrite Hrays; discriminate).
  replace (is_nil outRays) with false by (rewrite Hrays; reflexivity).
  destruct (Hcand Hne) as [Hc1 Hc2]. fold (workersFor w t).
  destruct (random_sample_known (workersFor w t) (randEngine w)
              (fun c => is_Some (peers w !! c)) Hc1 Hc2)
    as (chosen & Hchosen & [peer Hpeer]).
  simpl. rewrite Hchosen. simpl. rewrite Hpeer. simpl.
  match goal with
  | |- context [assemblePackets _ _ _ _ _ _ ?x] =>
    destruct (assemblePackets_spec (2 * length outRays + 1) peer t outRays
                [] None x) as (w' & new & Hrun & _)
  end.
  - discriminate.
  - unfold turns. simpl. lia.
  - exists w'. exact Hrun.
Qed.

(** The packets of one entry of [outQueue]. *)
Lemma handleOutQueue_entry_spec w q w' :
  handleOutQueue_entry w q = Some w' ->
  ∃ new,
    rayPackets w' = rayPackets w ++ new ∧
    Forall (freshPacket w) new ∧
    (∀ a, map RayPacket.sequenceNumber (packetsTo a new)
          = consecutive (seqNoFor w a) (length (packetsTo a new)) ∧
          seqNoFor w' a = bump (length (packetsTo a new)) (seqNoFor w a)) ∧
    (∀ t, workersFor w' t = workersFor w t) ∧
    peers w' = peers w ∧ sendReliably w' = sendReliably w ∧
    (∀ t, t ≠ q.1 -> outQueue w' !! t = outQueue w !! t) ∧
    (outQueue w !! q.1 = Some q.2 -> outQueue w' !! q.1 = Some []) ∧
    (Forall fits q.2 ->
     flat_map packetPayload new = framedRays q.2 ∧
     Forall (fun p => len (packetPayload p) <= UDP_MTU_BYTES) new).
Proof.
  unfold handleOutQueue_entry. intros Hentry.
  destruct q as [t outRays]. simpl in *.
  destruct outRays as [|ray rest] eqn:Hrays.
  - simpl in Hentry. injection Hentry as <-. exists []. rewrite app_nil_r.
    repeat split; try reflexivity; try constructor; auto.
  - rewrite <- Hrays in *.
    replace (is_nil outRays) with false in Hentry
      by (rewrite Hrays; reflexivity).
    fold (workersFor w t) in Hentry.
    destruct (random_sample (workersFor w t) _) as [chosen|];
      simpl in Hentry; [|discriminate].
    destruct (peers w !! chosen) as [peer|] eqn:Hpeer;
      simpl in Hentry; [|discriminate].
    set (addr := (Worker.address peer).1) in *.
    match type of Hentry with
    | context [assemblePackets _ _ _ _ _ _ ?x] => set (w3 := x) in *
    end.
    destruct (assemblePackets_spec (2 * length outRays + 1) peer t outRays [] None w3)
      as (w1 & new & Hrun & Hrp & Hall & Hseqs & Hs' & Hso' & Hoq & Ht2w
          & Hpeers & Hrel & Hbytes).
    { discriminate. }
    { unfold turns. simpl. lia. }
    assert (Hsame : Some w1 = Some w') by (rewrite <- Hrun; exact Hentry).
    injection Hsame as <-. clear Hentry.
    fold addr in Hall, Hseqs, Hs', Hso'.
    assert (Hseq3 : ∀ a, seqNoFor w3 a = seqNoFor w a).
    { intros a. unfold seqNoFor at 1. subst w3. simpl.
      rewrite (seqNoFor_insert w addr a).
      destruct (decide (addr = a)) as [->|]; reflexivity. }
    exists new. split; [exact Hrp|].
    split; [eapply Forall_impl; [exact Hall|]; intros p [_ Hp]; exact Hp|].
    split.
    { intros a. rewrite (packetsTo_single addr a new)
        by (eapply Forall_impl; [exact Hall|]; intros p [Hp _]; exact Hp).
      destruct (decide (a = addr)) as [->|Hna].
      - rewrite Hseqs, Hs', Hseq3. split; reflexivity.
      - rewrite (Hso' a Hna), Hseq3. split; reflexivity. }
    split.
    { intros t'. unfold workersFor. rewrite Ht2w. subst w3. simpl.
      destruct (decide (t = t')) as [->|Hnt].
      - now rewrite lookup_insert_eq.
      - now rewrite lookup_insert_ne. }
    split; [rewrite Hpeers; reflexivity|].
    split; [rewrite Hrel; reflexivity|].
    split; [intros t' Hnt; rewrite Hoq; now rewrite lookup_insert_ne|].
    split; [intros _; rewrite Hoq; apply lookup_insert_eq|].
    intros Hfits. destruct (Hbytes Hfits) as [Hflat Hsmall]; [now left|].
    split; [exact Hflat | exact Hsmall].
Qed.

Lemma foldlM_cons {A B : Type} (f : B -> A -> option B) (b : B) (x : A)
    (l : list A) :
  foldlM f b (x :: l) = f b x ≫= fun b' => foldlM f b' l.
Proof. reflexivity. Qed.

(** All the entries. [entries] are distinct entries of [outQueue]. *)
Lemma handleOutQueue_fold entries w w' :
  NoDup entries.*1 ->
  Forall (fun q => outQueue w !! q.1 = Some q.2) entries ->
  foldlM handleOutQueue_entry w entries = Some w' ->
  ∃ new,
    rayPackets w' = rayPackets w ++ new ∧
    Forall (freshPacket w) new ∧
    (∀ a, map RayPacket.sequenceNumber (packetsTo a new)
          = consecutive (seqNoFor w a) (length (packetsTo a new)) ∧
          seqNoFor w' a = bump (length (packetsTo a new)) (seqNoFor w a)) ∧
    (∀ t, workersFor w' t = workersFor w t) ∧ peers w' = peers w ∧
    (∀ t, outQueue w' !! t
          = if decide (t ∈ entries.*1) then Some [] else outQueue w !! t) ∧
    (Forall (fun q => Forall fits q.2) entries ->
     flat_map packetPayload new = flat_map (fun q => framedRays q.2) entries ∧
     Forall (fun p => len (packetPayload p) <= UDP_MTU_BYTES) new).
Proof.
  revert w. induction entries as [|q entries IH]; intros w Hnd Hin Hrun0.
  - simpl in Hrun0. injection Hrun0 as <-. exists []. rewrite app_nil_r.
    repeat split; try reflexivity; try constructor.
  - inversion Hnd as [|? ? Hq Hnd']; subst.
    inversion Hin as [|? ? Hq1 Hin']; subst.
    rewrite foldlM_cons in Hrun0.
    destruct (handleOutQueue_entry w q) as [w1|] eqn:Hrun1;
      simpl in Hrun0; [|discriminate].
    destruct (handleOutQueue_entry_spec w q w1 Hrun1)
      as (new1 & Hrp1 & Hfresh1 & Hseq1 & Hwk1 & Hpeers1 & Hrel1
          & Hoq1 & Hoqq & Hbytes1).
    assert (Hin1 : Forall (fun q' => outQueue w1 !! q'.1 = Some q'.2) entries).
    { apply Forall_forall. intros q' Hq'.
      rewrite Hoq1.
      - eapply Forall_forall in Hin'; eassumption.
      - intros Heq. apply Hq. rewrite <- Heq.
        apply list_elem_of_fmap. exists q'. split; [reflexivity | exact Hq']. }
    destruct (IH w1 Hnd' Hin1 Hrun0)
      as (new & Hrp & Hfresh & Hseq & Hwk & Hpeers & Hoq & Hbytes).
    exists (new1 ++ new).
    split; [rewrite Hrp, Hrp1, <- app_assoc; reflexivity|].
    split.
    { apply Forall_app. split; [exact Hfresh1|].
      eapply Forall_impl; [exact Hfresh|]. intros p Hp.
      unfold freshPacket in *. now rewrite <- Hrel1. }
    split.
    { intros a. destruct (Hseq1 a) as [Ha1 Ha1']. destruct (Hseq a) as [Ha Ha'].
      unfold packetsTo in *. rewrite filter_app, map_app, length_app.
      rewrite consecutive_app, bump_add, Ha1, Ha, Ha', Ha1'.
      split; reflexivity. }
    split; [intros t; now rewrite Hwk, Hwk1|].
    split; [congruence|].
    split.
    { intros t. rewrite Hoq, fmap_cons.
      destruct (decide (t = q.1)) as [->|Hnt].
      - destruct (decide (q.1 ∈ entries.*1)) as [|_]; [contradiction|].
        destruct (decide (q.1 ∈ q.1 :: entries.*1)) as [_|Hno];
          [now apply Hoqq | exfalso; apply Hno; left].
      - rewrite (Hoq1 t Hnt).
        destruct (decide (t ∈ entries.*1)) as [Hy|Hn];
          destruct (decide (t ∈ q.1 :: entries.*1)) as [Hy'|Hn'];
          try reflexivity.
        + exfalso. apply Hn'. now right.
        + exfalso. apply elem_of_cons in Hy'. destruct Hy'; congruence. }
    intros Hfits. inversion Hfits as [|? ? Hf1 Hfits']; subst.
    destruct (Hbytes1 Hf1) as [Hflat1 Hsmall1].
    destruct (Hbytes Hfits') as [Hflat Hsmall].
    split.
    + rewrite flat_map_app, Hflat1, Hflat. reflexivity.
    + apply Forall_app. split; assumption.
Qed.

Lemma handleOutQueue_fold_total entries w :
  Forall (fun q => q.2 ≠ [] ->
            workersFor w q.1 ≠ [] ∧
            Forall (fun c => is_Some (peers w !! c)) (workersFor w q.1))
    entries ->
  is_Some (foldlM handleOutQueue_entry w entries).
Proof.
  revert w. induction entries as [|q entries IH]; intros w Hcand.
  - simpl. eauto.
  - inversion Hcand as [|? ? Hc1 Hcand']; subst.
    destruct (handleOutQueue_entry_total w q Hc1) as [w1 Hrun1].
    rewrite foldlM_cons, Hrun1. simpl.
    destruct (handleOutQueue_entry_spec w q w1 Hrun1)
      as (_ & _ & _ & _ & Hwk1 & Hpeers1 & _).
    apply IH. eapply Forall_impl; [exact Hcand'|]. intros q' Hq'.
    rewrite Hwk1, Hpeers1. exact Hq'.
Qed.

Lemma handleOutQueue_total w :
  sendable w -> is_Some (handleOutQueue w).
Proof.
  intros Hsend. unfold handleOutQueue. apply handleOutQueue_fold_total.
  apply Forall_forall. intros [t rays] Hin Hne.
  apply elem_of_map_in_order in Hin. exact (Hsend t rays Hin Hne).
Qed.

Lemma handleOutQueue_spec w w' :
  handleOutQueue w = Some w' ->
  ∃ new,
    rayPackets w' = rayPackets w ++ new ∧
    Forall (freshPacket w) new ∧
    (∀ a, map RayPacket.sequenceNumber (packetsTo a new)
          = consecutive (seqNoFor w a) (length (packetsTo a new)) ∧
          seqNoFor w' a = bump (length (packetsTo a new)) (seqNoFor w a)) ∧
    (∀ t rays, outQueue w' !! t = Some rays -> rays = []) ∧
    ((∀ t rays, outQueue w !! t = Some rays -> Forall fits rays) ->
     flat_map packetPayload new
       = flat_map (fun q => framedRays q.2) (map_in_order (outQueue w)) ∧
     Forall (fun p => len (packetPayload p) <= UDP_MTU_BYTES) new).
Proof.
  unfold handleOutQueue. intros Hrun.
  destruct (handleOutQueue_fold (map_in_order (outQueue w)) w w')
    as (new & Hrp & Hfresh & Hseq & _ & _ & Hoq & Hbytes).
  - apply NoDup_fst_map_in_order.
  - apply Forall_forall. intros [t rays] Hin.
    now apply elem_of_map_in_order in Hin.
  - exact Hrun.
  - exists new. split; [exact Hrp|].
    split; [exact Hfresh|]. split; [exact Hseq|]. split.
    + intros t rays Hlook. rewrite Hoq in Hlook.
      destruct (decide (t ∈ (map_in_order (outQueue w)).*1)) as [_|Hno].
      * now injection Hlook as <-.
      * exfalso. apply Hno. apply list_elem_of_fmap. exists (t, rays).
        split; [reflexivity|]. now apply elem_of_map_in_order.
    + intros Hfits. apply Hbytes. apply Forall_forall. intros [t rays] Hin.
      apply elem_of_map_in_order in Hin. exact (Hfits t rays Hin).
Qed.



Lemma consecutive_increasing s k :
  0 <= s -> s + Z.of_nat k < 2 ^ 64 ->
  StronglySorted Z.lt (consecutive s k) ∧
  Forall (fun x => s <= x < s + Z.of_nat k) (consecutive s k) ∧
  bump k s = s + Z.of_nat k.
Proof.
  revert s. induction k as [|k IH]; intros s Hs Hk; simpl.
  - split; [constructor|]. split; [constructor | lia].
  - rewrite (wrap64_small (s + 1)) by lia.
    destruct (IH (s + 1)) as (Hsorted & Hall & Hbump); [lia | lia |].
    split; [|split].
    + constructor; [exact Hsorted|].
      eapply Forall_impl; [exact Hall|]. intros x Hx. simpl in Hx. lia.
    + constructor; [lia|].
      eapply Forall_impl; [exact Hall|]. intros x Hx. simpl in Hx. lia.
    + rewrite Hbump. lia.
Qed.

(** The packets queued again by the retransmission loop are packets of
    [outstandingRayPackets]; no sequence number is allocated. *)
Lemma retransmitLoop_requeues now outstanding w :
  ∃ requeued,
    rayPackets (retransmitLoop now outstanding w)
      = rayPackets w ++ map retransmitted requeued ∧
    sublist requeued (map snd outstanding) ∧
    sequenceNumbers (retransmitLoop now outstanding w) = sequenceNumbers w.
Proof.
  revert w. induction outstanding as [|front rest IH]; intros w; simpl.
  - exists []. rewrite app_nil_r. repeat split. constructor.
  - destruct (_ && _).
    + match goal with
      | |- context [retransmitLoop now rest ?x] =>
        destruct (IH x) as (requeued & Hrp & Hsub & Hseq)
      end.
      destruct (negb _) eqn:Hun.
      * exists (front.2 :: requeued). rewrite Hrp. simpl.
        rewrite <- app_assoc. split; [reflexivity|].
        split; [now constructor | exact Hseq].
      * exists requeued. rewrite Hrp. simpl.
        split; [reflexivity|]. split; [now constructor | exact Hseq].
    + exists []. simpl. rewrite app_nil_r.
      split; [reflexivity|]. split; [apply sublist_nil_l | reflexivity].
Qed.

(** C3. The ray packets that [handleOutQueue] queues for one destination
    address carry the values of [sequenceNumbers[address]], which is
    incremented once per packet: as long as the 64-bit counter does not wrap
    around they are strictly increasing, from the old value of the counter
    up to its new value. A packet queued again by
    [handleRayAcknowledgements] keeps its sequence number and its
    destination; only its attempt count and its retransmission flag
    change, and the counters are left alone. *)
Theorem sequence_numbers_increase w w' addr :
  handleOutQueue w = Some w' ->
  0 <= seqNoFor w addr ->
  seqNoFor w addr
    + Z.of_nat (length (rayPackets w') - length (rayPackets w)) < 2 ^ 64 ->
  (∃ new,
     rayPackets w' = rayPackets w ++ new ∧
     Forall (freshPacket w) new ∧
     StronglySorted Z.lt (map RayPacket.sequenceNumber (packetsTo addr new)) ∧
     Forall (fun s => seqNoFor w addr <= s < seqNoFor w' addr)
       (map RayPacket.sequenceNumber (packetsTo addr new)) ∧
     seqNoFor w' addr
       = seqNoFor w addr + Z.of_nat (length (packetsTo addr new)))
  ∧
  (∀ now,
     let w'' := handleRayAcknowledgements now w in
     sequenceNumbers w'' = sequenceNumbers w ∧
     ∃ requeued,
       rayPackets w'' = rayPackets w ++ map retransmitted requeued ∧
       sublist requeued (map snd (outstandingRayPackets w)) ∧
       Forall (fun p =>
                 RayPacket.sequenceNumber (retransmitted p)
                   = RayPacket.sequenceNumber p ∧
                 RayPacket.destination (retransmitted p)
                   = RayPacket.destination p ∧
                 RayPacket.destinationId (retransmitted p)
                   = RayPacket.destinationId p ∧
                 packetPayload (retransmitted p) = packetPayload p ∧
                 Message.sequence_number (RayPacket.data (retransmitted p))
                   = Message.sequence_number (RayPacket.data p) ∧
                 RayPacket.attempt (retransmitted p)
                   = wrap16 (RayPacket.attempt p + 1) ∧
                 RayPacket.retransmission (retransmitted p) = true)
         requeued).
Proof.
  intros Hrun Hpos Hwrap. split.
  - destruct (handleOutQueue_spec w w' Hrun)
      as (new & Hrp & Hfresh & Hseq & _).
    exists new. split; [exact Hrp|]. split; [exact Hfresh|].
    destruct (Hseq addr) as [Hmap Hnext].
    assert (Hk : seqNoFor w addr + Z.of_nat (length (packetsTo addr new))
                 < 2 ^ 64).
    { rewrite Hrp, length_app in Hwrap.
      assert (length (packetsTo addr new) <= length new)%nat
        by (unfold packetsTo; apply length_filter).
      lia. }
    destruct (consecutive_increasing (seqNoFor w addr)
                (length (packetsTo addr new)) Hpos Hk)
      as (Hsorted & Hall & Hbump).
    rewrite Hmap, Hnext, Hbump. auto.
  - intros now w''. subst w''. unfold handleRayAcknowledgements.
    set (w1 := foldl sendAcks_entry w (map_to_list (toBeAcked w))).
    destruct (sendAcks_frame (map_to_list (toBeAcked w)) w)
      as (_ & Hout & Hrp & Hseq & _).
    fold w1 in Hout, Hrp, Hseq.
    destruct (retransmitLoop_requeues now
                (outstandingRayPackets (with_toBeAcked ∅ w1))
                (with_toBeAcked ∅ w1))
      as (requeued & Hrp' & Hsub & Hseq').
    split; [rewrite Hseq'; exact Hseq|].
    exists requeued. split; [rewrite Hrp'; simpl; now rewrite Hrp|].
    split; [simpl in Hsub; now rewrite Hout in Hsub|].
    apply Forall_forall. intros p _. repeat split.
Qed.

(** ** Bytes and records *)

Context `{RR : !RayRecords}.

Lemma Z_of_byte_of_Z (z : Z) : Z_of_byte (byte_of_Z z) = z mod 256.
Proof.
  unfold Z_of_byte, byte_of_Z.
  assert (Hrange : 0 <= z mod 256 < 256) by (apply Z.mod_pos_bound; lia).
  destruct (Byte.of_N (Z.to_N (z mod 256))) as [b|] eqn:Hb; simpl.
  - apply Byte.to_of_N in Hb. rewrite Hb. lia.
  - apply Byte.of_N_None_iff in Hb. lia.
Qed.

Lemma be_value_snoc (bs : list Byte.byte) (b : Byte.byte) :
  be_value (bs ++ [b]) = be_value bs * 256 + Z_of_byte b.
Proof. unfold be_value. rewrite foldl_app. reflexivity. Qed.

Lemma be_value_be_bytes (n : nat) (z : Z) :
  be_value (be_bytes n z) = z mod 256 ^ Z.of_nat n.
Proof.
  revert z. induction n as [|n IH]; intros z.
  - simpl. rewrite Z.mod_1_r. reflexivity.
  - cbn [be_bytes]. rewrite be_value_snoc, IH, Z_of_byte_of_Z.
    rewrite Nat2Z.inj_succ, Z.pow_succ_r by lia.
    rewrite (Z.rem_mul_r z 256 (256 ^ Z.of_nat n)) by lia.
    lia.
Qed.

Lemma be_value_field64 (z : Z) : be_value (put_field64 z) = wrap64 z.
Proof. unfold put_field64. rewrite be_value_be_bytes. reflexivity. Qed.

Lemma framed_unfold (s : list Byte.byte) : framed s = be_bytes 4 (len s) ++ s.
Proof. reflexivity. Qed.

Lemma foldl_write (A : Type) (f : A -> list Byte.byte) (l : list A)
    (oss : list Byte.byte) :
  foldl (fun oss x => RecordWriter_write oss (f x)) oss l
  = oss ++ flat_map (fun x => framed (f x)) l.
Proof.
  revert oss. induction l as [|x l IH]; intros oss; simpl.
  - rewrite app_nil_r. reflexivity.
  - rewrite IH, write_framed, <- app_assoc. reflexivity.
Qed.

(** The reader gives back what the writer wrote. *)
Lemma readRecords_framed (records : list (list Byte.byte)) (fuel : nat) :
  Forall (fun s => len s < 2 ^ 32) records ->
  (length records <= fuel)%nat ->
  readRecords fuel (flat_map framed records) = records.
Proof.
  revert fuel. induction records as [|s records IH]; intros fuel Hlen Hfuel.
  - destruct fuel; reflexivity.
  - destruct fuel as [|fuel]; [simpl in Hfuel; lia|].
    apply Forall_cons in Hlen as [Hs Hlen].
    cbn [flat_map]. rewrite framed_unfold, <- app_assoc.
    cbn [readRecords].
    assert (H4 : length (be_bytes 4 (len s)) = 4%nat) by apply be_bytes_length.
    assert (Hnn : 0 <= len s) by apply len_nonneg.
    destruct (Z.ltb_spec (len (be_bytes 4 (len s) ++ s ++ flat_map framed records)) 4)
      as [Hshort|_].
    { rewrite len_app in Hshort. unfold len at 1 in Hshort.
      rewrite H4 in Hshort.
      pose proof (len_nonneg (s ++ flat_map framed records)). lia. }
    rewrite take_app_length' by exact H4.
    rewrite drop_app_length' by exact H4.
    rewrite be_value_be_bytes.
    change (256 ^ Z.of_nat 4) with (2 ^ 32).
    rewrite Z.mod_small by lia.
    destruct (Z.ltb_spec (len (s ++ flat_map framed records)) (len s))
      as [Hshort|_].
    { rewrite len_app in Hshort.
      pose proof (len_nonneg (flat_map framed records)). lia. }
    assert (Hs' : Z.to_nat (len s) = length s) by (unfold len; lia).
    rewrite take_app_length' by exact Hs'.
    rewrite drop_app_length' by exact Hs'.
    rewrite IH; [reflexivity | exact Hlen | simpl in Hfuel; lia].
Qed.

Lemma length_flat_map_framed (records : list (list Byte.byte)) :
  (length records <= length (flat_map framed records))%nat.
Proof.
  induction records as [|s records IH]; simpl; [lia|].
  rewrite framed_unfold, !length_app, be_bytes_length. lia.
Qed.

Lemma RecordReader_framed (records : list (list Byte.byte)) :
  Forall (fun s => len s < 2 ^ 32) records ->
  RecordReader_records (flat_map framed records) = records.
Proof.
  intros Hlen. unfold RecordReader_records.
  apply readRecords_framed; [exact Hlen | apply length_flat_map_framed].
Qed.

Lemma framedRays_map (rays : list RayState) :
  framedRays rays = flat_map framed (map serialize rays).
Proof.
  unfold framedRays. induction rays as [|r rays IH]; simpl; [reflexivity|].
  rewrite IH. reflexivity.
Qed.

Lemma foldl_receiveRay (records : list (list Byte.byte)) (w : LambdaWorker) :
  let w' := foldl receiveRay w records in
  rayQueue w' =
    rayQueue w ++ map (fun s => resetTick (incHop (deserialize s))) records ∧
  outQueue w' = outQueue w ∧ pendingQueue w' = pendingQueue w ∧
  finishedQueue w' = finishedQueue w ∧ treeletIds w' = treeletIds w ∧
  peers w' = peers w ∧ messageParser w' = messageParser w.
Proof.
  revert w. induction records as [|s records IH]; intros w; simpl.
  - rewrite app_nil_r. repeat split.
  - destruct (IH (receiveRay w s)) as (Hq & Ho & Hp & Hf & Ht & Hpe & Hm).
    rewrite Hq, Ho, Hp, Hf, Ht, Hpe, Hm. simpl.
    rewrite <- app_assoc. repeat split.
Qed.

(** X7. Rays sent and received. The payload of a [SendRays] packet is the
    rays of a queue framed one after the other; when the worker at the other
    end processes it, the rays join the back of its ray queue in the order
    they were packed, each one deserialized from its own bytes, with one
    more hop and its tick reset, and no other queue changes. (The length of
    a serialized ray fits the four bytes of its prefix.) *)
Theorem sendRays_round_trip (rays : list RayState) (message : Message.t)
    (w : LambdaWorker) :
  Forall (fun ray => len (serialize ray) < 2 ^ 32) rays ->
  Message.payload message = framedRays rays ->
  let w' := processSendRays message w in
  rayQueue w' =
    rayQueue w ++
      map (fun ray => resetTick (incHop (deserialize (serialize ray)))) rays ∧
  outQueue w' = outQueue w ∧ pendingQueue w' = pendingQueue w ∧
  finishedQueue w' = finishedQueue w.
Proof.
  intros Hlen Hpayload w'. subst w'. unfold processSendRays.
  rewrite Hpayload, framedRays_map, RecordReader_framed.
  - destruct (foldl_receiveRay (map serialize rays) w)
      as (Hq & Ho & Hp & Hf & _).
    rewrite Hq, Ho, Hp, Hf, map_map. repeat split.
  - rewrite Forall_map. exact Hlen.
Qed.

(** ** Requests for treelets *)

Lemma filter_notin_ext (X Y : gset Z) (l : list Z) :
  (∀ t, t ∈ l -> (t ∈ X <-> t ∈ Y)) ->
  filter (fun t => t ∉ X) l = filter (fun t => t ∉ Y) l.
Proof.
  induction l as [|t l IH]; intros Hext; [reflexivity|].
  rewrite !filter_cons.
  rewrite IH by (intros t' Ht'; apply Hext; right; exact Ht').
  assert (Ht : t ∈ X <-> t ∈ Y) by (apply Hext; left).
  destruct (decide (t ∉ X)), (decide (t ∉ Y)); tauto.
Qed.

Lemma requestTreelet_fold (l : list Z) (acc : list Message.t * LambdaWorker) :
  NoDup l ->
  let r := foldl requestTreelet acc l in
  requestedTreelets r.2 = requestedTreelets acc.2 ∪ list_to_set l ∧
  r.1 = acc.1 ++
        map (fun t => Message.plain (deref_workerId acc.2) OpCode.GetWorker
                        (to_string_getWorker t))
          (filter (fun t => t ∉ requestedTreelets acc.2) l) ∧
  workerId r.2 = workerId acc.2 ∧
  neededTreelets r.2 = neededTreelets acc.2 ∧
  rayQueue r.2 = rayQueue acc.2 ∧ outQueue r.2 = outQueue acc.2 ∧
  pendingQueue r.2 = pendingQueue acc.2 ∧
  treeletToWorker r.2 = treeletToWorker acc.2 ∧
  peers r.2 = peers acc.2 ∧ mySeed r.2 = mySeed acc.2 ∧
  outQueueSize r.2 = outQueueSize acc.2 ∧
  pendingQueueSize r.2 = pendingQueueSize acc.2.
Proof.
  revert acc. induction l as [|t l IH]; intros [out w] Hnd; simpl.
  - rewrite app_nil_r. repeat split. set_solver.
  - apply NoDup_cons in Hnd as [Hnotin Hnd].
    rewrite filter_cons.
    destruct (decide (t ∈ requestedTreelets w)) as [Hin|Hout].
    + assert (Hstep : requestTreelet (out, w) t = (out, w)).
      { unfold requestTreelet. simpl.
        rewrite bool_decide_eq_true_2 by exact Hin. reflexivity. }
      rewrite Hstep.
      destruct (IH (out, w) Hnd) as (Hreq & Hout' & Hrest). simpl in *.
      rewrite Hreq, Hout'.
      destruct (decide (t ∉ requestedTreelets w)) as [Hc|_]; [tauto|].
      split; [set_solver|]. split; [reflexivity|]. exact Hrest.
    + assert (Hstep :
        requestTreelet (out, w) t
        = (out ++ [Message.plain (deref_workerId w) OpCode.GetWorker
                     (to_string_getWorker t)],
           with_requestedTreelets ({[t]} ∪ requestedTreelets w) w)).
      { unfold requestTreelet. simpl.
        rewrite bool_decide_eq_false_2 by exact Hout. reflexivity. }
      rewrite Hstep.
      match goal with
      | |- context [foldl requestTreelet ?a l] =>
        destruct (IH a Hnd) as (Hreq & Hout' & Hrest)
      end.
      simpl in *. rewrite Hreq, Hout'.
      destruct (decide (t ∉ requestedTreelets w)) as [_|Hc]; [|tauto].
      split; [set_solver|]. split; [|exact Hrest].
      rewrite <- app_assoc. simpl. do 3 f_equal.
      apply filter_notin_ext. intros t' Ht'.
      assert (t' ≠ t) by (intros ->; contradiction).
      set_solver.
Qed.

(** X8. [handleNeededTreelets] asks the coordinator once for each needed
    treelet that has no request under way, and for no other; afterwards no
    treelet is needed, the treelets asked for are remembered as requested,
    and a second activation sends nothing. The ray queues are left alone. *)
Theorem handleNeededTreelets_requests (w : LambdaWorker) :
  let r := handleNeededTreelets w in
  r.1 ≡ₚ map (fun t => Message.plain (deref_workerId w) OpCode.GetWorker
                         (to_string_getWorker t))
           (elements (neededTreelets w ∖ requestedTreelets w)) ∧
  neededTreelets r.2 = ∅ ∧
  requestedTreelets r.2 = requestedTreelets w ∪ neededTreelets w ∧
  (handleNeededTreelets r.2).1 = [] ∧
  rayQueue r.2 = rayQueue w ∧ outQueue r.2 = outQueue w ∧
  pendingQueue r.2 = pendingQueue w.
Proof.
  intros r. subst r. unfold handleNeededTreelets.
  destruct (requestTreelet_fold (set_in_order (neededTreelets w)) ([], w)
              (NoDup_set_in_order _))
    as (Hreq & Hout & _ & _ & Hq & Ho & Hp & _).
  simpl in *.
  rewrite Hout, Hq, Ho, Hp, Hreq, set_in_order_empty.
  split.
  { apply Permutation_map. apply NoDup_Permutation.
    - apply NoDup_filter, NoDup_set_in_order.
    - apply NoDup_elements.
    - intros t. rewrite list_elem_of_filter, elem_of_set_in_order, elem_of_elements.
      rewrite elem_of_difference. tauto. }
  split; [reflexivity|]. split; [|repeat split].
  apply set_eq. intros t. rewrite !elem_of_union, elem_of_list_to_set.
  rewrite elem_of_set_in_order. reflexivity.
Qed.

(** ** Finished paths and finished rays *)

Lemma foldl_put_field64 (ids : list Z) (payload : list Byte.byte) :
  foldl (fun payload pathId => payload ++ put_field64 pathId) payload ids
  = payload ++ flat_map put_field64 ids.
Proof.
  revert payload. induction ids as [|id ids IH]; intros payload; simpl.
  - rewrite app_nil_r. reflexivity.
  - rewrite IH, <- app_assoc. reflexivity.
Qed.

Lemma field64_group (ids : list Z) (i : nat) (id : Z) :
  ids !! i = Some id ->
  take 8 (drop (8 * i) (flat_map put_field64 ids)) = put_field64 id.
Proof.
  revert i. induction ids as [|id0 ids IH]; intros i Hi; [discriminate|].
  assert (H8 : length (put_field64 id0) = 8%nat) by apply be_bytes_length.
  cbn [flat_map].
  destruct i as [|i].
  - injection Hi as ->. rewrite Nat.mul_0_r, drop_0.
    rewrite take_app_length' by exact H8. reflexivity.
  - replace (8 * S i)%nat with (8 + 8 * i)%nat by lia.
    rewrite <- drop_drop, drop_app_length' by exact H8.
    apply IH. exact Hi.
Qed.

(** X9. [handleFinishedPaths] reports the finished paths in one
    [FinishedPaths] message and forgets them: the payload has eight bytes
    per path, in the order the paths finished, and the [i]-th group of eight
    bytes reads back, big-endian, as the [i]-th path id (as a 64-bit
    number). A message is sent even when no path has finished. *)
Theorem handleFinishedPaths_payload (w : LambdaWorker) :
  let r := handleFinishedPaths w in
  finishedPathIds r.2 = [] ∧
  ∃ m, r.1 = [m] ∧ Message.opcode m = OpCode.FinishedPaths ∧
       Message.sender_id m = deref_workerId w ∧
       len (Message.payload m) = 8 * Z.of_nat (length (finishedPathIds w)) ∧
       ∀ i id, finishedPathIds w !! i = Some id ->
         be_value (take 8 (drop (8 * i) (Message.payload m))) = wrap64 id.
Proof.
  intros r. subst r. unfold handleFinishedPaths. cbn [fst snd].
  split; [reflexivity|].
  eexists. split; [reflexivity|].
  unfold Message.plain, Message.make.
  cbn [Message.opcode Message.sender_id Message.payload].
  rewrite foldl_put_field64, app_nil_l.
  split; [reflexivity|]. split; [reflexivity|]. split.
  - induction (finishedPathIds w) as [|id ids IH]; [reflexivity|].
    cbn [flat_map]. rewrite len_app, IH.
    unfold len at 1, put_field64. rewrite be_bytes_length.
    rewrite length_cons. lia.
  - intros i id Hi. rewrite (field64_group _ _ _ Hi).
    apply be_value_field64.
Qed.

(** X10. [handleFinishedQueue] by policy. [Upload] changes nothing and
    writes nothing; [Discard] empties the queue without a word to the
    coordinator; [SendBack] empties it into one [FinishedRays] message whose
    payload is the records of the rays, framed, in queue order. Any other
    value of the policy makes the handler throw, and is one for which the
    predicate of the action never holds. *)
Theorem handleFinishedQueue_by_policy (action : FinishedRayAction)
    (w : LambdaWorker) :
  match handleFinishedQueue action w with
  | Some (out, w') =>
    (action = Upload ∧ out = [] ∧ w' = w) ∨
    (finishedQueue w' = [] ∧ rayQueue w' = rayQueue w ∧
     finishedPathIds w' = finishedPathIds w ∧
     ((action = Discard ∧ out = []) ∨
      (action = SendBack ∧
       out = [Message.plain (deref_workerId w) OpCode.FinishedRays
                (flat_map (fun ray => framed (finishedRecord ray))
                   (finishedQueue w))])))
  | None =>
    (∃ n, action = OtherAction n) ∧ finishedQueuePredicate action w = false
  end.
Proof.
  destruct action as [| | |n]; simpl.
  - right. repeat split. left. split; reflexivity.
  - right. repeat split. right. split; [reflexivity|].
    rewrite foldl_write, app_nil_l. reflexivity.
  - left. repeat split.
  - split; [exists n|]; reflexivity.
Qed.

(** ** The ray queue *)

Lemma take_budget (i : Z) (ray : RayState) (rest : list RayState) :
  i < MAX_RAYS ->
  take (Z.to_nat (MAX_RAYS - i)) (ray :: rest)
  = ray :: take (Z.to_nat (MAX_RAYS - (i + 1))) rest.
Proof.
  intros Hi.
  replace (Z.to_nat (MAX_RAYS - i)) with (S (Z.to_nat (MAX_RAYS - (i + 1))))
    by lia.
  reflexivity.
Qed.

Lemma drop_budget (i : Z) (ray : RayState) (rest : list RayState) :
  i < MAX_RAYS ->
  drop (Z.to_nat (MAX_RAYS - i)) (ray :: rest)
  = drop (Z.to_nat (MAX_RAYS - (i + 1))) rest.
Proof.
  intros Hi.
  replace (Z.to_nat (MAX_RAYS - i)) with (S (Z.to_nat (MAX_RAYS - (i + 1))))
    by lia.
  reflexivity.
Qed.

Lemma traceLoop_None (i : Z) (queue processedRays : list RayState)
    (w : LambdaWorker) :
  i <= MAX_RAYS ->
  traceLoop i queue processedRays w = None <->
  Exists (fun ray => invalidRay ray = true)
    (take (Z.to_nat (MAX_RAYS - i)) queue).
Proof.
  revert i processedRays w.
  induction queue as [|ray rest IH]; intros i processedRays w Hi.
  - rewrite take_nil. simpl. split; [discriminate|]. intros H. inversion H.
  - cbn [traceLoop].
    destruct (Z.ltb_spec i MAX_RAYS) as [Hlt|Hge].
    + rewrite take_budget by exact Hlt. rewrite Exists_cons.
      unfold invalidRay at 1.
      destruct (toVisitEmpty ray); cbn [negb andb].
      * destruct (hit ray); cbn [negb].
        -- rewrite IH by lia. split; [tauto|]. intros [H|H]; [discriminate|exact H].
        -- split; [left; reflexivity | reflexivity].
      * repeat match goal with
               | |- context [if ?b then traceLoop _ _ _ _ else _] => destruct b
               end;
          rewrite IH by lia;
          (split; [tauto|]; intros [H|H]; [discriminate|exact H]).
    + replace (Z.to_nat (MAX_RAYS - i)) with O by lia.
      rewrite take_0. split; [discriminate|]. intros H. inversion H.
Qed.

(** X11. [handleRayQueue] throws exactly when one of the first [MAX_RAYS]
    rays of the queue can be neither traced nor shaded (nothing left to
    visit and no hit); a ray of that kind further back does no harm in this
    activation. *)
Theorem handleRayQueue_throws (w : LambdaWorker) :
  handleRayQueue w = None <->
  Exists (fun ray => invalidRay ray = true)
    (take (Z.to_nat MAX_RAYS) (rayQueue w)).
Proof.
  unfold handleRayQueue.
  rewrite <- (traceLoop_None 0 (rayQueue w) [] w) by (unfold MAX_RAYS; lia).
  destruct (traceLoop 0 (rayQueue w) [] w) as [[processed w1]|]; simpl.
  - split; discriminate.
  - split; reflexivity.
Qed.

Lemma traceLoop_rest (i : Z) (queue processedRays : list RayState)
    (w : LambdaWorker) processed w1 :
  i <= MAX_RAYS ->
  traceLoop i queue processedRays w = Some (processed, w1) ->
  rayQueue w1 = drop (Z.to_nat (MAX_RAYS - i)) queue ∧
  treeletIds w1 = treeletIds w ∧ treeletToWorker w1 = treeletToWorker w ∧
  outQueue w1 = outQueue w ∧ pendingQueue w1 = pendingQueue w ∧
  outQueueSize w1 = outQueueSize w ∧
  pendingQueueSize w1 = pendingQueueSize w ∧
  finishedQueue w `prefix_of` finishedQueue w1.
Proof.
  revert i processedRays w.
  induction queue as [|ray rest IH]; intros i processedRays w Hi Hrun.
  - simpl in Hrun. injection Hrun as <- <-. rewrite drop_nil. simpl.
    repeat split; reflexivity.
  - cbn [traceLoop] in Hrun.
    destruct (Z.ltb_spec i MAX_RAYS) as [Hlt|Hge].
    + rewrite drop_budget by exact Hlt.
      destruct (toVisitEmpty ray); cbn [negb] in Hrun.
      * destruct (hit ray); [|discriminate].
        apply IH in Hrun; [|lia].
        destruct (Shade ray).2; simpl in Hrun; exact Hrun.
      * repeat match type of Hrun with
               | context [if ?b then traceLoop _ _ _ _ else _] =>
                 destruct b
               end;
          (apply IH in Hrun; [|lia]);
          destruct Hrun as (Hq & Ht & Hw & Ho & Hp & Hos & Hps & Hf);
          simpl in *;
          (repeat split; try assumption);
          (etrans; [|exact Hf]); apply prefix_app_r; reflexivity.
    + injection Hrun as <- <-.
      replace (Z.to_nat (MAX_RAYS - i)) with O by lia.
      rewrite drop_0. simpl. repeat split; reflexivity.
Qed.

Lemma route_fold_rayQueue (rays : list RayState) (w : LambdaWorker) :
  let w' := foldl routeProcessedRay w rays in
  rayQueue w' =
    rayQueue w ++
      filter (fun ray => CurrentTreelet ray ∈ treeletIds w) rays ∧
  treeletIds w' = treeletIds w ∧ finishedQueue w' = finishedQueue w.
Proof.
  revert w. induction rays as [|ray rays IH]; intros w; simpl.
  - rewrite app_nil_r. repeat split.
  - destruct (IH (routeProcessedRay w ray)) as (Hq & Ht & Hf).
    rewrite Hq, Ht, Hf. rewrite filter_cons.
    unfold routeProcessedRay.
    destruct (decide (CurrentTreelet ray ∈ treeletIds w)) as [Hin|Hout].
    + rewrite bool_decide_eq_true_2 by exact Hin. simpl.
      rewrite <- app_assoc. repeat split.
    + rewrite bool_decide_eq_false_2 by exact Hout.
      destruct (bool_decide (is_Some (treeletToWorker w !! CurrentTreelet ray)));
        simpl; repeat split.
Qed.

(** X12. One activation of [handleRayQueue] takes at most [MAX_RAYS] rays
    off the queue: what was behind them stays at the head of the queue, in
    order, before any ray that this activation queues again, and every ray
    it queues again is for a treelet the worker holds. Finished rays are
    only added at the back of the finished queue. *)
Theorem handleRayQueue_budget (w w' : LambdaWorker) :
  handleRayQueue w = Some w' ->
  ∃ again,
    rayQueue w' = drop (Z.to_nat MAX_RAYS) (rayQueue w) ++ again ∧
    Forall (fun ray => CurrentTreelet ray ∈ treeletIds w') again ∧
    treeletIds w' = treeletIds w ∧
    finishedQueue w `prefix_of` finishedQueue w'.
Proof.
  unfold handleRayQueue. intros Hrun.
  destruct (traceLoop 0 (rayQueue w) [] w) as [[processed w1]|] eqn:Hloop;
    [|discriminate].
  simpl in Hrun. injection Hrun as <-.
  apply traceLoop_rest in Hloop; [|unfold MAX_RAYS; lia].
  destruct Hloop as (Hq & Ht & _ & _ & _ & _ & _ & Hf).
  destruct (route_fold_rayQueue processed w1) as (Hq' & Ht' & Hf').
  exists (filter (fun ray => CurrentTreelet ray ∈ treeletIds w1) processed).
  rewrite Hq', Ht', Hf', Hq, Ht. rewrite Z.sub_0_r.
  split; [reflexivity|]. split; [|split; [reflexivity|exact Hf]].
  rewrite <- Ht. apply Forall_forall. intros ray Hin.
  apply list_elem_of_filter in Hin as [Hin _]. exact Hin.
Qed.

(** ** The peers *)

Lemma peerRequests_ext (w w0 : LambdaWorker) (peer : Worker.t) :
  workerId w = workerId w0 -> mySeed w = mySeed w0 ->
  peerRequests w peer = peerRequests w0 peer.
Proof.
  intros Hid Hseed.
  unfold peerRequests, createConnectionRequest, deref_workerId.
  rewrite Hid, Hseed. reflexivity.
Qed.

Lemma peerKeepAlive_ext (now : Z) (w w0 : LambdaWorker) (kv : Z * Worker.t) :
  workerId w = workerId w0 ->
  peerKeepAlive now w kv = peerKeepAlive now w0 kv.
Proof.
  intros Hid. unfold peerKeepAlive, deref_workerId. rewrite Hid. reflexivity.
Qed.

Lemma handlePeers_entry_packets (now : Z) (w : LambdaWorker)
    (kv : Z * Worker.t) :
  let w' := handlePeers_entry now w kv in
  servicePackets w' =
    peerRequests w kv.2 ++ servicePackets w ++ peerKeepAlive now w kv ∧
  peers w' = <[kv.1 := peerAfter now kv]> (peers w) ∨
  (peerAfter now kv = kv.2 ∧ peers w' = peers w ∧
   servicePackets w' =
     peerRequests w kv.2 ++ servicePackets w ++ peerKeepAlive now w kv).
Proof.
  destruct kv as [peerId peer].
  unfold handlePeers_entry, peerRequests, peerKeepAlive, peerAfter,
    keepAliveDue.
  cbn [fst snd].
  destruct (Worker.state peer).
  - left. simpl. rewrite app_nil_r. split; reflexivity.
  - destruct ((0 <? peerId) && (Worker.nextKeepAlive peer <? now)).
    + left. simpl. split; reflexivity.
    + right. simpl. rewrite app_nil_r. repeat split.
Qed.

Lemma handlePeers_entry_ids (now : Z) (w : LambdaWorker) (kv : Z * Worker.t) :
  workerId (handlePeers_entry now w kv) = workerId w ∧
  mySeed (handlePeers_entry now w kv) = mySeed w.
Proof.
  unfold handlePeers_entry.
  destruct (Worker.state kv.2); [split; reflexivity|].
  destruct (_ && _); split; reflexivity.
Qed.

Lemma handlePeers_fold_packets (now : Z) (l : list (Z * Worker.t))
    (w0 w : LambdaWorker) :
  workerId w = workerId w0 -> mySeed w = mySeed w0 ->
  servicePackets (foldl (handlePeers_entry now) w l) =
    flat_map (fun kv => peerRequests w0 kv.2) (reverse l) ++
    servicePackets w ++ flat_map (peerKeepAlive now w0) l.
Proof.
  revert w. induction l as [|kv l IH]; intros w Hid Hseed.
  - simpl. rewrite app_nil_r. reflexivity.
  - cbn [foldl].
    destruct (handlePeers_entry_ids now w kv) as [Hid' Hseed'].
    rewrite IH by congruence.
    assert (Hpackets :
      servicePackets (handlePeers_entry now w kv) =
        peerRequests w kv.2 ++ servicePackets w ++ peerKeepAlive now w kv).
    { destruct (handlePeers_entry_packets now w kv) as [[H _]|(_ & _ & H)];
        exact H. }
    rewrite Hpackets, reverse_cons, flat_map_app.
    rewrite (peerRequests_ext w w0) by assumption.
    rewrite (peerKeepAlive_ext now w w0) by assumption.
    cbn [flat_map]. rewrite app_nil_r, <- !app_assoc. reflexivity.
Qed.

(** X13. What [handlePeers] queues. For every peer that is still
    connecting, a connection request for each interface goes to the front
    of the service queue (to the address of that interface, and marked for
    it); for every connected peer other than the coordinator whose
    keep-alive deadline has passed, one [Ping] goes to the back. Nothing
    that was queued is dropped or reordered, the coordinator (peer 0) is
    never pinged. (The peers are taken in the order in which the table is
    iterated.) *)
Theorem handlePeers_servicePackets (now : Z) (w : LambdaWorker) :
  (∃ order,
     order ≡ₚ map_to_list (peers w) ∧
     servicePackets (handlePeers now w) =
       flat_map (fun kv => peerRequests w kv.2) (reverse order) ++
       servicePackets w ++ flat_map (peerKeepAlive now w) order) ∧
  (∀ peer, peerKeepAlive now w (0, peer) = []) ∧
  (∀ peer, Worker.state peer = Worker.Connecting ->
     map (fun p => (ServicePacket.iface p, ServicePacket.destination p))
       (peerRequests w peer)
     = [(1, (Worker.address peer).2); (0, (Worker.address peer).1)]).
Proof.
  split; [|split].
  - exists (map_in_order (peers w)). split; [apply map_in_order_perm|].
    unfold handlePeers. apply handlePeers_fold_packets; reflexivity.
  - intros peer. unfold peerKeepAlive, keepAliveDue. simpl.
    destruct (Worker.state peer); reflexivity.
  - intros peer Hstate. unfold peerRequests. rewrite Hstate. reflexivity.
Qed.

Lemma handlePeers_fold_peers (now : Z) (l : list (Z * Worker.t))
    (w : LambdaWorker) (k : Z) :
  NoDup l.*1 ->
  (∀ kv, kv ∈ l -> peers w !! kv.1 = Some kv.2) ->
  peers (foldl (handlePeers_entry now) w l) !! k
  = match list_to_map (M := gmap Z Worker.t) l !! k with
    | Some p => Some (peerAfter now (k, p))
    | None => peers w !! k
    end.
Proof.
  revert w. induction l as [|[k0 p0] l IH]; intros w Hnd Hl.
  - simpl. rewrite lookup_empty. reflexivity.
  - cbn [foldl]. rewrite fmap_cons in Hnd.
    apply NoDup_cons in Hnd as [Hnotin Hnd].
    assert (Hp0 : peers w !! k0 = Some p0) by (apply (Hl (k0, p0)); left).
    assert (Hpeers :
      peers (handlePeers_entry now w (k0, p0))
      = <[k0 := peerAfter now (k0, p0)]> (peers w)).
    { destruct (handlePeers_entry_packets now w (k0, p0))
        as [[_ H]|(Hsame & H & _)]; [exact H|].
      rewrite H, Hsame. cbn [fst snd]. symmetry. apply insert_id. exact Hp0. }
    rewrite IH.
    + rewrite Hpeers. cbn [list_to_map foldr fst snd].
      destruct (decide (k = k0)) as [->|Hne].
      * rewrite !lookup_insert_eq.
        rewrite (not_elem_of_list_to_map_1 (M := gmap Z)) by exact Hnotin.
        reflexivity.
      * rewrite !lookup_insert_ne by congruence. reflexivity.
    + exact Hnd.
    + intros [k1 p1] Hin. rewrite Hpeers. cbn [fst snd].
      rewrite lookup_insert_ne.
      * apply (Hl (k1, p1)). right. exact Hin.
      * intros ->. apply Hnotin.
        apply list_elem_of_fmap. exists (k1, p1). split; [reflexivity|exact Hin].
Qed.

(** X14. What [handlePeers] does to the peer table: every peer stays, a
    peer that is connecting has one more try, a connected peer that was sent
    a keep-alive has its deadline moved by [KEEP_ALIVE_INTERVAL] (from the
    old deadline, not from now), and nothing else changes: neither the
    state nor the flags, the addresses, the seed or the treelets of a
    peer. *)
Theorem handlePeers_peers (now : Z) (w : LambdaWorker) (k : Z) :
  peers (handlePeers now w) !! k
  = (fun p => peerAfter now (k, p)) <$> (peers w !! k) ∧
  ∀ p, Worker.state (peerAfter now (k, p)) = Worker.state p ∧
       Worker.connected (peerAfter now (k, p)) = Worker.connected p ∧
       Worker.address (peerAfter now (k, p)) = Worker.address p ∧
       Worker.seed (peerAfter now (k, p)) = Worker.seed p ∧
       Worker.treelets (peerAfter now (k, p)) = Worker.treelets p.
Proof.
  split.
  - unfold handlePeers. rewrite handlePeers_fold_peers.
    + rewrite list_to_map_in_order. destruct (peers w !! k); reflexivity.
    + apply NoDup_fst_map_in_order.
    + intros [k1 p1] Hin. apply elem_of_map_in_order in Hin. exact Hin.
  - intros p. unfold peerAfter, keepAliveDue. cbn [fst snd].
    destruct (Worker.state p) eqn:Hstate.
    + simpl. rewrite Hstate. repeat split.
    + destruct (_ && _); simpl; rewrite ?Hstate; repeat split.
Qed.

(** ** Receiving *)

(** What the walk makes of the messages it is given (newest first): it
    handles a run of unread messages, keeps some of them, marked read, in
    their order, and leaves the rest as it is. *)
Lemma receiveWalk_kept source messages w kept w' :
  receiveWalk source messages w = Some (kept, w') ->
  ∃ processed rest delivered,
    messages = processed ++ rest ∧ kept = delivered ++ rest ∧
    sublist delivered (map Message.set_read processed) ∧
    Forall (fun m => Message.opcode m ≠ OpCode.Ack) delivered ∧
    Forall (fun m => Message.is_read m = false) processed ∧
    match rest with
    | [] => True
    | m :: _ => Message.is_read m = true
    end.
Proof.
  revert w kept.
  induction messages as [|m older IH]; intros w kept H; simpl in H.
  - injection H as <- _. exists [], [], []. repeat split; constructor.
  - destruct (Message.is_read m) eqn:Hread.
    { injection H as <- _. exists [], (m :: older), [].
      repeat split; try constructor. exact Hread. }
    assert (Hskip : ∀ w1 kept,
              receiveWalk source older w1 = Some (kept, w') ->
              ∃ processed rest delivered,
                m :: older = processed ++ rest ∧ kept = delivered ++ rest ∧
                sublist delivered (map Message.set_read processed) ∧
                Forall (fun m => Message.opcode m ≠ OpCode.Ack) delivered ∧
                Forall (fun m => Message.is_read m = false) processed ∧
                match rest with
                | [] => True
                | m :: _ => Message.is_read m = true
                end).
    { intros w1 kept1 Hw.
      destruct (IH _ _ Hw) as (processed & rest & delivered & -> & -> & Hsub
                               & Hack & Hun & Hrest).
      exists (m :: processed), rest, delivered.
      split; [reflexivity|]. split; [reflexivity|].
      split; [simpl; apply sublist_cons; exact Hsub|].
      split; [exact Hack|]. split; [constructor; assumption | exact Hrest]. }
    assert (Hkeep : ∀ w1 kept1,
              Message.opcode m ≠ OpCode.Ack ->
              receiveWalk source older w1 = Some (kept1, w') ->
              ∃ processed rest delivered,
                m :: older = processed ++ rest ∧
                Message.set_read m :: kept1 = delivered ++ rest ∧
                sublist delivered (map Message.set_read processed) ∧
                Forall (fun m => Message.opcode m ≠ OpCode.Ack) delivered ∧
                Forall (fun m => Message.is_read m = false) processed ∧
                match rest with
                | [] => True
                | m :: _ => Message.is_read m = true
                end).
    { intros w1 kept1 Hop Hw.
      destruct (IH _ _ Hw) as (processed & rest & delivered & -> & -> & Hsub
                               & Hack & Hun & Hrest).
      exists (m :: processed), rest, (Message.set_read m :: delivered).
      split; [reflexivity|]. split; [reflexivity|].
      split; [simpl; apply sublist_skip; exact Hsub|].
      split; [constructor; [exact Hop | exact Hack]|].
      split; [constructor; assumption | exact Hrest]. }
    destruct (Message.reliable m) eqn:Hrel; simpl in H.
    + destruct (bool_decide _) in H.
      * eapply Hskip. exact H.
      * destruct (bool_decide (Message.opcode m = OpCode.Ack)) eqn:Hop in H.
        -- destruct (parseAcks _ _) as [acks|]; simpl in H; [|discriminate].
           eapply Hskip. exact H.
        -- apply bool_decide_eq_false in Hop.
           destruct (receiveWalk source older _) as [[k w3]|] eqn:Hw;
             simpl in H; [|discriminate].
           injection H as <- <-. eapply Hkeep; [exact Hop | exact Hw].
    + destruct (bool_decide (Message.opcode m = OpCode.Ack)) eqn:Hop in H.
      * destruct (parseAcks _ _) as [acks|]; simpl in H; [|discriminate].
        eapply Hskip. exact H.
      * apply bool_decide_eq_false in Hop.
        destruct (receiveWalk source older _) as [[k w3]|] eqn:Hw;
          simpl in H; [|discriminate].
        injection H as <- <-. eapply Hkeep; [exact Hop | exact Hw].
Qed.

(** Two splits of a list into a run of unread messages and a rest that does
    not start with one are the same split. *)
Lemma unread_run_unique (l1 r1 l2 r2 : list Message.t) :
  l1 ++ r1 = l2 ++ r2 ->
  Forall (fun m => Message.is_read m = false) l1 ->
  Forall (fun m => Message.is_read m = false) l2 ->
  match r1 with [] => True | m :: _ => Message.is_read m = true end ->
  match r2 with [] => True | m :: _ => Message.is_read m = true end ->
  l1 = l2 ∧ r1 = r2.
Proof.
  revert l2. induction l1 as [|a l1 IH]; intros l2 Heq H1 H2 Hr1 Hr2.
  - destruct l2 as [|b l2]; [split; [reflexivity|exact Heq]|].
    simpl in Heq. subst r1. apply Forall_cons in H2 as [Hb _].
    rewrite Hb in Hr1. discriminate.
  - apply Forall_cons in H1 as [Ha H1].
    destruct l2 as [|b l2].
    + simpl in Heq. subst r2. rewrite Ha in Hr2. discriminate.
    + simpl in Heq. injection Heq as -> Heq.
      apply Forall_cons in H2 as [_ H2].
      destruct (IH l2 Heq H1 H2 Hr1 Hr2) as [-> ->]. split; reflexivity.
Qed.

Lemma sublist_reverse {A : Type} (l k : list A) :
  sublist l k -> sublist (reverse l) (reverse k).
Proof.
  induction 1 as [|x l k _ IH|x l k _ IH].
  - constructor.
  - rewrite !reverse_cons. apply sublist_app; [exact IH|reflexivity].
  - rewrite reverse_cons. apply sublist_inserts_r. exact IH.
Qed.

Lemma map_reverse {A B : Type} (f : A -> B) (l : list A) :
  map f (reverse l) = reverse (map f l).
Proof.
  induction l as [|x l IH]; [reflexivity|].
  simpl. rewrite !reverse_cons, map_app, IH. reflexivity.
Qed.

Lemma sublist_read (delivered processed : list Message.t) :
  sublist delivered (map Message.set_read processed) ->
  Forall (fun m => Message.is_read m = true) delivered.
Proof.
  intros Hsub. apply Forall_forall. intros m Hin.
  assert (Hin' : m ∈ map Message.set_read processed).
  { eapply sublist_submseteq in Hsub. eapply elem_of_submseteq; eassumption. }
  apply list_elem_of_fmap in Hin' as (m0 & -> & _). reflexivity.
Qed.

(** X15. What a datagram does to the message queue. After [handleUdpReceive]
    the newest message of the queue, if there is one, is marked read. When
    the queue was all read and the datagram brought unread messages, the
    queue keeps its old messages untouched, followed by some of the new
    ones in their order of arrival, all marked read; no [Ack] is ever among
    them. *)
Theorem handleUdpReceive_delivery source parsed w w' :
  handleUdpReceive source parsed w = Some w' ->
  tailRead (messageParser w') ∧
  (Forall (fun m => Message.is_read m = true) (messageParser w) ->
   Forall (fun m => Message.is_read m = false) parsed ->
   ∃ delivered,
     messageParser w' = messageParser w ++ delivered ∧
     sublist delivered (map Message.set_read parsed) ∧
     Forall (fun m => Message.opcode m ≠ OpCode.Ack) delivered ∧
     Forall (fun m => Message.is_read m = true) (messageParser w')).
Proof.
  unfold handleUdpReceive. intros H.
  destruct (receiveWalk source (reverse (messageParser w ++ parsed)) w)
    as [[kept w1]|] eqn:Hwalk; simpl in H; [|discriminate].
  injection H as <-. simpl.
  destruct (receiveWalk_kept _ _ _ _ _ Hwalk)
    as (processed & rest & delivered & Hmsgs & -> & Hsub & Hack & Hun & Hrest).
  pose proof (sublist_read _ _ Hsub) as Hdel.
  split.
  - unfold tailRead. rewrite reverse_involutive.
    destruct delivered as [|d delivered]; simpl.
    + exact Hrest.
    + apply Forall_cons in Hdel as [Hd _]. exact Hd.
  - intros Hold Hnew.
    rewrite reverse_app in Hmsgs.
    assert (Hsplit : processed = reverse parsed ∧ rest = reverse (messageParser w)).
    { apply (unread_run_unique _ _ _ _ (eq_sym Hmsgs)).
      - exact Hun.
      - apply Forall_reverse. exact Hnew.
      - exact Hrest.
      - apply Forall_reverse in Hold.
        destruct (reverse (messageParser w)) as [|m old]; [exact I|].
        apply Forall_cons in Hold as [Hm _]. exact Hm. }
    destruct Hsplit as [-> ->].
    exists (reverse delivered).
    rewrite reverse_app, reverse_involutive.
    split; [reflexivity|]. split; [|split].
    + apply sublist_reverse in Hsub.
      rewrite map_reverse, reverse_involutive in Hsub. exact Hsub.
    + apply Forall_reverse. exact Hack.
    + apply Forall_app. split; [exact Hold|].
      apply Forall_reverse. exact Hdel.
Qed.


(** ** The handshake *)


(** X18. After [Hey] the worker has its id, the coordinator is peer 0 at the
    coordinator's address on both interfaces, and the two connection
    requests are ahead of everything queued: the next send on interface 0
    and the next send on interface 1 put the request of that interface on
    the wire, to the coordinator, and the service queue is then as it was
    before. *)
Theorem hey_requests coordinatorAddr id w now now' :
  let w1 := processHey coordinatorAddr id w in
  let w3 := handleUdpSend 1 now' (handleUdpSend 0 now w1) in
  workerId w1 = Some id ∧
  (∃ peer, peers w1 !! 0 = Some peer ∧
           Worker.address peer = (coordinatorAddr, coordinatorAddr) ∧
           udpSent w3 =
             udpSent w ++
               [(0, coordinatorAddr, createConnectionRequest peer 0 w1);
                (1, coordinatorAddr, createConnectionRequest peer 1 w1)]) ∧
  servicePackets w3 = servicePackets w ∧
  rayPackets w3 = rayPackets w.
Proof.
  intros w1 w3. subst w1 w3.
  unfold processHey, emplaceFrontService, handleUdpSend. simpl.
  split; [reflexivity|]. split; [|split; reflexivity].
  eexists. split; [apply lookup_insert_eq|].
  split; [reflexivity|].
  rewrite <- app_assoc. reflexivity.
Qed.

Lemma connectAddresses_keeps id i addrs peer a2w a v :
  a2w !! a = Some v ->
  (connectAddresses id i addrs peer a2w).2 !! a = Some v.
Proof.
  revert i peer a2w. induction addrs as [|addr rest IH]; intros i peer a2w Ha.
  - exact Ha.
  - simpl. destruct (i <? 2); [|exact Ha].
    apply IH.
    destruct (bool_decide (is_Some (a2w !! addr))) eqn:Hknown; [exact Ha|].
    apply bool_decide_eq_false in Hknown.
    rewrite lookup_insert_ne; [exact Ha|].
    intros ->. apply Hknown. rewrite Ha. eexists. reflexivity.
Qed.

(** X19. [ConnectTo] is taken once. A [ConnectTo] for a worker whose id is
    already in the peer table, or for the worker itself, changes nothing:
    in particular a second [ConnectTo] for the same id is ignored whatever
    addresses it carries. And [ConnectTo] never changes the worker that an
    address is already mapped to. *)
Theorem connectTo_once proto w :
  (∀ addresses,
     handleConnectTo (ConnectTo.mk (ConnectTo.worker_id proto) addresses)
       (handleConnectTo proto w)
     = handleConnectTo proto w) ∧
  (is_Some (peers w !! ConnectTo.worker_id proto) ∨
   ConnectTo.worker_id proto = deref_workerId w <->
   handleConnectTo proto w = w) ∧
  (∀ a v, addressToWorker w !! a = Some v ->
          addressToWorker (handleConnectTo proto w) !! a = Some v).
Proof.
  unfold handleConnectTo.
  destruct (peers w !! ConnectTo.worker_id proto) as [p|] eqn:Hpeer.
  - rewrite bool_decide_eq_false_2 by discriminate. simpl.
    split; [|split].
    + intros addresses. simpl. rewrite Hpeer.
      rewrite bool_decide_eq_false_2 by discriminate. reflexivity.
    + split; [reflexivity|]. intros _. left. eexists. reflexivity.
    + intros a v Ha. exact Ha.
  - rewrite bool_decide_eq_true_2 by reflexivity. simpl.
    destruct (Z.eqb_spec (ConnectTo.worker_id proto) (deref_workerId w))
      as [Hown|Hother]; simpl.
    + split; [|split].
      * intros addresses. simpl. rewrite Hpeer.
        rewrite bool_decide_eq_true_2 by reflexivity. simpl.
        destruct (Z.eqb_spec (ConnectTo.worker_id proto) (deref_workerId w));
          [reflexivity|contradiction].
      * split; [reflexivity|]. intros _. right. exact Hown.
      * intros a v Ha. exact Ha.
    + destruct (connectAddresses _ 0 _ _ _) as [peer a2w] eqn:Hconn.
      split; [|split].
      * intros addresses. simpl. rewrite lookup_insert_eq.
        rewrite bool_decide_eq_false_2 by discriminate. reflexivity.
      * split.
        -- intros [[p Hp]|Hown]; [discriminate|contradiction].
        -- intros Hsame. exfalso.
           assert (Hl : peers
                     (with_addressToWorker a2w
                        (with_peers
                           (<[ConnectTo.worker_id proto := peer]> (peers w)) w))
                     !! ConnectTo.worker_id proto = Some peer)
             by (simpl; apply lookup_insert_eq).
           rewrite Hsame, Hpeer in Hl. discriminate.
      * intros a v Ha. simpl.
        pose proof (connectAddresses_keeps (ConnectTo.worker_id proto) 0
                      (ConnectTo.address proto)
                      (Worker.make (ConnectTo.worker_id proto))
                      (addressToWorker w) a v Ha) as Hkeep.
        rewrite Hconn in Hkeep. exact Hkeep.
Qed.

(** ** Acknowledgements on the wire *)

Lemma len_ackTriple (r : Z * bool * Z) : len (ackTriple r) = 11.
Proof.
  unfold ackTriple, put_field64, put_field8, put_field16.
  rewrite !len_app. unfold len. rewrite !be_bytes_length. reflexivity.
Qed.

Lemma len_triples (rs : list (Z * bool * Z)) :
  len (flat_map ackTriple rs) = 11 * Z.of_nat (length rs).
Proof.
  induction rs as [|r rs IH]; [reflexivity|].
  cbn [flat_map]. rewrite len_app, len_ackTriple, IH, length_cons. lia.
Qed.

Lemma parseAcks_group (b8 t rest : list Byte.byte) (S : gset Z) :
  length b8 = 8%nat -> length t = 3%nat ->
  parseAcks (b8 ++ t ++ rest) S = parseAcks rest ({[be_value b8]} ∪ S).
Proof.
  intros H8 H3.
  destruct b8 as [|b0 [|b1 [|b2 [|b3 [|b4 [|b5 [|b6 [|b7 [|]]]]]]]]];
    try discriminate.
  destruct t as [|c0 [|c1 [|c2 [|]]]]; try discriminate.
  reflexivity.
Qed.

(** The receiver reads back the sequence numbers of the triples. *)
Lemma parseAcks_triples (rs : list (Z * bool * Z)) (S : gset Z) :
  parseAcks (flat_map ackTriple rs) S
  = Some (list_to_set (map ackedSeqNo rs) ∪ S).
Proof.
  revert S. induction rs as [|r rs IH]; intros S.
  - simpl. f_equal. set_solver.
  - cbn [flat_map]. unfold ackTriple at 1. rewrite <- !app_assoc.
    rewrite (app_assoc (put_field8 _)).
    rewrite parseAcks_group.
    + rewrite IH, be_value_field64. f_equal.
      cbn [map list_to_set]. unfold ackedSeqNo at 2. set_solver.
    + apply be_bytes_length.
    + unfold put_field8, put_field16. rewrite length_app, be_bytes_length.
      reflexivity.
Qed.

Lemma parseAll_app (l1 l2 : list (list Byte.byte)) (S : gset Z) :
  parseAll (l1 ++ l2) S = parseAll l1 S ≫= parseAll l2.
Proof.
  unfold parseAll. revert S. induction l1 as [|p l1 IH]; intros S.
  - reflexivity.
  - simpl. destruct (parseAcks p S) as [S'|]; simpl; [apply IH|reflexivity].
Qed.

Lemma emitAck_packet addr destId ack w :
  ∃ p, servicePackets (emitAck addr destId ack w) = servicePackets w ++ [p] ∧
       ackPacketFor addr p ∧ servicePayload p = ack ∧
       toBeAcked (emitAck addr destId ack w) = toBeAcked w ∧
       addressToWorker (emitAck addr destId ack w) = addressToWorker w.
Proof.
  unfold emitAck. eexists. split; [reflexivity|].
  repeat split.
Qed.

Lemma ackLoop_packets addr destId received pre w :
  len (flat_map ackTriple pre) < UDP_MTU_BYTES ->
  received ≠ [] ∨ pre = [] ->
  let w' := ackLoop addr destId received (flat_map ackTriple pre) w in
  ∃ new,
    servicePackets w' = servicePackets w ++ new ∧
    Forall (ackPacketFor addr) new ∧ Forall ackSized new ∧
    (∀ S, parseAll (map servicePayload new) S
          = Some (list_to_set (map ackedSeqNo (pre ++ received)) ∪ S)) ∧
    toBeAcked w' = toBeAcked w.
Proof.
  revert pre w. induction received as [|r rest IH]; intros pre w Hlen Hne.
  - destruct Hne as [Hne| ->]; [contradiction|].
    exists []. simpl. rewrite app_nil_r.
    split; [reflexivity|]. split; [constructor|]. split; [constructor|].
    split; [|reflexivity]. intros S. f_equal. set_solver.
  - cbn [ackLoop].
    change (put_field64 r.1.1 ++ put_field8 r.1.2 ++ put_field16 r.2)
      with (ackTriple r).
    assert (Hack : flat_map ackTriple pre ++ ackTriple r
                   = flat_map ackTriple (pre ++ [r])).
    { rewrite flat_map_app. cbn [flat_map]. rewrite app_nil_r. reflexivity. }
    rewrite Hack.
    pose proof (len_triples pre) as Hpre.
    pose proof (len_triples (pre ++ [r])) as Hpre'.
    rewrite length_app in Hpre'. simpl in Hpre'.
    destruct ((len (flat_map ackTriple (pre ++ [r])) >=? UDP_MTU_BYTES)
              || is_nil rest) eqn:Hemit.
    + destruct (emitAck_packet addr destId (flat_map ackTriple (pre ++ [r])) w)
        as (p & Hsp & Hfor & Hpayload & Htba & _).
      destruct (IH [] (emitAck addr destId (flat_map ackTriple (pre ++ [r])) w))
        as (new & Hsp' & Hfor' & Hsized & Hparse & Htba').
      { simpl. unfold UDP_MTU_BYTES, len. simpl. lia. }
      { right. reflexivity. }
      cbn [flat_map] in Hsp', Htba', Hparse.
      rewrite Hsp in Hsp'. rewrite Htba in Htba'.
      exists (p :: new).
      split; [rewrite Hsp', <- app_assoc; reflexivity|].
      split; [constructor; assumption|].
      split.
      { constructor; [|exact Hsized].
        unfold ackSized. rewrite Hpayload, Hpre'.
        rewrite MTU_value in *. split; [lia|].
        rewrite Z.mul_comm. apply Z.mod_mul. lia. }
      split; [|exact Htba'].
      intros S. cbn [map]. unfold parseAll. cbn [foldlM].
      rewrite Hpayload, parseAcks_triples. simpl.
      fold (parseAll (map servicePayload new)
              (list_to_set (map ackedSeqNo (pre ++ [r])) ∪ S)).
      rewrite Hparse. f_equal. simpl.
      rewrite !map_app, !list_to_set_app_L. simpl. set_solver.
    + apply orb_false_iff in Hemit as [Hsmall Hrest].
      destruct (IH (pre ++ [r]) w) as (new & Hsp' & Hfor' & Hsized & Hparse & Htba').
      { destruct (Z.geb_spec (len (flat_map ackTriple (pre ++ [r]))) UDP_MTU_BYTES);
          [discriminate|lia]. }
      { left. destruct rest; [discriminate|congruence]. }
      exists new. split; [exact Hsp'|]. split; [exact Hfor'|].
      split; [exact Hsized|]. split; [|exact Htba'].
      intros S. rewrite Hparse, <- app_assoc. reflexivity.
Qed.

Lemma ackPayloads_app addr (l1 l2 : list ServicePacket.t) :
  ackPayloads addr (l1 ++ l2) = ackPayloads addr l1 ++ ackPayloads addr l2.
Proof. unfold ackPayloads. rewrite filter_app, map_app. reflexivity. Qed.

Lemma ackPayloads_own addr (l : list ServicePacket.t) :
  Forall (ackPacketFor addr) l -> ackPayloads addr l = map servicePayload l.
Proof.
  unfold ackPayloads. induction 1 as [|p l Hp _ IH]; [reflexivity|].
  rewrite filter_cons. destruct Hp as [Hdest _].
  destruct (decide (ServicePacket.destination p = addr)); [|contradiction].
  simpl. rewrite IH. reflexivity.
Qed.

Lemma ackPayloads_other addr a (l : list ServicePacket.t) :
  a ≠ addr -> Forall (ackPacketFor a) l -> ackPayloads addr l = [].
Proof.
  unfold ackPayloads. intros Hne. induction 1 as [|p l Hp _ IH]; [reflexivity|].
  rewrite filter_cons. destruct Hp as [Hdest _].
  destruct (decide (ServicePacket.destination p = addr)); [congruence|].
  exact IH.
Qed.

Lemma sendAcks_fold (entries : list (Address * list (Z * bool * Z))) w :
  NoDup entries.*1 ->
  let w' := foldl sendAcks_entry w entries in
  ∃ new,
    servicePackets w' = servicePackets w ++ new ∧
    Forall (fun p => ∃ addr, ackPacketFor addr p) new ∧ Forall ackSized new ∧
    (∀ addr S,
       parseAll (ackPayloads addr new) S
       = Some (list_to_set
                 (map ackedSeqNo
                    (default [] (list_to_map (M := gmap Address _) entries
                                   !! addr))) ∪ S)).
Proof.
  revert w. induction entries as [|[a rs] entries IH]; intros w Hnd.
  - exists []. simpl. rewrite app_nil_r.
    split; [reflexivity|]. split; [constructor|]. split; [constructor|].
    intros addr S. rewrite lookup_empty. simpl. f_equal. set_solver.
  - rewrite fmap_cons in Hnd. apply NoDup_cons in Hnd as [Hnotin Hnd].
    cbn [foldl]. unfold sendAcks_entry at 2. cbn [fst snd].
    match goal with
    | |- context [ackLoop a ?d rs [] ?w1] =>
      destruct (ackLoop_packets a d rs [] w1)
        as (new1 & Hsp1 & Hfor1 & Hsized1 & Hparse1 & _)
    end.
    { simpl. unfold UDP_MTU_BYTES, len. simpl. lia. }
    { right. reflexivity. }
    cbn [flat_map] in Hsp1. simpl in Hsp1.
    match goal with
    | |- context [foldl sendAcks_entry ?w1 entries] =>
      destruct (IH w1 Hnd) as (new2 & Hsp2 & Hfor2 & Hsized2 & Hparse2)
    end.
    exists (new1 ++ new2).
    split; [rewrite Hsp2, Hsp1, <- app_assoc; reflexivity|].
    split.
    { apply Forall_app. split; [|exact Hfor2].
      eapply Forall_impl; [exact Hfor1|]. intros p Hp. exists a. exact Hp. }
    split; [apply Forall_app; split; assumption|].
    intros addr S. rewrite ackPayloads_app, parseAll_app.
    cbn [list_to_map foldr fst snd].
    destruct (decide (a = addr)) as [->|Hne].
    + rewrite (ackPayloads_own addr new1) by exact Hfor1.
      rewrite Hparse1. simpl. rewrite Hparse2.
      rewrite lookup_insert_eq.
      rewrite (not_elem_of_list_to_map_1 (M := gmap Address)) by exact Hnotin.
      simpl. f_equal. set_solver.
    + rewrite (ackPayloads_other addr a new1) by assumption.
      simpl. rewrite Hparse2, lookup_insert_ne by exact Hne. reflexivity.
Qed.

Lemma retransmitLoop_service now outstanding w :
  servicePackets (retransmitLoop now outstanding w) = servicePackets w ∧
  toBeAcked (retransmitLoop now outstanding w) = toBeAcked w.
Proof.
  revert w. induction outstanding as [|front rest IH]; intros w; simpl.
  - split; reflexivity.
  - destruct (_ && _); [|split; reflexivity].
    match goal with
    | |- context [retransmitLoop now rest ?w1] => destruct (IH w1) as [H1 H2]
    end.
    rewrite H1, H2. destruct (negb _); split; reflexivity.
Qed.

Lemma handleRayAcknowledgements_acks now w :
  let w' := handleRayAcknowledgements now w in
  toBeAcked w' = ∅ ∧
  ∃ new,
    servicePackets w' = servicePackets w ++ new ∧
    Forall (fun p => ∃ addr, ackPacketFor addr p) new ∧ Forall ackSized new ∧
    (∀ addr S,
       parseAll (ackPayloads addr new) S
       = Some (list_to_set (map ackedSeqNo (toBeAckedFor w addr)) ∪ S)).
Proof.
  unfold handleRayAcknowledgements.
  destruct (sendAcks_fold (map_to_list (toBeAcked w)) w
              (NoDup_fst_map_to_list _))
    as (new & Hsp & Hfor & Hsized & Hparse).
  match goal with
  | |- context [retransmitLoop now ?o ?w2] =>
    destruct (retransmitLoop_service now o w2) as [Hs Ht]
  end.
  cbn zeta. rewrite Hs, Ht. simpl.
  split; [reflexivity|].
  exists new. split; [exact Hsp|]. split; [exact Hfor|]. split; [exact Hsized|].
  intros addr S. rewrite Hparse, list_to_map_to_list. reflexivity.
Qed.

(** X20. Acknowledgements, sent and read. [handleRayAcknowledgements]
    empties [toBeAcked] into [Ack] packets appended to the service queue,
    and nothing of it is lost: for every address, what the receiving side's
    parser makes of the payloads of the packets for that address, in order,
    is exactly the set of the sequence numbers (as 64-bit numbers) that were
    to be acknowledged to it, added to the acks it had. *)
Theorem acks_round_trip now w :
  let w' := handleRayAcknowledgements now w in
  toBeAcked w' = ∅ ∧
  ∃ new,
    servicePackets w' = servicePackets w ++ new ∧
    (∀ addr S,
       parseAll (ackPayloads addr new) S
       = Some (list_to_set (map ackedSeqNo (toBeAckedFor w addr)) ∪ S)).
Proof.
  destruct (handleRayAcknowledgements_acks now w)
    as (Hempty & new & Hsp & _ & _ & Hparse).
  split; [exact Hempty|]. exists new. split; assumption.
Qed.

(** X21. Every packet that [handleRayAcknowledgements] adds to the service
    queue is an unreliable [Ack] for interface 0 whose payload is a whole
    number of eleven-byte triples, at least one and at most 123: the payload
    can be up to three bytes longer than [UDP_MTU_BYTES], never more. *)
Theorem ack_packets_sized now w :
  ∃ new,
    servicePackets (handleRayAcknowledgements now w)
      = servicePackets w ++ new ∧
    Forall (fun p => (∃ addr, ackPacketFor addr p) ∧
                     11 <= len (servicePayload p) <= UDP_MTU_BYTES + 3 ∧
                     len (servicePayload p) mod 11 = 0) new.
Proof.
  destruct (handleRayAcknowledgements_acks now w)
    as (_ & new & Hsp & Hfor & Hsized & _).
  exists new. split; [exact Hsp|].
  apply Forall_forall. intros p Hin.
  rewrite Forall_forall in Hfor, Hsized.
  split; [apply Hfor; exact Hin | apply Hsized; exact Hin].
Qed.

(** ** A reliable message, its acknowledgement and the sender *)

Lemma receiveWalk_frames source messages w kept w' :
  receiveWalk source messages w = Some (kept, w') ->
  queueFrame w w' ∧ sendFrame w w' ∧ messageParser w' = messageParser w.
Proof.
  revert w kept. induction messages as [|m older IH]; intros w kept H;
    simpl in H.
  - injection H as _ <-. repeat split.
  - destruct (Message.is_read m); [injection H as _ <-; repeat split|].
    destruct (Message.reliable m) eqn:Hrel; simpl in H.
    + destruct (bool_decide _) in H.
      * apply IH in H. exact H.
      * destruct (bool_decide _) in H.
        -- destruct (parseAcks _ _) as [acks|]; simpl in H; [|discriminate].
           apply IH in H. exact H.
        -- destruct (receiveWalk source older _) as [[k w3]|] eqn:Hw;
             simpl in H; [|discriminate].
           injection H as _ <-. apply IH in Hw. exact Hw.
    + destruct (bool_decide _) in H.
      * destruct (parseAcks _ _) as [acks|]; simpl in H; [|discriminate].
        apply IH in H. exact H.
      * destruct (receiveWalk source older _) as [[k w3]|] eqn:Hw;
          simpl in H; [|discriminate].
        injection H as _ <-. apply IH in Hw. exact Hw.
Qed.

Lemma handleUdpReceive_frames source parsed w w' :
  handleUdpReceive source parsed w = Some w' ->
  queueFrame w w' ∧ sendFrame w w'.
Proof.
  unfold handleUdpReceive. intros H.
  destruct (receiveWalk source _ w) as [[kept w1]|] eqn:Hwalk; simpl in H;
    [|discriminate].
  injection H as <-. apply receiveWalk_frames in Hwalk as (Hq & Hs & _).
  split; [exact Hq | exact Hs].
Qed.







(** ** The counters and the routes, in every run *)

Lemma sumLen_perm {A : Type} (f : A -> Z) (l l' : list A) :
  l ≡ₚ l' -> foldr Z.add 0 (map f l) = foldr Z.add 0 (map f l').
Proof. induction 1; simpl; lia. Qed.

Lemma queuedRays_empty : queuedRays ∅ = 0.
Proof. unfold queuedRays. rewrite map_to_list_empty. reflexivity. Qed.

Lemma queuedRays_insert (queue : gmap Z (list RayState)) (t : Z)
    (rays : list RayState) :
  queuedRays (<[t := rays]> queue)
  = queuedRays queue - Z.of_nat (length (default [] (queue !! t)))
    + Z.of_nat (length rays).
Proof.
  unfold queuedRays.
  destruct (queue !! t) as [old|] eqn:Hold; simpl.
  - rewrite <- (insert_delete_eq queue).
    rewrite (sumLen_perm _ _ _
               (map_to_list_insert (delete t queue) t rays
                  (lookup_delete_eq queue t))).
    rewrite <- (sumLen_perm _ _ _ (map_to_list_delete queue t old Hold)).
    simpl. lia.
  - rewrite (sumLen_perm _ _ _ (map_to_list_insert queue t rays Hold)).
    simpl. lia.
Qed.

Lemma queuedRays_nonneg (queue : gmap Z (list RayState)) :
  0 <= queuedRays queue.
Proof.
  unfold queuedRays. induction (map_to_list queue) as [|kv l IH]; simpl; lia.
Qed.

Lemma queuedRays_all_empty (queue : gmap Z (list RayState)) :
  (∀ t rays, queue !! t = Some rays -> rays = []) -> queuedRays queue = 0.
Proof.
  intros Hall. unfold queuedRays.
  assert (Hl : Forall (fun kv : Z * list RayState => kv.2 = [])
                 (map_to_list queue)).
  { apply Forall_forall. intros [t rays] Hin.
    apply elem_of_map_to_list in Hin. apply (Hall t). exact Hin. }
  induction Hl as [|kv l Hkv _ IH]; simpl; [reflexivity|].
  rewrite Hkv, IH. reflexivity.
Qed.

Lemma wrap64_range (z : Z) : 0 <= wrap64 z < 2 ^ 64.
Proof. unfold wrap64. apply Z.mod_pos_bound. lia. Qed.

Lemma wrap64_idem (z : Z) : wrap64 (wrap64 z) = wrap64 z.
Proof. unfold wrap64. apply Z.mod_mod. lia. Qed.

Lemma agree_shift (a b c : Z) :
  wrap64 a = wrap64 b -> wrap64 (wrap64 (a + c)) = wrap64 (b + c).
Proof.
  intros H. rewrite wrap64_idem, <- wrap64_add_l, H, wrap64_add_l.
  reflexivity.
Qed.

Lemma agree_step (a b c d : Z) :
  wrap64 a = wrap64 b -> d = b + c -> wrap64 (wrap64 (a + c)) = wrap64 d.
Proof. intros H ->. apply agree_shift. exact H. Qed.

Lemma agree_step_sub (a b k d : Z) :
  wrap64 a = wrap64 b -> d = b - k -> wrap64 (wrap64 (a - k)) = wrap64 d.
Proof.
  intros H ->. replace (a - k) with (a + - k) by lia.
  replace (b - k) with (b + - k) by lia. apply agree_shift. exact H.
Qed.

Lemma queueFrame_refl w : queueFrame w w.
Proof. repeat split. Qed.

Lemma queueFrame_trans w1 w2 w3 :
  queueFrame w1 w2 -> queueFrame w2 w3 -> queueFrame w1 w3.
Proof.
  unfold queueFrame. intros (? & ? & ? & ? & ?) (? & ? & ? & ? & ?).
  repeat split; congruence.
Qed.

Lemma peersKept_frame w w' : peers w' = peers w -> peersKept w w'.
Proof. intros H c Hc. rewrite H. exact Hc. Qed.

Lemma healthy_frame w w' :
  healthy w -> queueFrame w w' -> peersKept w w' -> healthy w'.
Proof.
  unfold healthy, countersAgree, countersInRange, routable, queueFrame.
  intros (Hagree & Hrange & Hr1 & Hr2) (Ho & Hos & Hp & Hps & Ht) Hkept.
  rewrite Ho, Hos, Hp, Hps, Ht.
  split; [exact Hagree|]. split; [exact Hrange|]. split; [|exact Hr2].
  intros t workers Hw. destruct (Hr1 t workers Hw) as [Hne Hknown].
  split; [exact Hne|].
  eapply Forall_impl; [exact Hknown|]. intros c Hc. apply Hkept. exact Hc.
Qed.

Lemma route_healthy w ray : healthy w -> healthy (routeProcessedRay w ray).
Proof.
  intros Hw. unfold routeProcessedRay.
  destruct (bool_decide (CurrentTreelet ray ∈ treeletIds w)).
  { apply (healthy_frame w); [exact Hw | repeat split | intros c Hc; exact Hc]. }
  destruct Hw as ((Hout & Hpend) & (Hro & Hrp) & Hr1 & Hr2).
  destruct (bool_decide (is_Some (treeletToWorker w !! CurrentTreelet ray)))
    eqn:Hknown.
  - apply bool_decide_eq_true in Hknown.
    unfold healthy, countersAgree, countersInRange, routable. simpl.
    split; [split; [|exact Hpend]|].
    { apply (agree_step _ _ _ _ Hout).
      rewrite queuedRays_insert, length_app. simpl. lia. }
    split; [split; [apply wrap64_range | exact Hrp]|].
    split; [exact Hr1|].
    intros t rays Hl Hne.
    destruct (decide (t = CurrentTreelet ray)) as [->|Hne'].
    + exact Hknown.
    + rewrite lookup_insert_ne in Hl by congruence. eapply Hr2; eassumption.
  - unfold healthy, countersAgree, countersInRange, routable. simpl.
    split; [split; [exact Hout|]|].
    { apply (agree_step _ _ _ _ Hpend).
      rewrite queuedRays_insert, length_app. simpl. lia. }
    split; [split; [exact Hro | apply wrap64_range]|].
    split; [exact Hr1 | exact Hr2].
Qed.

Lemma route_all_healthy rays w :
  healthy w -> healthy (foldl routeProcessedRay w rays).
Proof.
  revert w. induction rays as [|ray rays IH]; intros w Hw; simpl.
  - exact Hw.
  - apply IH. apply route_healthy. exact Hw.
Qed.

Lemma handleRayQueue_healthy w w' :
  handleRayQueue w = Some w' -> healthy w -> healthy w'.
Proof.
  unfold handleRayQueue. intros Hrun Hw.
  destruct (traceLoop 0 (rayQueue w) [] w) as [[processed w1]|] eqn:Hloop;
    [|discriminate].
  simpl in Hrun. injection Hrun as <-.
  apply route_all_healthy.
  pose proof (traceLoop_peers _ _ _ _ _ _ Hloop) as [Hpeers _].
  apply traceLoop_rest in Hloop; [|unfold MAX_RAYS; lia].
  destruct Hloop as (_ & _ & Ht & Ho & Hp & Hos & Hps & _).
  apply (healthy_frame w); [exact Hw | repeat split; assumption |].
  apply peersKept_frame. exact Hpeers.
Qed.

(** *** What the transport leaves alone *)

Lemma emitAck_queues addr destId ack w :
  queueFrame w (emitAck addr destId ack w).
Proof. repeat split. Qed.

Lemma ackLoop_queues addr destId received ack w :
  queueFrame w (ackLoop addr destId received ack w).
Proof.
  revert ack w. induction received as [|r rest IH]; intros ack w; simpl.
  - apply queueFrame_refl.
  - destruct (_ || _).
    + eapply queueFrame_trans; [apply emitAck_queues | apply IH].
    + apply IH.
Qed.

Lemma sendAcks_queues entries w :
  queueFrame w (foldl sendAcks_entry w entries).
Proof.
  revert w. induction entries as [|e entries IH]; intros w; simpl.
  - apply queueFrame_refl.
  - eapply queueFrame_trans; [|apply IH].
    unfold sendAcks_entry.
    eapply queueFrame_trans; [|apply ackLoop_queues]. repeat split.
Qed.

Lemma retransmitLoop_queues now outstanding w :
  queueFrame w (retransmitLoop now outstanding w).
Proof.
  revert w. induction outstanding as [|front rest IH]; intros w; simpl.
  - repeat split.
  - destruct (_ && _); [|repeat split].
    eapply queueFrame_trans; [|apply IH].
    destruct (negb _); repeat split.
Qed.

Lemma handleRayAcknowledgements_queues now w :
  queueFrame w (handleRayAcknowledgements now w).
Proof.
  unfold handleRayAcknowledgements.
  eapply queueFrame_trans; [apply sendAcks_queues|].
  eapply queueFrame_trans; [|apply retransmitLoop_queues]. repeat split.
Qed.

Lemma handleUdpSend_queues iface now w :
  queueFrame w (handleUdpSend iface now w).
Proof.
  unfold handleUdpSend.
  destruct (firstService iface (servicePackets w)) as [[d rest]|].
  - repeat split.
  - destruct (_ || _); [apply queueFrame_refl|].
    destruct (rayPackets w) as [|packet rest]; [apply queueFrame_refl|].
    destruct (RayPacket.reliable _); repeat split.
Qed.

Lemma handlePeers_entry_queues now w kv :
  queueFrame w (handlePeers_entry now w kv).
Proof.
  unfold handlePeers_entry.
  destruct (Worker.state kv.2); [repeat split|].
  destruct (_ && _); repeat split.
Qed.

Lemma handlePeers_queues now w : queueFrame w (handlePeers now w).
Proof.
  unfold handlePeers. generalize (map_in_order (peers w)). intros l.
  revert w. induction l as [|kv l IH]; intros w; simpl.
  - apply queueFrame_refl.
  - eapply queueFrame_trans; [apply handlePeers_entry_queues | apply IH].
Qed.

Lemma handlePeers_kept now w : peersKept w (handlePeers now w).
Proof.
  intros c [p Hp]. unfold handlePeers.
  rewrite handlePeers_fold_peers.
  - rewrite list_to_map_in_order, Hp. eexists. reflexivity.
  - apply NoDup_fst_map_in_order.
  - intros [k1 p1] Hin. apply elem_of_map_in_order in Hin. exact Hin.
Qed.

Lemma insert_kept (w w' : LambdaWorker) id p :
  peers w' = <[id := p]> (peers w) -> peersKept w w'.
Proof.
  intros H c Hc. rewrite H.
  destruct (decide (c = id)) as [->|Hne].
  - rewrite lookup_insert_eq. eexists. reflexivity.
  - rewrite lookup_insert_ne by congruence. exact Hc.
Qed.

Lemma processHey_frames addr id w :
  queueFrame w (processHey addr id w) ∧ peersKept w (processHey addr id w).
Proof.
  split; [repeat split|].
  eapply insert_kept. unfold processHey. simpl. reflexivity.
Qed.

Lemma handleConnectTo_frames proto w :
  queueFrame w (handleConnectTo proto w) ∧
  peersKept w (handleConnectTo proto w).
Proof.
  unfold handleConnectTo.
  destruct (_ && _); [|split; [apply queueFrame_refl | intros c Hc; exact Hc]].
  destruct (connectAddresses _ _ _ _ _) as [peer a2w].
  split; [repeat split|]. eapply insert_kept. reflexivity.
Qed.

Lemma processConnectionRequest_queues proto w b w' :
  processConnectionRequest proto w = Some (b, w') -> queueFrame w w'.
Proof.
  unfold processConnectionRequest. intros H.
  destruct (peers w !! _) as [peer|]; [|injection H as _ <-; repeat split].
  destruct (arr2_get _ _); simpl in H; [|discriminate].
  injection H as _ <-. repeat split.
Qed.

Lemma receiveRay_fold_frames records w :
  queueFrame w (foldl receiveRay w records) ∧
  peers (foldl receiveRay w records) = peers w.
Proof.
  revert w. induction records as [|s records IH]; intros w; simpl.
  - split; [apply queueFrame_refl | reflexivity].
  - destruct (IH (receiveRay w s)) as [Hq Hp].
    split; [|rewrite Hp; reflexivity].
    eapply queueFrame_trans; [|exact Hq]. repeat split.
Qed.

(** *** Announced treelets *)

Lemma alter_kept {A : Type} (f : A -> A) (i c : Z) (m : gmap Z A) :
  is_Some (m !! c) -> is_Some (alter f i m !! c).
Proof.
  intros [x Hx]. destruct (decide (i = c)) as [->|Hne].
  - rewrite lookup_alter_eq, Hx. eexists. reflexivity.
  - rewrite lookup_alter_ne by exact Hne. rewrite Hx. eexists. reflexivity.
Qed.

Lemma announceTreelet_healthy otherWorkerId w t :
  healthy w -> is_Some (peers w !! otherWorkerId) ->
  healthy (announceTreelet otherWorkerId w t) ∧
  peersKept w (announceTreelet otherWorkerId w t).
Proof.
  intros ((Hout & Hpend) & (Hro & Hrp) & Hr1 & Hr2) Hother.
  assert (Hworkers :
    ∀ t' workers,
      <[t := default [] (treeletToWorker w !! t) ++ [otherWorkerId]]>
        (treeletToWorker w) !! t' = Some workers ->
      workers ≠ [] ∧
      Forall (fun c =>
                is_Some (alter (fun p => Worker.set_treelets
                                           ({[t]} ∪ Worker.treelets p) p)
                           otherWorkerId (peers w) !! c)) workers).
  { intros t' workers Hl.
    destruct (decide (t' = t)) as [->|Hne].
    - rewrite lookup_insert_eq in Hl. injection Hl as <-.
      split; [intros Hnil; apply app_eq_nil in Hnil as [_ Hnil]; discriminate|].
      apply Forall_app. split.
      + destruct (treeletToWorker w !! t) as [old|] eqn:Hold; simpl.
        * destruct (Hr1 t old Hold) as [_ Hknown].
          eapply Forall_impl; [exact Hknown|].
          intros c Hc. apply alter_kept. exact Hc.
        * constructor.
      + repeat constructor. apply alter_kept. exact Hother.
    - rewrite lookup_insert_ne in Hl by congruence.
      destruct (Hr1 t' workers Hl) as [Hne' Hknown].
      split; [exact Hne'|].
      eapply Forall_impl; [exact Hknown|].
      intros c Hc. apply alter_kept. exact Hc. }
  assert (Hkept : ∀ c, is_Some (peers w !! c) ->
            is_Some (alter (fun p => Worker.set_treelets
                                       ({[t]} ∪ Worker.treelets p) p)
                       otherWorkerId (peers w) !! c))
    by (intros c Hc; apply alter_kept; exact Hc).
  unfold announceTreelet. simpl.
  destruct (pendingQueue w !! t) as [pend|] eqn:Hpending.
  - rewrite movePending_spec. simpl.
    split; [|exact Hkept].
    unfold healthy, countersAgree, countersInRange, routable. simpl.
    split; [split|].
    { apply (agree_step _ _ _ _ Hout).
      rewrite queuedRays_insert, length_app. lia. }
    { apply (agree_step_sub _ _ _ _ Hpend).
      rewrite queuedRays_insert, Hpending. simpl. lia. }
    split; [split; apply wrap64_range|].
    split; [exact Hworkers|].
    intros t' rays Hl Hne.
    destruct (decide (t' = t)) as [->|Hne'].
    + rewrite lookup_insert_eq. eexists. reflexivity.
    + rewrite lookup_insert_ne in Hl by congruence.
      rewrite lookup_insert_ne by congruence. eapply Hr2; eassumption.
  - split; [|exact Hkept].
    unfold healthy, countersAgree, countersInRange, routable. simpl.
    split; [split; assumption|]. split; [split; assumption|].
    split; [exact Hworkers|].
    intros t' rays Hl Hne.
    destruct (decide (t' = t)) as [->|Hne'].
    + rewrite lookup_insert_eq. eexists. reflexivity.
    + rewrite lookup_insert_ne by congruence. eapply Hr2; eassumption.
Qed.

Lemma announce_all_healthy otherWorkerId ts w :
  healthy w -> is_Some (peers w !! otherWorkerId) ->
  healthy (foldl (announceTreelet otherWorkerId) w ts) ∧
  peersKept w (foldl (announceTreelet otherWorkerId) w ts).
Proof.
  revert w. induction ts as [|t ts IH]; intros w Hw Hother; simpl.
  - split; [exact Hw | intros c Hc; exact Hc].
  - destruct (announceTreelet_healthy otherWorkerId w t Hw Hother)
      as [Hw1 Hkept1].
    destruct (IH _ Hw1 (Hkept1 _ Hother)) as [Hw2 Hkept2].
    split; [exact Hw2|]. intros c Hc. apply Hkept2, Hkept1. exact Hc.
Qed.

Lemma processConnectionResponse_healthy proto now w w' :
  processConnectionResponse proto now w = Some w' ->
  healthy w -> healthy w'.
Proof.
  unfold processConnectionResponse. intros H Hw.
  destruct (peers w !! ConnectResponse.worker_id proto) as [peer0|] eqn:Hpeer;
    [|injection H as <-; exact Hw].
  assert (Hinsert : ∀ p,
            healthy (with_peers
                       (<[ConnectResponse.worker_id proto := p]> (peers w)) w)).
  { intros p. apply (healthy_frame w); [exact Hw | repeat split |].
    eapply insert_kept. reflexivity. }
  destruct (_ && _); [|injection H as <-; apply Hinsert].
  destruct (arr2_set _ _ _) as [connected'|]; simpl in H; [|discriminate].
  destruct (negb _); [injection H as <-; apply Hinsert|].
  injection H as <-.
  apply announce_all_healthy; [apply Hinsert|].
  simpl. rewrite lookup_insert_eq. eexists. reflexivity.
Qed.

(** *** Packing counts the rays *)

Lemma packRays_count outRays packetLen rayCount oss trackedRays queueSize ptr :
  let pk := packRays outRays packetLen rayCount oss trackedRays queueSize ptr in
  wrap64 (pk_outQueueSize pk)
  = wrap64 (queueSize - (Z.of_nat (length outRays)
                         - Z.of_nat (length (pk_outRays pk)))) ∧
  (0 <= queueSize < 2 ^ 64 -> 0 <= pk_outQueueSize pk < 2 ^ 64).
Proof.
  revert packetLen rayCount oss trackedRays queueSize.
  induction outRays as [|ray rest IH];
    intros packetLen rayCount oss trackedRays queueSize; simpl.
  - split; [f_equal; lia | auto].
  - destruct (packetLen <? UDP_MTU_BYTES); simpl.
    + destruct (_ >? _); simpl.
      * split; [|intros _; apply wrap64_range].
        rewrite wrap64_idem. f_equal. lia.
      * match goal with
        | |- context [packRays rest ?a ?b ?c ?d ?e ptr] =>
          destruct (IH a b c d e) as [Hcount Hrange]
        end.
        split; [|intros _; apply Hrange, wrap64_range].
        rewrite Hcount, wrap64_sub_l. f_equal. lia.
    + split; [f_equal; lia | auto].
Qed.

Lemma assemblePackets_count fuel peer t outRays str ptr w w' :
  assemblePackets fuel peer t outRays str ptr w = Some w' ->
  wrap64 (outQueueSize w')
  = wrap64 (outQueueSize w - Z.of_nat (length outRays)) ∧
  (0 <= outQueueSize w < 2 ^ 64 -> 0 <= outQueueSize w' < 2 ^ 64) ∧
  pendingQueue w' = pendingQueue w ∧
  pendingQueueSize w' = pendingQueueSize w ∧
  treeletToWorker w' = treeletToWorker w.
Proof.
  revert outRays str ptr w.
  induction fuel as [|fuel IH]; intros outRays str ptr w H.
  - simpl in H. destruct (is_nil outRays && is_nil str) eqn:Hnil;
      [|discriminate].
    injection H as <-. simpl.
    apply andb_true_iff in Hnil as [Hnil _].
    destruct outRays; [|discriminate]. simpl.
    split; [f_equal; lia|]. repeat split; auto; lia.
  - simpl in H. destruct (is_nil outRays && is_nil str) eqn:Hnil.
    + injection H as <-. simpl.
      apply andb_true_iff in Hnil as [Hnil _].
      destruct outRays; [|discriminate]. simpl.
      split; [f_equal; lia|]. repeat split; auto; lia.
    + unfold assembleOne in H.
      destruct (startPacket str ptr) as [[[[[pl rc] oss] tr] ptr']|];
        simpl in H; [|discriminate].
      apply IH in H. simpl in H.
      destruct H as (Hcount & Hrange & Hp & Hps & Ht).
      destruct (packRays_count outRays pl rc oss tr (outQueueSize w) ptr')
        as [Hpk Hpkrange].
      split; [|repeat split; auto; lia].
      rewrite Hcount, <- wrap64_sub_l, Hpk, wrap64_sub_l. f_equal. lia.
Qed.

Lemma random_sample_nil n : random_sample [] n = None.
Proof. reflexivity. Qed.

Lemma handleOutQueue_entry_count w q w' :
  handleOutQueue_entry w q = Some w' ->
  wrap64 (outQueueSize w')
  = wrap64 (outQueueSize w - Z.of_nat (length q.2)) ∧
  (0 <= outQueueSize w < 2 ^ 64 -> 0 <= outQueueSize w' < 2 ^ 64) ∧
  pendingQueue w' = pendingQueue w ∧
  pendingQueueSize w' = pendingQueueSize w ∧
  treeletToWorker w' = treeletToWorker w.
Proof.
  unfold handleOutQueue_entry. intros H.
  destruct (is_nil q.2) eqn:Hnil.
  - injection H as <-. destruct q.2; [|discriminate]. simpl.
    split; [f_equal; lia|]. repeat split; auto; lia.
  - destruct (treeletToWorker w !! q.1) as [candidates|] eqn:Hcand;
      simpl in H; [|discriminate].
    destruct (random_sample candidates _) as [chosen|]; simpl in H;
      [|discriminate].
    destruct (peers w !! chosen) as [peer|]; simpl in H; [|discriminate].
    apply assemblePackets_count in H. simpl in H.
    destruct H as (Hcount & Hrange & Hp & Hps & Ht).
    split; [exact Hcount|]. split; [exact Hrange|].
    split; [exact Hp|]. split; [exact Hps|].
    rewrite Ht. apply insert_id. exact Hcand.
Qed.

Lemma handleOutQueue_fold_count entries w w' :
  foldlM handleOutQueue_entry w entries = Some w' ->
  wrap64 (outQueueSize w')
  = wrap64 (outQueueSize w
            - foldr Z.add 0
                (map (fun kv : Z * list RayState => Z.of_nat (length kv.2))
                   entries)) ∧
  (0 <= outQueueSize w < 2 ^ 64 -> 0 <= outQueueSize w' < 2 ^ 64) ∧
  pendingQueue w' = pendingQueue w ∧
  pendingQueueSize w' = pendingQueueSize w ∧
  treeletToWorker w' = treeletToWorker w.
Proof.
  revert w. induction entries as [|q entries IH]; intros w H.
  - injection H as <-. simpl. split; [f_equal; lia|]. repeat split; auto; lia.
  - rewrite foldlM_cons in H.
    destruct (handleOutQueue_entry w q) as [w1|] eqn:Hentry; simpl in H;
      [|discriminate].
    apply handleOutQueue_entry_count in Hentry.
    destruct Hentry as (Hc1 & Hr1 & Hp1 & Hps1 & Ht1).
    destruct (IH _ H) as (Hc & Hr & Hp & Hps & Ht).
    split; [|repeat split; auto; try congruence; lia].
    rewrite Hc, <- wrap64_sub_l, Hc1, wrap64_sub_l. simpl. f_equal. lia.
Qed.

Lemma handleOutQueue_healthy w w' :
  handleOutQueue w = Some w' -> healthy w -> healthy w'.
Proof.
  intros Hrun ((Hout & Hpend) & (Hro & Hrp) & Hr1 & Hr2).
  pose proof (handleOutQueue_peers _ _ Hrun) as [Hpeers _].
  destruct (handleOutQueue_spec _ _ Hrun) as (_ & _ & _ & _ & Hempty & _).
  unfold handleOutQueue in Hrun.
  apply handleOutQueue_fold_count in Hrun.
  destruct Hrun as (Hcount & Hrange & Hp & Hps & Ht).
  rewrite (sumLen_perm _ _ _ (map_in_order_perm (outQueue w))) in Hcount.
  fold (queuedRays (outQueue w)) in Hcount.
  unfold healthy, countersAgree, countersInRange, routable.
  rewrite Hp, Hps, Ht, Hpeers.
  split; [split; [|exact Hpend]|].
  { rewrite (queuedRays_all_empty _ Hempty), Hcount.
    rewrite <- wrap64_sub_l, Hout, wrap64_sub_l. f_equal. lia. }
  split; [split; [apply Hrange; exact Hro | exact Hrp]|].
  split; [exact Hr1|].
  intros t rays Hl Hne. exfalso. apply Hne. eapply Hempty. exact Hl.
Qed.

(** *** The invariant *)

Lemma initial_healthy reliably seed : healthy (initial reliably seed).
Proof.
  unfold healthy, countersAgree, countersInRange, routable, initial. simpl.
  rewrite queuedRays_empty.
  split; [split; reflexivity|]. split; [lia|].
  split; intros t x Hl; rewrite lookup_empty in Hl; discriminate.
Qed.

Lemma activation_healthy w w' : activation w w' -> healthy w -> healthy w'.
Proof.
  intros Hact Hw. destruct Hact.
  - eapply handleRayQueue_healthy; eassumption.
  - apply route_all_healthy. exact Hw.
  - eapply handleOutQueue_healthy; eassumption.
  - apply (healthy_frame w); [exact Hw | apply handleRayAcknowledgements_queues |].
    apply peersKept_frame. apply handleRayAcknowledgements_peers.
  - apply (healthy_frame w); [exact Hw | apply handleUdpSend_queues |].
    apply peersKept_frame. apply handleUdpSend_peers.
  - apply (healthy_frame w); [exact Hw | |].
    + eapply handleUdpReceive_frames. eassumption.
    + apply peersKept_frame. eapply handleUdpReceive_peers. eassumption.
  - apply (healthy_frame w); [exact Hw | apply processHey_frames..].
  - apply (healthy_frame w); [exact Hw | apply handleConnectTo_frames..].
  - apply (healthy_frame w); [exact Hw | |].
    + eapply processConnectionRequest_queues. eassumption.
    + apply peersKept_frame. eapply processConnectionRequest_peers. eassumption.
  - eapply processConnectionResponse_healthy; eassumption.
  - apply (healthy_frame w);
      [exact Hw | apply handlePeers_queues | apply handlePeers_kept].
  - unfold handleNeededTreelets. cbn [snd].
    destruct (requestTreelet_fold (set_in_order (neededTreelets w)) ([], w)
                (NoDup_set_in_order _))
      as (_ & _ & _ & _ & _ & Ho & Hp & Ht & Hpe & _ & Hos & Hps).
    simpl in *.
    apply (healthy_frame w); [exact Hw | repeat split; assumption |].
    apply peersKept_frame. exact Hpe.
  - apply (healthy_frame w); [exact Hw | repeat split |].
    apply peersKept_frame. reflexivity.
  - apply (healthy_frame w); [exact Hw | |].
    + destruct action; simpl in *; try discriminate;
        match goal with H : Some _ = Some _ |- _ => injection H as _ <- end;
        repeat split.
    + apply peersKept_frame.
      destruct action; simpl in *; try discriminate;
        match goal with H : Some _ = Some _ |- _ => injection H as _ <- end;
        reflexivity.
  - unfold processSendRays.
    destruct (receiveRay_fold_frames
                (RecordReader_records (Message.payload message)) w)
      as [Hq Hp].
    apply (healthy_frame w); [exact Hw | exact Hq |].
    apply peersKept_frame. exact Hp.
  - apply (healthy_frame w); [exact Hw | repeat split; assumption |].
    apply peersKept_frame. assumption.
Qed.

Lemma running_healthy w : running w -> healthy w.
Proof.
  induction 1 as [reliably seed|w w' _ IH Hact].
  - apply initial_healthy.
  - eapply activation_healthy; eassumption.
Qed.

Lemma queuedRays_pos (queue : gmap Z (list RayState)) :
  0 < queuedRays queue <->
  ∃ t rays, queue !! t = Some rays ∧ rays ≠ [].
Proof.
  split.
  - intros Hpos.
    destruct (decide (Forall (fun kv : Z * list RayState => kv.2 = [])
                        (map_to_list queue))) as [Hall|Hsome].
    + rewrite queuedRays_all_empty in Hpos; [lia|].
      intros t rays Hl. rewrite Forall_forall in Hall.
      apply (Hall (t, rays)). apply elem_of_map_to_list. exact Hl.
    + apply not_Forall_Exists in Hsome; [|intros kv; apply _].
      apply Exists_exists in Hsome as ([t rays] & Hin & Hne).
      exists t, rays. split; [|exact Hne].
      apply elem_of_map_to_list in Hin. exact Hin.
  - intros (t & rays & Hl & Hne).
    apply elem_of_map_to_list in Hl. unfold queuedRays.
    induction (map_to_list queue) as [|kv l IH]; [inversion Hl|].
    simpl.
    assert (Hrest : 0 <= foldr Z.add 0
                           (map (fun kv : Z * list RayState =>
                                   Z.of_nat (length kv.2)) l)).
    { clear. induction l as [|kv l IH]; simpl; lia. }
    apply elem_of_cons in Hl as [<-|Hl].
    + simpl. destruct rays; [contradiction|]. simpl. lia.
    + specialize (IH Hl). lia.
Qed.

(** X23. In every run of the worker the two counters agree with the deques
    they count, as 64-bit numbers: [outQueueSize] with the rays queued for
    other workers, [pendingQueueSize] with the rays waiting for a worker to
    be known. So (as long as fewer than 2^64 rays are queued) the counters
    are exact, and the [OutQueue] action is enabled exactly when a ray is
    waiting to be sent. *)
Theorem counters_agree w :
  running w ->
  countersAgree w ∧
  (queuedRays (outQueue w) < 2 ^ 64 ->
   outQueueSize w = queuedRays (outQueue w) ∧
   (outQueuePredicate w = true <->
    ∃ t rays, outQueue w !! t = Some rays ∧ rays ≠ [])) ∧
  (queuedRays (pendingQueue w) < 2 ^ 64 ->
   pendingQueueSize w = queuedRays (pendingQueue w)).
Proof.
  intros Hrun.
  destruct (running_healthy w Hrun) as ((Hout & Hpend) & (Hro & Hrp) & _).
  split; [split; assumption|]. split.
  - intros Hsmall.
    assert (Heq : outQueueSize w = queuedRays (outQueue w)).
    { rewrite <- (wrap64_small (outQueueSize w)) by exact Hro.
      rewrite Hout. apply wrap64_small.
      split; [apply queuedRays_nonneg | exact Hsmall]. }
    split; [exact Heq|].
    unfold outQueuePredicate. rewrite Heq, <- queuedRays_pos.
    destruct (Z.gtb_spec (queuedRays (outQueue w)) 0); split;
      try discriminate; try lia; reflexivity.
  - intros Hsmall.
    rewrite <- (wrap64_small (pendingQueueSize w)) by exact Hrp.
    rewrite Hpend. apply wrap64_small.
    split; [apply queuedRays_nonneg | exact Hsmall].
Qed.

(** X24. In every run of the worker, every treelet that has rays to send
    has at least one worker to send them to, and all these workers are in
    the peer table: [handleOutQueue] never draws from an empty range and
    never looks up a peer that is not there, so it always returns. *)
Theorem outQueue_always_sends w :
  running w ->
  routable w ∧ sendable w ∧ is_Some (handleOutQueue w).
Proof.
  intros Hrun.
  destruct (running_healthy w Hrun) as (_ & _ & Hr1 & Hr2).
  assert (Hsend : sendable w).
  { intros t rays Hl Hne.
    destruct (Hr2 t rays Hl Hne) as [workers Hw].
    unfold workersFor. rewrite Hw. simpl. apply (Hr1 t). exact Hw. }
  split; [split; assumption|]. split; [exact Hsend|].
  apply handleOutQueue_total. exact Hsend.
Qed.

(** *** The deques and their treelets *)

Lemma keyed_frame w w' : keyed w -> queueFrame w w' -> keyed w'.
Proof.
  unfold keyed. intros Hw (Ho & _ & Hp & _) t rays. rewrite Ho, Hp.
  apply Hw.
Qed.

Lemma keyed_default (queue : gmap Z (list RayState)) (t : Z) :
  (∀ rays, queue !! t = Some rays ->
           Forall (fun ray => CurrentTreelet ray = t) rays) ->
  Forall (fun ray => CurrentTreelet ray = t) (default [] (queue !! t)).
Proof.
  intros H. destruct (queue !! t) as [rays|]; simpl; [|constructor].
  apply H. reflexivity.
Qed.

Lemma route_keyed w ray : keyed w -> keyed (routeProcessedRay w ray).
Proof.
  intros Hw. unfold routeProcessedRay.
  destruct (bool_decide (CurrentTreelet ray ∈ treeletIds w)).
  { apply (keyed_frame w); [exact Hw | repeat split]. }
  destruct (bool_decide (is_Some (treeletToWorker w !! CurrentTreelet ray))).
  - intros t rays. simpl. intros [Hl|Hl]; [|apply (Hw t); right; exact Hl].
    destruct (decide (t = CurrentTreelet ray)) as [->|Hne].
    + rewrite lookup_insert_eq in Hl. injection Hl as <-.
      apply Forall_app. split; [|repeat constructor].
      apply keyed_default. intros rays Hr. apply (Hw _ rays). left. exact Hr.
    + rewrite lookup_insert_ne in Hl by congruence.
      apply (Hw t). left. exact Hl.
  - intros t rays. simpl. intros [Hl|Hl]; [apply (Hw t); left; exact Hl|].
    destruct (decide (t = CurrentTreelet ray)) as [->|Hne].
    + rewrite lookup_insert_eq in Hl. injection Hl as <-.
      apply Forall_app. split; [|repeat constructor].
      apply keyed_default. intros rays Hr. apply (Hw _ rays). right. exact Hr.
    + rewrite lookup_insert_ne in Hl by congruence.
      apply (Hw t). right. exact Hl.
Qed.

Lemma route_all_keyed rays w :
  keyed w -> keyed (foldl routeProcessedRay w rays).
Proof.
  revert w. induction rays as [|ray rays IH]; intros w Hw; simpl.
  - exact Hw.
  - apply IH. apply route_keyed. exact Hw.
Qed.

Lemma announceTreelet_keyed otherWorkerId w t :
  keyed w -> keyed (announceTreelet otherWorkerId w t).
Proof.
  intros Hw. unfold announceTreelet. simpl.
  destruct (pendingQueue w !! t) as [pend|] eqn:Hpending.
  - rewrite movePending_spec. simpl.
    intros t' rays [Hl|Hl]; simpl in Hl.
    + destruct (decide (t' = t)) as [->|Hne].
      * rewrite lookup_insert_eq in Hl. injection Hl as <-.
        apply Forall_app. split.
        -- apply keyed_default. intros rays Hr. apply (Hw _ rays). left.
           exact Hr.
        -- apply (Hw t). right. exact Hpending.
      * rewrite lookup_insert_ne in Hl by congruence.
        apply (Hw t'). left. exact Hl.
    + destruct (decide (t' = t)) as [->|Hne].
      * rewrite lookup_insert_eq in Hl. injection Hl as <-. constructor.
      * rewrite lookup_insert_ne in Hl by congruence.
        apply (Hw t'). right. exact Hl.
  - intros t' rays Hl. apply (Hw t'). exact Hl.
Qed.

Lemma processConnectionResponse_keyed proto now w w' :
  processConnectionResponse proto now w = Some w' -> keyed w -> keyed w'.
Proof.
  unfold processConnectionResponse. intros H Hw.
  destruct (peers w !! ConnectResponse.worker_id proto) as [peer0|];
    [|injection H as <-; exact Hw].
  assert (Hinsert : ∀ p,
            keyed (with_peers
                     (<[ConnectResponse.worker_id proto := p]> (peers w)) w)).
  { intros p. apply (keyed_frame w); [exact Hw | repeat split]. }
  destruct (_ && _); [|injection H as <-; apply Hinsert].
  destruct (arr2_set _ _ _) as [connected'|]; simpl in H; [|discriminate].
  destruct (negb _); [injection H as <-; apply Hinsert|].
  injection H as <-.
  assert (Hall : ∀ l w0, keyed w0 ->
            keyed (foldl (announceTreelet
                            (ConnectResponse.worker_id proto)) w0 l));
    [|apply Hall, Hinsert].
  intros ts. induction ts as [|t ts IH]; intros w0 Hw0; simpl.
  - exact Hw0.
  - apply IH. apply announceTreelet_keyed. exact Hw0.
Qed.

Lemma activation_keyed w w' : activation w w' -> keyed w -> keyed w'.
Proof.
  intros Hact Hw. destruct Hact.
  - unfold handleRayQueue in *.
    destruct (traceLoop 0 (rayQueue w) [] w) as [[processed w1]|] eqn:Hloop;
      [|discriminate].
    match goal with H : _ = Some w' |- _ => simpl in H; injection H as <- end.
    apply route_all_keyed.
    apply traceLoop_rest in Hloop; [|unfold MAX_RAYS; lia].
    destruct Hloop as (_ & _ & Ht & Ho & Hp & Hos & Hps & _).
    apply (keyed_frame w); [exact Hw | repeat split; assumption].
  - apply route_all_keyed. exact Hw.
  - match goal with
    | H : handleOutQueue _ = Some _ |- _ =>
      destruct (handleOutQueue_spec _ _ H) as (_ & _ & _ & _ & Hempty & _);
      apply handleOutQueue_fold_count in H;
      destruct H as (_ & _ & Hp & _)
    end.
    intros t rays [Hl|Hl].
    + rewrite (Hempty t rays Hl). constructor.
    + rewrite Hp in Hl. apply (Hw t). right. exact Hl.
  - eapply keyed_frame; [exact Hw | apply handleRayAcknowledgements_queues].
  - eapply keyed_frame; [exact Hw | apply handleUdpSend_queues].
  - eapply keyed_frame; [exact Hw |].
    eapply handleUdpReceive_frames. eassumption.
  - eapply keyed_frame; [exact Hw | apply processHey_frames].
  - eapply keyed_frame; [exact Hw | apply handleConnectTo_frames].
  - eapply keyed_frame; [exact Hw |].
    eapply processConnectionRequest_queues. eassumption.
  - eapply processConnectionResponse_keyed; eassumption.
  - eapply keyed_frame; [exact Hw | apply handlePeers_queues].
  - unfold handleNeededTreelets. cbn [snd].
    destruct (requestTreelet_fold (set_in_order (neededTreelets w)) ([], w)
                (NoDup_set_in_order _))
      as (_ & _ & _ & _ & _ & Ho & Hp & Ht & Hpe & _ & Hos & Hps).
    simpl in *.
    apply (keyed_frame w); [exact Hw | repeat split; assumption].
  - apply (keyed_frame w); [exact Hw | repeat split].
  - apply (keyed_frame w); [exact Hw |].
    destruct action; simpl in *; try discriminate;
      match goal with H : Some _ = Some _ |- _ => injection H as _ <- end;
      repeat split.
  - unfold processSendRays.
    eapply keyed_frame; [exact Hw | apply receiveRay_fold_frames].
  - apply (keyed_frame w); [exact Hw | repeat split; assumption].
Qed.

(** X25. In every run of the worker, a deque of [outQueue] or of
    [pendingQueue] holds only rays whose current treelet is the key of the
    deque: the rays packed for a treelet, and the rays moved from pending to
    out when a worker announces the treelet, all head for that treelet. *)
Theorem queues_keyed_by_treelet w :
  running w ->
  ∀ t rays,
    outQueue w !! t = Some rays ∨ pendingQueue w !! t = Some rays ->
    Forall (fun ray => CurrentTreelet ray = t) rays.
Proof.
  induction 1 as [reliably seed|w w' _ IH Hact].
  - intros t rays [Hl|Hl]; simpl in Hl; rewrite lookup_empty in Hl;
      discriminate.
  - exact (activation_keyed w w' Hact IH).
Qed.

(** ** Responses that do not connect *)

(** X26. A [ConnectionResponse] that cannot connect only records the seed
    of the peer. From a worker that is not in the peer table it changes
    nothing; from a peer that is already connected, or with a [your_seed]
    that is not the seed of this worker, the seed it carries is recorded
    and nothing else changes - whatever treelets it lists, no treelet is
    announced, no ray moves, no flag is set. *)
Theorem response_without_effect proto now w :
  match peers w !! ConnectResponse.worker_id proto with
  | None => processConnectionResponse proto now w = Some w
  | Some peer =>
    (Worker.state peer = Worker.Connected ∨
     ConnectResponse.your_seed proto ≠ mySeed w) ->
    ∃ w',
      processConnectionResponse proto now w = Some w' ∧
      peers w' =
        <[ConnectResponse.worker_id proto :=
            Worker.set_seed (ConnectResponse.my_seed proto) peer]> (peers w) ∧
      queueFrame w w' ∧ sendFrame w w' ∧
      neededTreelets w' = neededTreelets w ∧
      requestedTreelets w' = requestedTreelets w
  end.
Proof.
  unfold processConnectionResponse.
  destruct (peers w !! ConnectResponse.worker_id proto) as [peer|];
    [|reflexivity].
  intros Hno.
  assert (Hcond :
    negb (bool_decide
            (Worker.state
               (Worker.set_seed (ConnectResponse.my_seed proto) peer)
             = Worker.Connected))
    && (ConnectResponse.your_seed proto =? mySeed w) = false).
  { destruct Hno as [Hconn|Hseed].
    - rewrite bool_decide_eq_true_2 by exact Hconn. reflexivity.
    - apply andb_false_iff. right. apply Z.eqb_neq. exact Hseed. }
  rewrite Hcond. eexists. split; [reflexivity|].
  repeat split.
Qed.

(** *** Pending rays are not forgotten *)

Lemma treeletFrame_refl w : treeletFrame w w.
Proof. repeat split. Qed.

Lemma treeletFrame_trans w1 w2 w3 :
  treeletFrame w1 w2 -> treeletFrame w2 w3 -> treeletFrame w1 w3.
Proof.
  unfold treeletFrame. intros (? & ? & ?) (? & ? & ?).
  repeat split; congruence.
Qed.

Lemma remembered_frame w w' :
  remembered w -> treeletFrame w w' -> remembered w'.
Proof.
  unfold remembered. intros Hw (Hp & Hn & Hr) t rays.
  rewrite Hp, Hn, Hr. apply Hw.
Qed.

Lemma traceLoop_treelets i queue processedRays w processed w1 :
  traceLoop i queue processedRays w = Some (processed, w1) ->
  treeletFrame w w1.
Proof.
  revert i processedRays w.
  induction queue as [|ray rest IH]; intros i processedRays w Hrun.
  - simpl in Hrun. injection Hrun as <- <-. repeat split.
  - cbn [traceLoop] in Hrun.
    destruct (i <? MAX_RAYS); [|injection Hrun as <- <-; repeat split].
    destruct (toVisitEmpty ray); cbn [negb] in Hrun.
    + destruct (hit ray); [|discriminate].
      apply IH in Hrun.
      destruct (Shade ray).2; simpl in Hrun; exact Hrun.
    + repeat match type of Hrun with
             | context [if ?b then traceLoop _ _ _ _ else _] => destruct b
             end;
        apply IH in Hrun; exact Hrun.
Qed.

Lemma route_remembered w ray :
  remembered w -> remembered (routeProcessedRay w ray).
Proof.
  intros Hw. unfold routeProcessedRay.
  destruct (bool_decide (CurrentTreelet ray ∈ treeletIds w)).
  { apply (remembered_frame w); [exact Hw | repeat split]. }
  destruct (bool_decide (is_Some (treeletToWorker w !! CurrentTreelet ray))).
  { apply (remembered_frame w); [exact Hw | repeat split]. }
  intros t rays. simpl. intros Hl Hne.
  destruct (decide (t = CurrentTreelet ray)) as [->|Hneq].
  - set_solver.
  - rewrite lookup_insert_ne in Hl by congruence.
    specialize (Hw t rays Hl Hne). set_solver.
Qed.

Lemma route_all_remembered rays w :
  remembered w -> remembered (foldl routeProcessedRay w rays).
Proof.
  revert w. induction rays as [|ray rays IH]; intros w Hw; simpl.
  - exact Hw.
  - apply IH. apply route_remembered. exact Hw.
Qed.

Lemma announceTreelet_remembered otherWorkerId w t :
  remembered w -> remembered (announceTreelet otherWorkerId w t).
Proof.
  intros Hw. unfold announceTreelet. simpl.
  destruct (pendingQueue w !! t) as [pend|] eqn:Hpending.
  - rewrite movePending_spec. simpl.
    intros t' rays Hl Hne. simpl in Hl.
    destruct (decide (t' = t)) as [->|Hneq].
    + rewrite lookup_insert_eq in Hl. injection Hl as <-. contradiction.
    + rewrite lookup_insert_ne in Hl by congruence.
      specialize (Hw t' rays Hl Hne). simpl. set_solver.
  - intros t' rays Hl Hne. simpl in *.
    destruct (decide (t' = t)) as [->|Hneq]; [congruence|].
    specialize (Hw t' rays Hl Hne). set_solver.
Qed.

Lemma processConnectionResponse_remembered proto now w w' :
  processConnectionResponse proto now w = Some w' ->
  remembered w -> remembered w'.
Proof.
  unfold processConnectionResponse. intros H Hw.
  destruct (peers w !! ConnectResponse.worker_id proto) as [peer0|];
    [|injection H as <-; exact Hw].
  assert (Hinsert : ∀ p,
            remembered
              (with_peers
                 (<[ConnectResponse.worker_id proto := p]> (peers w)) w)).
  { intros p. apply (remembered_frame w); [exact Hw | repeat split]. }
  destruct (_ && _); [|injection H as <-; apply Hinsert].
  destruct (arr2_set _ _ _) as [connected'|]; simpl in H; [|discriminate].
  destruct (negb _); [injection H as <-; apply Hinsert|].
  injection H as <-.
  assert (Hall : ∀ l w0, remembered w0 ->
            remembered (foldl (announceTreelet
                                 (ConnectResponse.worker_id proto)) w0 l));
    [|apply Hall, Hinsert].
  intros ts. induction ts as [|t ts IH]; intros w0 Hw0; simpl.
  - exact Hw0.
  - apply IH. apply announceTreelet_remembered. exact Hw0.
Qed.

Lemma assemblePackets_treelets fuel peer t outRays str ptr w w' :
  assemblePackets fuel peer t outRays str ptr w = Some w' ->
  treeletFrame w w'.
Proof.
  revert outRays str ptr w.
  induction fuel as [|fuel IH]; intros outRays str ptr w H; simpl in H.
  - destruct (is_nil outRays && is_nil str); [|discriminate].
    injection H as <-. repeat split.
  - destruct (is_nil outRays && is_nil str).
    + injection H as <-. repeat split.
    + unfold assembleOne in H.
      destruct (startPacket str ptr) as [[[[[pl rc] oss] tr] ptr']|];
        simpl in H; [|discriminate].
      apply IH in H. exact H.
Qed.

Lemma handleOutQueue_treelets w w' :
  handleOutQueue w = Some w' -> treeletFrame w w'.
Proof.
  unfold handleOutQueue.
  apply (foldlM_frame treeletFrame handleOutQueue_entry).
  - apply treeletFrame_refl.
  - apply treeletFrame_trans.
  - intros w0 q w1 H. unfold handleOutQueue_entry in H.
    destruct (is_nil q.2); [injection H as <-; apply treeletFrame_refl|].
    destruct (treeletToWorker w0 !! q.1) as [candidates|]; simpl in H;
      [|discriminate].
    destruct (random_sample candidates _) as [chosen|]; simpl in H;
      [|discriminate].
    destruct (peers w0 !! chosen) as [peer|]; simpl in H; [|discriminate].
    apply assemblePackets_treelets in H. exact H.
Qed.

Lemma ackLoop_treelets addr destId received ack w :
  treeletFrame w (ackLoop addr destId received ack w).
Proof.
  revert ack w. induction received as [|r rest IH]; intros ack w; simpl.
  - apply treeletFrame_refl.
  - destruct (_ || _).
    + eapply treeletFrame_trans; [|apply IH]. repeat split.
    + apply IH.
Qed.

Lemma handleRayAcknowledgements_treelets now w :
  treeletFrame w (handleRayAcknowledgements now w).
Proof.
  unfold handleRayAcknowledgements.
  assert (Hsend : ∀ entries w0,
            treeletFrame w0 (foldl sendAcks_entry w0 entries)).
  { intros entries. induction entries as [|e entries IH]; intros w0; simpl.
    - apply treeletFrame_refl.
    - eapply treeletFrame_trans; [|apply IH].
      unfold sendAcks_entry.
      eapply treeletFrame_trans; [|apply ackLoop_treelets]. repeat split. }
  assert (Hloop : ∀ outstanding w0,
            treeletFrame w0 (retransmitLoop now outstanding w0)).
  { intros outstanding.
    induction outstanding as [|front rest IH]; intros w0; simpl.
    - repeat split.
    - destruct (_ && _); [|repeat split].
      eapply treeletFrame_trans; [|apply IH].
      destruct (negb _); repeat split. }
  eapply treeletFrame_trans; [apply Hsend|].
  eapply treeletFrame_trans; [|apply Hloop]. repeat split.
Qed.

Lemma handleUdpSend_treelets iface now w :
  treeletFrame w (handleUdpSend iface now w).
Proof.
  unfold handleUdpSend.
  destruct (firstService iface (servicePackets w)) as [[d rest]|].
  - repeat split.
  - destruct (_ || _); [apply treeletFrame_refl|].
    destruct (rayPackets w) as [|packet rest]; [apply treeletFrame_refl|].
    destruct (RayPacket.reliable _); repeat split.
Qed.

Lemma receiveWalk_treelets source messages w kept w' :
  receiveWalk source messages w = Some (kept, w') -> treeletFrame w w'.
Proof.
  revert w kept. induction messages as [|m older IH]; intros w kept H;
    simpl in H.
  - injection H as _ <-. repeat split.
  - destruct (Message.is_read m); [injection H as _ <-; repeat split|].
    destruct (Message.reliable m) eqn:Hrel; simpl in H.
    + destruct (bool_decide _) in H.
      * apply IH in H. exact H.
      * destruct (bool_decide _) in H.
        -- destruct (parseAcks _ _) as [acks|]; simpl in H; [|discriminate].
           apply IH in H. exact H.
        -- destruct (receiveWalk source older _) as [[k w3]|] eqn:Hw;
             simpl in H; [|discriminate].
           injection H as _ <-. apply IH in Hw. exact Hw.
    + destruct (bool_decide _) in H.
      * destruct (parseAcks _ _) as [acks|]; simpl in H; [|discriminate].
        apply IH in H. exact H.
      * destruct (receiveWalk source older _) as [[k w3]|] eqn:Hw;
          simpl in H; [|discriminate].
        injection H as _ <-. apply IH in Hw. exact Hw.
Qed.

Lemma handlePeers_treelets now w : treeletFrame w (handlePeers now w).
Proof.
  unfold handlePeers. generalize (map_in_order (peers w)). intros l.
  revert w. induction l as [|kv l IH]; intros w; simpl.
  - apply treeletFrame_refl.
  - eapply treeletFrame_trans; [|apply IH].
    unfold handlePeers_entry.
    destruct (Worker.state kv.2); [repeat split|].
    destruct (_ && _); repeat split.
Qed.

Lemma receiveRay_fold_treelets records w :
  treeletFrame w (foldl receiveRay w records).
Proof.
  revert w. induction records as [|s records IH]; intros w; simpl.
  - apply treeletFrame_refl.
  - eapply treeletFrame_trans; [|apply IH]. repeat split.
Qed.

Lemma activation_remembered w w' :
  activation w w' -> remembered w -> remembered w'.
Proof.
  intros Hact Hw. destruct Hact.
  - unfold handleRayQueue in *.
    destruct (traceLoop 0 (rayQueue w) [] w) as [[processed w1]|] eqn:Hloop;
      [|discriminate].
    match goal with H : _ = Some w' |- _ => simpl in H; injection H as <- end.
    apply route_all_remembered.
    eapply remembered_frame; [exact Hw|].
    eapply traceLoop_treelets. exact Hloop.
  - apply route_all_remembered. exact Hw.
  - eapply remembered_frame; [exact Hw|].
    eapply handleOutQueue_treelets. eassumption.
  - eapply remembered_frame;
      [exact Hw | apply handleRayAcknowledgements_treelets].
  - eapply remembered_frame; [exact Hw | apply handleUdpSend_treelets].
  - eapply remembered_frame; [exact Hw|].
    unfold handleUdpReceive in *.
    destruct (receiveWalk source _ w) as [[kept w1]|] eqn:Hwalk;
      [|discriminate].
    match goal with H : _ = Some w' |- _ => simpl in H; injection H as <- end.
    apply receiveWalk_treelets in Hwalk.
    destruct Hwalk as (? & ? & ?). repeat split; assumption.
  - eapply remembered_frame; [exact Hw | repeat split].
  - eapply remembered_frame; [exact Hw|].
    unfold handleConnectTo. destruct (_ && _); [|apply treeletFrame_refl].
    destruct (connectAddresses _ _ _ _ _). repeat split.
  - eapply remembered_frame; [exact Hw|].
    unfold processConnectionRequest in *.
    destruct (peers w !! _);
      [|match goal with H : Some _ = Some _ |- _ => injection H as _ <- end;
        apply treeletFrame_refl].
    destruct (arr2_get _ _); simpl in *; [|discriminate].
    match goal with H : Some _ = Some _ |- _ => injection H as _ <- end.
    repeat split.
  - eapply processConnectionResponse_remembered; eassumption.
  - eapply remembered_frame; [exact Hw | apply handlePeers_treelets].
  - unfold handleNeededTreelets. cbn [snd].
    destruct (requestTreelet_fold (set_in_order (neededTreelets w)) ([], w)
                (NoDup_set_in_order _))
      as (Hreq & _ & _ & Hn & _ & _ & Hp & _).
    simpl in *.
    intros t rays Hl Hne. simpl in *. rewrite Hp in Hl.
    specialize (Hw t rays Hl Hne).
    rewrite Hreq, list_to_set_in_order. set_solver.
  - eapply remembered_frame; [exact Hw | repeat split].
  - eapply remembered_frame; [exact Hw|].
    destruct action; simpl in *; try discriminate;
      match goal with H : Some _ = Some _ |- _ => injection H as _ <- end;
      repeat split.
  - eapply remembered_frame; [exact Hw | apply receiveRay_fold_treelets].
  - eapply remembered_frame; [exact Hw | repeat split; assumption].
Qed.

(** X27. In every run of the worker no pending ray is forgotten: as long as
    rays wait in [pendingQueue] for a treelet, the treelet is among the
    treelets to ask the coordinator for or among those already asked for,
    until a worker announces the treelet and the rays move to
    [outQueue]. *)
Theorem pending_rays_remembered w :
  running w ->
  ∀ t rays, pendingQueue w !! t = Some rays -> rays ≠ [] ->
    t ∈ neededTreelets w ∪ requestedTreelets w.
Proof.
  induction 1 as [reliably seed|w w' _ IH Hact].
  - intros t rays Hl. simpl in Hl. rewrite lookup_empty in Hl. discriminate.
  - exact (activation_remembered w w' Hact IH).
Qed.

(** *** The rays of each packet *)

Lemma framedRays_app (a b : list RayState) :
  framedRays (a ++ b) = framedRays a ++ framedRays b.
Proof. unfold framedRays. apply flat_map_app. Qed.

(** The inner loop writes a prefix of the queue into the packet, counts it
    and keeps its tracked rays; the ray that did not fit, if any, is held. *)
Lemma packRays_group outRays packetLen rayCount oss trackedRays queueSize ptr :
  Forall fits outRays ->
  0 <= packetLen <= UDP_MTU_BYTES -> 0 <= rayCount ->
  5 * rayCount <= packetLen ->
  let pk := packRays outRays packetLen rayCount oss trackedRays queueSize ptr in
  ∃ written,
    pk_oss pk = oss ++ framedRays written ∧
    pk_rayCount pk = rayCount + Z.of_nat (length written) ∧
    pk_trackedRays pk = trackedRays ++ List.filter trackRay written ∧
    (outRays = written ++ pk_outRays pk ∧ pk_unpackedRayStr pk = [] ∨
     ∃ ray,
       outRays = written ++ ray :: pk_outRays pk ∧ fits ray ∧
       pk_unpackedRayStr pk = serialize ray ∧
       pk_unpackedRayPtr pk = Some ray).
Proof.
  revert packetLen rayCount oss trackedRays queueSize.
  induction outRays as [|ray rest IH];
    intros packetLen rayCount oss trackedRays queueSize Hfits Hlen Hrc Hfive;
    simpl.
  - exists []. simpl. rewrite !app_nil_r.
    repeat split; try lia. now left.
  - inversion Hfits as [|? ? Hray Hrest]; subst.
    pose proof Hray as [Hpos Hmax]. rewrite MTU_value in *.
    destruct (Z.ltb_spec packetLen 1350) as [Hlt|Hge]; simpl.
    + rewrite (wrap64_small (len (serialize ray) + 4)) by lia.
      rewrite (wrap64_small (len (serialize ray) + 4 + packetLen)) by lia.
      destruct (Z.gtb_spec (len (serialize ray) + 4 + packetLen) 1350)
        as [Hover|Hok]; simpl.
      * exists []. simpl. rewrite !app_nil_r.
        repeat split; try lia. right. exists ray. auto.
      * rewrite (wrap64_small (packetLen + (len (serialize ray) + 4))) by lia.
        rewrite (wrap64_small (rayCount + 1)) by lia.
        rewrite write_framed.
        destruct (IH (packetLen + (len (serialize ray) + 4)) (rayCount + 1)
                    (oss ++ framed (serialize ray))
                    (if trackRay ray then trackedRays ++ [ray] else trackedRays)
                    (wrap64 (queueSize - 1)) Hrest)
          as (written & Hoss & Hcount & Htracked & Hrest');
          [lia | lia | lia |].
        exists (ray :: written).
        split; [rewrite Hoss; unfold framedRays; simpl;
                now rewrite <- app_assoc|].
        split; [rewrite Hcount; simpl length; lia|].
        split.
        { rewrite Htracked. simpl. destruct (trackRay ray); simpl;
            [now rewrite <- app_assoc | reflexivity]. }
        destruct Hrest' as [[Heq Hstr]|(held & Heq & Hheld & Hstr & Hptr)].
        -- left. split; [simpl; now rewrite <- Heq | exact Hstr].
        -- right. exists held. split; [simpl; now rewrite <- Heq | auto].
    + exists []. simpl. rewrite !app_nil_r.
      repeat split; try lia. now left.
Qed.

(** All the packets of one treelet: each carries a group of consecutive
    rays, the groups together are the carried ray and the queue. *)
Lemma assemblePackets_groups fuel peer t outRays str ptr w w' held :
  Forall fits outRays ->
  (held = [] ∧ str = [] ∨
   ∃ ray, held = [ray] ∧ fits ray ∧ str = serialize ray ∧ ptr = Some ray) ->
  assemblePackets fuel peer t outRays str ptr w = Some w' ->
  ∃ new groups,
    rayPackets w' = rayPackets w ++ new ∧
    Forall2 (fun p g => RayPacket.targetTreelet p = t ∧ carries p g)
      new groups ∧
    concat groups = held ++ outRays.
Proof.
  revert outRays str ptr w held.
  assert (Hdone : ∀ outRays str ptr w held,
    Forall fits outRays ->
    (held = [] ∧ str = [] ∨
     ∃ ray, held = [ray] ∧ fits ray ∧ str = serialize ray ∧ ptr = Some ray) ->
    is_nil outRays && is_nil str = true ->
    ∃ new groups,
      rayPackets (with_outQueue (<[t := outRays]> (outQueue w)) w)
        = rayPackets w ++ new ∧
      Forall2 (fun p g => RayPacket.targetTreelet p = t ∧ carries p g)
        new groups ∧
      concat groups = held ++ outRays).
  { intros outRays str ptr w held _ Hheld Hnil.
    apply andb_true_iff in Hnil as [Ho Hs].
    destruct outRays; [|discriminate].
    exists [], []. simpl. rewrite app_nil_r. split; [reflexivity|].
    split; [constructor|].
    destruct Hheld as [[-> _]|(ray & _ & Hray & -> & _)]; [reflexivity|].
    rewrite (fits_not_nil ray Hray) in Hs. discriminate. }
  induction fuel as [|fuel IH]; intros outRays str ptr w held Hfits Hheld H.
  - simpl in H. destruct (is_nil outRays && is_nil str) eqn:Hnil;
      [|discriminate].
    injection H as <-. eapply Hdone; eassumption.
  - simpl in H. destruct (is_nil outRays && is_nil str) eqn:Hnil.
    + injection H as <-. eapply Hdone; eassumption.
    + unfold assembleOne in H.
      assert (Hstart : ∃ pl rc oss tr ptr',
                startPacket str ptr = Some (pl, rc, oss, tr, ptr') ∧
                0 <= pl <= UDP_MTU_BYTES ∧ 0 <= rc ∧ 5 * rc <= pl ∧
                oss = framedRays held ∧ rc = Z.of_nat (length held) ∧
                tr = List.filter trackRay held).
      { destruct Hheld as [[-> ->]|(ray & -> & Hray & -> & ->)].
        - exists 25, 0, [], [], ptr. rewrite MTU_value.
          repeat split; try reflexivity; lia.
        - rewrite (startPacket_carried _ _ (fits_not_nil ray Hray)).
          destruct Hray as [Hpos Hmax]. rewrite MTU_value in *.
          rewrite wrap64_small by lia.
          do 5 eexists. split; [reflexivity|].
          split; [lia|]. split; [lia|]. split; [lia|].
          split; [unfold framedRays; simpl; now rewrite app_nil_r|].
          split; [reflexivity|].
          simpl. destruct (trackRay ray); reflexivity. }
      destruct Hstart as (pl & rc & oss & tr & ptr' & Hstart & Hpl & Hrc
                          & Hfive & -> & -> & ->).
      rewrite Hstart in H. simpl in H.
      destruct (packRays_group outRays pl (Z.of_nat (length held))
                  (framedRays held) (List.filter trackRay held)
                  (outQueueSize w) ptr' Hfits Hpl Hrc Hfive)
        as (written & Hoss & Hcount & Htracked & Hrest).
      set (pk := packRays outRays pl (Z.of_nat (length held))
                   (framedRays held) (List.filter trackRay held)
                   (outQueueSize w) ptr') in *.
      assert (Hkeep : Forall fits (pk_outRays pk)).
      { destruct Hrest as [[Heq _]|(ray & Heq & _)]; rewrite Heq in Hfits.
        - apply Forall_app in Hfits. tauto.
        - apply Forall_app in Hfits as [_ Hfits].
          now inversion Hfits. }
      assert (Hheld' : ∃ held',
                (held' = [] ∧ pk_unpackedRayStr pk = [] ∨
                 ∃ ray, held' = [ray] ∧ fits ray ∧
                        pk_unpackedRayStr pk = serialize ray ∧
                        pk_unpackedRayPtr pk = Some ray) ∧
                outRays = written ++ held' ++ pk_outRays pk).
      { destruct Hrest as [[Heq Hstr]|(ray & Heq & Hray & Hstr & Hptr)].
        - exists []. split; [now left | exact Heq].
        - exists [ray]. split; [right; exists ray; auto | exact Heq]. }
      destruct Hheld' as (held' & Hheld' & Heq).
      destruct (IH _ _ _ _ held' Hkeep Hheld' H)
        as (new & groups & Hrp & Hall & Hcat).
      simpl in Hrp.
      eexists (_ :: new), ((held ++ written) :: groups).
      split; [rewrite Hrp, <- app_assoc; reflexivity|].
      split.
      * constructor; [|exact Hall].
        split; [reflexivity|]. unfold carries, packetPayload. simpl.
        rewrite Hoss, Hcount, Htracked.
        rewrite framedRays_app, length_app, List.filter_app.
        repeat split; lia.
      * simpl. rewrite Hcat, Heq, <- !app_assoc. reflexivity.
Qed.

(** The packets of one entry of [outQueue]. *)
Lemma handleOutQueue_entry_groups w q w' :
  Forall fits q.2 ->
  handleOutQueue_entry w q = Some w' ->
  ∃ new groups,
    rayPackets w' = rayPackets w ++ new ∧
    Forall2 (fun p g => RayPacket.targetTreelet p = q.1 ∧ carries p g)
      new groups ∧
    concat groups = q.2.
Proof.
  unfold handleOutQueue_entry. intros Hfits H.
  destruct (is_nil q.2) eqn:Hnil.
  - injection H as <-. destruct q.2; [|discriminate].
    exists [], []. rewrite app_nil_r. repeat split. constructor.
  - destruct (random_sample _ _) as [chosen|]; simpl in H; [|discriminate].
    destruct (peers w !! chosen) as [peer|]; simpl in H; [|discriminate].
    destruct (assemblePackets_groups _ _ _ _ _ _ _ _ [] Hfits
                (or_introl (conj eq_refl eq_refl)) H)
      as (new & groups & Hrp & Hall & Hcat).
    exists new, groups. auto.
Qed.

Lemma raysFor_app t (a b : list (Z * list RayState)) :
  raysFor t (a ++ b) = raysFor t a ++ raysFor t b.
Proof. unfold raysFor. now rewrite filter_app, flat_map_app. Qed.

Lemma raysFor_tagged t t' (groups : list (list RayState)) :
  raysFor t (map (pair t') groups)
  = if decide (t' = t) then concat groups else [].
Proof.
  unfold raysFor. induction groups as [|g groups IH]; simpl.
  - now destruct (decide (t' = t)).
  - destruct (decide (t' = t)) as [Heq|Hne].
    + rewrite filter_cons_True by exact Heq. simpl. now rewrite IH.
    + rewrite filter_cons_False by exact Hne. exact IH.
Qed.

Lemma raysFor_absent t (entries : list (Z * list RayState)) :
  t ∉ entries.*1 -> raysFor t entries = [].
Proof.
  unfold raysFor. induction entries as [|q entries IH]; intros Hnotin;
    [reflexivity|].
  rewrite fmap_cons in Hnotin. apply not_elem_of_cons in Hnotin as [Hne Hnotin].
  rewrite filter_cons_False by (simpl; congruence). exact (IH Hnotin).
Qed.

Lemma raysFor_lookup t (entries : list (Z * list RayState)) :
  NoDup entries.*1 ->
  raysFor t entries
  = default [] ((list_to_map entries : gmap Z (list RayState)) !! t).
Proof.
  induction entries as [|[k rays] entries IH]; intros Hnd; [reflexivity|].
  rewrite fmap_cons in Hnd. apply NoDup_cons in Hnd as [Hnotin Hnd].
  simpl in Hnotin. cbn [list_to_map foldr].
  change ((k, rays) :: entries) with ([(k, rays)] ++ entries).
  rewrite raysFor_app. unfold raysFor at 1.
  destruct (decide (k = t)) as [->|Hne].
  - rewrite filter_cons_True by reflexivity. simpl.
    rewrite lookup_insert_eq, (raysFor_absent _ _ Hnotin), !app_nil_r.
    reflexivity.
  - rewrite filter_cons_False by exact Hne. simpl.
    rewrite lookup_insert_ne by exact Hne. exact (IH Hnd).
Qed.

Lemma raysFor_entries t (m : gmap Z (list RayState)) :
  raysFor t (map_in_order m) = default [] (m !! t).
Proof.
  rewrite raysFor_lookup by apply NoDup_fst_map_in_order.
  now rewrite list_to_map_in_order.
Qed.

(** All the entries. *)
Lemma handleOutQueue_fold_groups entries w w' :
  Forall (fun q => Forall fits q.2) entries ->
  foldlM handleOutQueue_entry w entries = Some w' ->
  ∃ new groups,
    rayPackets w' = rayPackets w ++ new ∧
    Forall2 (fun p g => RayPacket.targetTreelet p = g.1 ∧ carries p g.2)
      new groups ∧
    ∀ t, raysFor t groups = raysFor t entries.
Proof.
  revert w. induction entries as [|q entries IH]; intros w Hfits H.
  - injection H as <-. exists [], []. rewrite app_nil_r.
    repeat split. constructor.
  - inversion Hfits as [|? ? Hf1 Hfits']; subst.
    rewrite foldlM_cons in H.
    destruct (handleOutQueue_entry w q) as [w1|] eqn:Hentry; simpl in H;
      [|discriminate].
    destruct (handleOutQueue_entry_groups _ _ _ Hf1 Hentry)
      as (new1 & groups1 & Hrp1 & Hall1 & Hcat1).
    destruct (IH _ Hfits' H) as (new & groups & Hrp & Hall & Hcat).
    exists (new1 ++ new), (map (pair q.1) groups1 ++ groups).
    split; [rewrite Hrp, Hrp1, <- app_assoc; reflexivity|].
    split.
    + apply Forall2_app; [|exact Hall].
      clear -Hall1. induction Hall1; constructor; auto.
    + intros t. rewrite raysFor_app, raysFor_tagged, Hcat, Hcat1.
      change (q :: entries) with ([q] ++ entries).
      rewrite raysFor_app. f_equal. unfold raysFor.
      destruct (decide (q.1 = t)) as [Heq|Hne].
      * rewrite filter_cons_True by exact Heq. simpl. now rewrite app_nil_r.
      * rewrite filter_cons_False by exact Hne. reflexivity.
Qed.

(** X28. The packets [handleOutQueue] builds account for every ray: when
    every queued ray fits in a datagram, each new packet carries a group of
    rays of the queue of its [targetTreelet], with the records of the group
    as payload, their number as [rayCount] and the tracked ones among them
    as [trackedRays]; and the groups of the packets for a treelet are, in
    order, exactly the rays that were queued for it. *)
Theorem packets_carry_rays w w' :
  handleOutQueue w = Some w' ->
  (∀ t rays, outQueue w !! t = Some rays -> Forall fits rays) ->
  ∃ new groups,
    rayPackets w' = rayPackets w ++ new ∧
    Forall2 (fun p g => RayPacket.targetTreelet p = g.1 ∧ carries p g.2)
      new groups ∧
    ∀ t, raysFor t groups = default [] (outQueue w !! t).
Proof.
  unfold handleOutQueue. intros Hrun Hfits.
  destruct (handleOutQueue_fold_groups (map_in_order (outQueue w)) w w')
    as (new & groups & Hrp & Hall & Hrays).
  - apply Forall_forall. intros [t rays] Hin.
    apply elem_of_map_in_order in Hin. exact (Hfits t rays Hin).
  - exact Hrun.
  - exists new, groups. split; [exact Hrp|]. split; [exact Hall|].
    intros t. rewrite Hrays. apply raysFor_entries.
Qed.


(** *** A ray too large for the first packet *)









End Properties.

(** ** The [ParamSet] converters *)

(** [to_protobuf(const ParamSet&)] writes every parameter list once into the
    message, except the [point2f] list, which it writes twice. *)
Lemma to_protobuf_fields {B I F P2 V2 P3 V3 N3 Sp S pP2 pV2 pP3 pV3 pN3 pSp}
    (toP2 : P2 -> pP2) (toV2 : V2 -> pV2) (toP3 : P3 -> pP3)
    (toV3 : V3 -> pV3) (toN3 : N3 -> pN3) (toSp : Sp -> pSp)
    (ps : ParamSetCodec.Lists B I F P2 V2 P3 V3 N3 Sp S) :
  let pp := ParamSetCodec.to_protobuf toP2 toV2 toP3 toV3 toN3 toSp ps in
  ParamSetCodec.point2fs pp
    = map (ParamSetCodec.ao toP2) (ParamSetCodec.point2fs ps)
      ++ map (ParamSetCodec.ao toP2) (ParamSetCodec.point2fs ps) ∧
  ParamSetCodec.bools pp = map ParamSetCodec.ap (ParamSetCodec.bools ps) ∧
  ParamSetCodec.ints pp = map ParamSetCodec.ap (ParamSetCodec.ints ps) ∧
  ParamSetCodec.floats pp = map ParamSetCodec.ap (ParamSetCodec.floats ps) ∧
  ParamSetCodec.vector2fs pp
    = map (ParamSetCodec.ao toV2) (ParamSetCodec.vector2fs ps) ∧
  ParamSetCodec.point3fs pp
    = map (ParamSetCodec.ao toP3) (ParamSetCodec.point3fs ps) ∧
  ParamSetCodec.vector3fs pp
    = map (ParamSetCodec.ao toV3) (ParamSetCodec.vector3fs ps) ∧
  ParamSetCodec.normals pp
    = map (ParamSetCodec.ao toN3) (ParamSetCodec.normals ps) ∧
  ParamSetCodec.spectra pp
    = map (ParamSetCodec.ao toSp) (ParamSetCodec.spectra ps) ∧
  ParamSetCodec.strings pp = map ParamSetCodec.ap (ParamSetCodec.strings ps) ∧
  ParamSetCodec.textures pp = map ParamSetCodec.ap (ParamSetCodec.textures ps).
Proof. repeat split. Qed.

(** On the way back [AddPoint2f] is therefore called twice for every
    [point2f] parameter, first for the whole list and then for the whole
    list again; what the resulting set holds is up to [AddPoint2f]. *)
Lemma from_to_protobuf_point2fs {P2 pP2 ParamSet : Type}
    (toP2 : P2 -> pP2) (ofP2 : pP2 -> P2)
    (AddPoint2f : string -> list P2 -> nat -> ParamSet -> ParamSet)
    (items : list (ParamSetCodec.Item P2)) (ps : ParamSet) :
  ParamSetCodec.addAll AddPoint2f ofP2
    (map (ParamSetCodec.ao toP2) items ++ map (ParamSetCodec.ao toP2) items) ps
  = ParamSetCodec.addAll AddPoint2f ofP2 (map (ParamSetCodec.ao toP2) items)
      (ParamSetCodec.addAll AddPoint2f ofP2
         (map (ParamSetCodec.ao toP2) items) ps).
Proof. unfold ParamSetCodec.addAll. apply foldl_app. Qed.

(** ** The timeout of the event loop *)

(** X1. [min_neg_infinity] reads a negative number as "no timeout": the
    result is negative only when both arguments are, it is the smaller of
    two non-negative arguments and the non-negative one otherwise; and it
    is associative, so the order in which the channels are folded does not
    change which timeouts count. *)
Theorem min_neg_infinity_spec (a b : Z) :
  (min_neg_infinity a b < 0 <-> (a < 0 /\ b < 0)) /\
  ((0 <= a /\ 0 <= b /\ min_neg_infinity a b = Z.min a b) \/
   (a < 0 /\ min_neg_infinity a b = b) \/
   (0 <= a /\ b < 0 /\ min_neg_infinity a b = a)) /\
  (forall c, min_neg_infinity a (min_neg_infinity b c)
             = min_neg_infinity (min_neg_infinity a b) c).
Proof.
  unfold min_neg_infinity.
  split; [|split].
  - destruct (Z.ltb_spec a 0), (Z.ltb_spec b 0); lia.
  - destruct (Z.ltb_spec a 0), (Z.ltb_spec b 0); lia.
  - intros c.
    destruct (Z.ltb_spec a 0), (Z.ltb_spec b 0), (Z.ltb_spec c 0);
      repeat match goal with
             | |- context [?x <? 0] => destruct (Z.ltb_spec x 0)
             end; lia.
Qed.

Lemma to_int_small (z : Z) : - 2 ^ 31 <= z < 2 ^ 31 -> to_int z = z.
Proof.
  intros Hz. unfold to_int.
  rewrite Z.mod_small by lia. lia.
Qed.

Lemma timeout_ms_within (ahead_us : Z) : timeout_ms true ahead_us = -1.
Proof. unfold timeout_ms. apply to_int_small. lia. Qed.

Lemma timeout_ms_ahead (ahead_us : Z) :
  0 < ahead_us < 2 ^ 31 * 1000 ->
  timeout_ms false ahead_us = Z.max 1 (ahead_us / 1000).
Proof.
  intros Hrange. unfold timeout_ms.
  rewrite Z.quot_div_nonneg by lia.
  assert (Hdiv : 0 <= ahead_us / 1000 < 2 ^ 31).
  { split; [apply Z.div_pos; lia|].
    apply Z.div_lt_upper_bound; lia. }
  destruct (Z.eqb_spec ahead_us 0) as [|_]; [lia|].
  destruct (Z.eqb_spec (ahead_us / 1000) 0) as [Hzero|Hpos]; simpl.
  - rewrite Hzero. apply to_int_small. lia.
  - rewrite to_int_small by lia. lia.
Qed.

Lemma min_timeout_ms_snoc (channels : list (bool * Z)) (c : bool * Z) :
  min_timeout_ms (channels ++ [c])
  = min_neg_infinity (min_timeout_ms channels) (timeout_ms c.1 c.2).
Proof. unfold min_timeout_ms. rewrite foldl_app. reflexivity. Qed.

(** X2. The timeout that [run] hands to the poller. When every channel is
    within pace it is -1 (wait for an event); otherwise, each channel that
    is not within pace being ahead by a positive number of microseconds, it
    is the smallest of their waits in milliseconds, a wait under a
    millisecond counting as one: never 0, so the loop does not spin. *)
Theorem min_timeout_ms_spec (channels : list (bool * Z)) :
  Forall (fun c => c.1 = false -> 0 < c.2 < 2 ^ 31 * 1000) channels ->
  (Forall (fun c => c.1 = true) channels /\ min_timeout_ms channels = -1) \/
  (1 <= min_timeout_ms channels /\
   (exists c, c ∈ channels /\ c.1 = false /\
              min_timeout_ms channels = Z.max 1 (c.2 / 1000)) /\
   (forall c, c ∈ channels -> c.1 = false ->
              min_timeout_ms channels <= Z.max 1 (c.2 / 1000))).
Proof.
  induction channels as [|c channels IH] using rev_ind; intros Hok.
  - left. split; [constructor|reflexivity].
  - apply Forall_app in Hok as [Hok Hc].
    apply Forall_inv in Hc.
    rewrite min_timeout_ms_snoc.
    destruct c as [within ahead]; simpl in *.
    destruct within.
    + rewrite timeout_ms_within.
      destruct (IH Hok) as [[Hall Hmin]|(Hge & (c & Hin & Hout & Hc') & Hle)].
      * left. split.
        -- apply Forall_app. split; [exact Hall|]. repeat constructor.
        -- rewrite Hmin. reflexivity.
      * assert (Hsame : min_neg_infinity (min_timeout_ms channels) (-1)
                        = min_timeout_ms channels).
        { unfold min_neg_infinity.
          destruct (Z.ltb_spec (min_timeout_ms channels) 0); [lia|].
          reflexivity. }
        right. rewrite Hsame. split; [exact Hge|]. split.
        -- exists c. split; [|split]; try assumption.
           apply elem_of_app. left. exact Hin.
        -- intros c0 Hin0 Hout0.
           apply elem_of_app in Hin0 as [Hin0|Hin0].
           ++ apply Hle; assumption.
           ++ apply list_elem_of_singleton in Hin0. subst c0.
              simpl in Hout0. discriminate.
    + rewrite (timeout_ms_ahead ahead) by (apply Hc; reflexivity).
      right.
      destruct (IH Hok) as [[Hall Hmin]|(Hge & (c & Hin & Hout & Hc') & Hle)].
      * rewrite Hmin. unfold min_neg_infinity. simpl.
        split; [lia|]. split.
        -- exists (false, ahead). split; [|split]; try reflexivity.
           apply elem_of_app. right. apply list_elem_of_singleton.
           reflexivity.
        -- intros c0 Hin0 Hout0.
           apply elem_of_app in Hin0 as [Hin0|Hin0].
           ++ rewrite Forall_forall in Hall.
              rewrite (Hall c0 Hin0) in Hout0. discriminate.
           ++ apply list_elem_of_singleton in Hin0. subst c0. simpl. lia.
      * unfold min_neg_infinity.
        destruct (Z.ltb_spec (min_timeout_ms channels) 0); [lia|].
        destruct (Z.ltb_spec (Z.max 1 (ahead / 1000)) 0); [lia|].
        split; [lia|]. split.
        -- destruct (Z.le_ge_cases (min_timeout_ms channels)
                       (Z.max 1 (ahead / 1000))) as [Hle'|Hle'].
           ++ exists c. split; [|split]; try assumption.
              ** apply elem_of_app. left. exact Hin.
              ** rewrite Z.min_l by lia. exact Hc'.
           ++ exists (false, ahead). split; [|split]; try reflexivity.
              ** apply elem_of_app. right. apply list_elem_of_singleton.
                 reflexivity.
              ** simpl. rewrite Z.min_r by lia. reflexivity.
        -- intros c0 Hin0 Hout0.
           apply elem_of_app in Hin0 as [Hin0|Hin0].
           ++ specialize (Hle c0 Hin0 Hout0). lia.
           ++ apply list_elem_of_singleton in Hin0. subst c0. simpl. lia.
Qed.

(** ** The matrix converters *)

(** X3. What [from_protobuf] makes of a message of any length: entry
    [(i, j)] is number [4 * i + j] of the message when the message has it,
    and stays as the constructor of [Matrix4x4] left it otherwise; numbers
    past the sixteenth are ignored. *)
Theorem matrix_from_protobuf_entries {F : Type}
    (matrix : MatrixCodec.Matrix4x4 (F := F)) (proto_matrix : list F)
    (i j : MatrixCodec.I4) :
  MatrixCodec.m_get i j (MatrixCodec.from_protobuf matrix proto_matrix)
  = default (MatrixCodec.m_get i j matrix)
      (proto_matrix !! (4 * MatrixCodec.idx i + MatrixCodec.idx j)%nat).
Proof.
  destruct matrix as [[[[[[a0 a1] a2] a3] [[[b0 b1] b2] b3]]
                        [[[c0 c1] c2] c3]] [[[d0 d1] d2] d3]].
  do 16 (destruct proto_matrix as [|? proto_matrix];
         [destruct i, j; reflexivity|]).
  destruct i, j; reflexivity.
Qed.

(** X4. A matrix sent with [to_protobuf] is rebuilt entry for entry by
    [from_protobuf], whatever the constructor of [Matrix4x4] starts from;
    the message has the sixteen entries in row-major order. *)
Theorem matrix_round_trip {F : Type}
    (init matrix : MatrixCodec.Matrix4x4 (F := F)) :
  MatrixCodec.from_protobuf init (MatrixCodec.to_protobuf matrix) = matrix /\
  MatrixCodec.to_protobuf matrix
  = flat_map (fun i => map (fun j => MatrixCodec.m_get i j matrix)
                         MatrixCodec.all4) MatrixCodec.all4.
Proof.
  destruct matrix as [[[[[[a0 a1] a2] a3] [[[b0 b1] b2] b3]]
                        [[[c0 c1] c2] c3]] [[[d0 d1] d2] d3]].
  destruct init as [[[[[[a0' a1'] a2'] a3'] [[[b0' b1'] b2'] b3']]
                      [[[c0' c1'] c2'] c3']] [[[d0' d1'] d2'] d3']].
  split; reflexivity.
Qed.

(** ** The ray converters *)

(** X5. A [RayDifferential] sent with [to_protobuf] and rebuilt with
    [from_protobuf]: origin, direction, [tMax], [time] and the flag always
    come back; the four differential fields come back only when
    [hasDifferentials] is set, and are those of a default-constructed ray
    otherwise. *)
Theorem ray_differential_round_trip {F : Type}
    (init : RayCodec.RayDifferential (F := F)) (zero : F)
    (ray : RayCodec.RayDifferential (F := F)) :
  RayCodec.from_protobuf init zero (RayCodec.to_protobuf ray)
  = if RayCodec.hasDifferentials ray then ray
    else RayCodec.mkRayDifferential (RayCodec.o ray) (RayCodec.d ray)
           (RayCodec.tMax ray) (RayCodec.time ray) false
           (RayCodec.rxOrigin init) (RayCodec.ryOrigin init)
           (RayCodec.rxDirection init) (RayCodec.ryDirection init).
Proof.
  destruct ray as [[] [] ? ? [] [] [] [] []]; reflexivity.
Qed.

(** ** The diagnostics converters *)

Lemma foldl_insert_lookup {K A : Type} `{Countable K}
    (l : list (K * A)) (m : gmap K A) (k : K) :
  NoDup l.*1 ->
  foldl (fun m kv => <[kv.1 := kv.2]> m) m l !! k
  = match list_to_map (M := gmap K A) l !! k with
    | Some v => Some v
    | None => m !! k
    end.
Proof.
  revert m. induction l as [|[k' v] l IH]; intros m Hnd; simpl.
  - rewrite lookup_empty. reflexivity.
  - apply NoDup_cons in Hnd as [Hnotin Hnd].
    rewrite IH by exact Hnd.
    destruct (decide (k = k')) as [->|Hne].
    + rewrite lookup_insert_eq.
      rewrite (not_elem_of_list_to_map_1 (M := gmap K)) by exact Hnotin.
      rewrite lookup_insert_eq. reflexivity.
    + rewrite !lookup_insert_ne by congruence.
      reflexivity.
Qed.

Lemma pushAll_lookup {A : Type} (m : gmap string (list A))
    (item : string * list A) (k : string) :
  DiagnosticsCodec.pushAll m item !! k
  = if decide (k = item.1) then
      (if is_nil item.2 then m !! k
       else Some (default [] (m !! k) ++ item.2))
    else m !! k.
Proof.
  destruct item as [name vs]. unfold DiagnosticsCodec.pushAll. simpl.
  revert m. induction vs as [|v vs IH]; intros m; simpl.
  - destruct (decide (k = name)); reflexivity.
  - rewrite IH.
    destruct (decide (k = name)) as [->|Hne].
    + rewrite lookup_insert_eq. simpl.
      destruct vs as [|v' vs]; simpl.
      * reflexivity.
      * rewrite <- app_assoc. reflexivity.
    + rewrite lookup_insert_ne by congruence. reflexivity.
Qed.

Lemma foldl_pushAll_lookup {A : Type} (l : list (string * list A))
    (m : gmap string (list A)) (k : string) :
  NoDup l.*1 ->
  foldl DiagnosticsCodec.pushAll m l !! k
  = match list_to_map (M := gmap string (list A)) l !! k with
    | Some (v :: vs) => Some (default [] (m !! k) ++ v :: vs)
    | _ => m !! k
    end.
Proof.
  revert m. induction l as [|[name vs] l IH]; intros m Hnd; simpl.
  - rewrite lookup_empty. reflexivity.
  - apply NoDup_cons in Hnd as [Hnotin Hnd].
    rewrite IH by exact Hnd.
    rewrite pushAll_lookup. simpl.
    destruct (decide (k = name)) as [->|Hne].
    + rewrite lookup_insert_eq.
      rewrite (not_elem_of_list_to_map_1 (M := gmap string)) by exact Hnotin.
      destruct vs; reflexivity.
    + rewrite lookup_insert_ne by congruence. reflexivity.
Qed.

Lemma foldl_pushAll_map {A : Type} (m : gmap string (list A)) :
  foldl DiagnosticsCodec.pushAll ∅ (map_to_list m)
  = DiagnosticsCodec.nonEmpty m.
Proof.
  apply map_eq. intros k.
  rewrite foldl_pushAll_lookup by apply NoDup_fst_map_to_list.
  rewrite list_to_map_to_list, lookup_empty.
  unfold DiagnosticsCodec.nonEmpty.
  destruct (m !! k) as [[|v vs]|] eqn:Hk; simpl.
  - symmetry. apply map_lookup_filter_None. right.
    intros x Hx. rewrite Hk in Hx. injection Hx as <-. simpl. discriminate.
  - symmetry. apply map_lookup_filter_Some. split; [exact Hk|reflexivity].
  - symmetry. apply map_lookup_filter_None. left. exact Hk.
Qed.

(** X6. Diagnostics sent with [to_protobuf] and rebuilt with
    [from_protobuf]: the counters and the time per action come back as they
    were; of the intervals and of the metrics, the names with an empty list
    are lost and all the others come back with their lists in order. *)
Theorem diagnostics_round_trip {T V : Type}
    (diagnostics : DiagnosticsCodec.WorkerDiagnostics (T := T) (V := V)) :
  DiagnosticsCodec.from_protobuf (DiagnosticsCodec.to_protobuf diagnostics)
  = DiagnosticsCodec.mkWorkerDiagnostics
      (DiagnosticsCodec.bytesSent diagnostics)
      (DiagnosticsCodec.bytesReceived diagnostics)
      (DiagnosticsCodec.outstandingUdp diagnostics)
      (DiagnosticsCodec.timePerAction diagnostics)
      (DiagnosticsCodec.nonEmpty (DiagnosticsCodec.intervalsPerAction diagnostics))
      (DiagnosticsCodec.nonEmpty (DiagnosticsCodec.metricsOverTime diagnostics)).
Proof.
  destruct diagnostics as [bs br ou tpa ipa mot].
  unfold DiagnosticsCodec.from_protobuf, DiagnosticsCodec.to_protobuf. simpl.
  f_equal.
  - apply map_eq. intros k.
    rewrite foldl_insert_lookup by apply NoDup_fst_map_to_list.
    rewrite list_to_map_to_list, lookup_empty.
    destruct (tpa !! k); reflexivity.
  - apply foldl_pushAll_map.
  - apply foldl_pushAll_map.
Qed.
#[local] Transparent map_in_order set_in_order.


(** * The handlers at work on the sample instance *)

(** Scenario of the self-classification: the worker owns treelet 0; a ray
    for treelet 0 joins the ray queue, a ray for the unknown treelet 7 is
    pending. *)
Example classification_scenario :
  rayQueue (routeGeneratedRay (RM := Sample.rays) Sample.w0 (Sample.small_ray 0))
    = [Sample.small_ray 0] ∧
  pendingQueue Sample.w_pending !! 7 = Some [Sample.small_ray 7] ∧
  pendingQueueSize Sample.w_pending = 1 ∧
  neededTreelets Sample.w_pending = {[7]}.
Proof. vm_compute. repeat split. Qed.

(** C1, as stated, fails: the destination [addrA] of the timed-out packet
    never acked anything, an ack was received from [addrB] only, and the
    packet is queued again. *)
Lemma retransmit_despite_silent_destination :
  receivedAcks Sample.w_timeout !! Sample.addrA = None ∧
  acksFrom Sample.w_timeout Sample.addrA = ∅ ∧
  outstandingRayPackets Sample.w_timeout = [(0, Sample.packetA)] ∧
  RayPacket.destination Sample.packetA = Sample.addrA ∧
  RayPacket.reliable Sample.packetA = true ∧
  rayPackets Sample.w_timeout = [] ∧
  rayPackets
    (handleRayAcknowledgements (RT := Sample.runtime) 10 Sample.w_timeout)
    = [retransmitted Sample.packetA].
Proof. vm_compute. repeat split. Qed.

Lemma retransmission_gate_witness :
  outstandingRayPackets Sample.w_timeout = [(0, Sample.packetA)] ++ [] ∧
  Forall (fun e => e.1 <= 10) [(0, Sample.packetA)] ∧
  notDue (RM := Sample.rays) 10 [] ∧
  let w' :=
    handleRayAcknowledgements (RT := Sample.runtime) 10 Sample.w_timeout in
  (receivedAcks Sample.w_timeout = ∅ ∧
   rayPackets w' = rayPackets Sample.w_timeout ∧
   outstandingRayPackets w' = outstandingRayPackets Sample.w_timeout)
  ∨
  (receivedAcks Sample.w_timeout ≠ ∅ ∧
   rayPackets w' =
     rayPackets Sample.w_timeout ++
       map retransmitted
         (filter (unacked Sample.w_timeout) (map snd [(0, Sample.packetA)])) ∧
   outstandingRayPackets w' = []).
Proof.
  assert (H1 : outstandingRayPackets Sample.w_timeout
               = [(0, Sample.packetA)] ++ []) by reflexivity.
  assert (H2 : Forall (fun e : Z * RayPacket.t => e.1 <= 10)
                 [(0, Sample.packetA)]) by (repeat constructor; simpl; lia).
  assert (H3 : notDue (RM := Sample.rays) 10 []) by exact I.
  split; [exact H1|]. split; [exact H2|]. split; [exact H3|].
  exact (retransmission_gate (RT := Sample.runtime) 10 Sample.w_timeout
           [(0, Sample.packetA)] [] H1 H2 H3).
Defined.


Lemma mid_ray_fits t : fits (RM := Sample.rays) (Sample.mid_ray t).
Proof. split; vm_compute; [reflexivity | discriminate]. Qed.

Lemma small_ray_fits t : fits (RM := Sample.rays) (Sample.small_ray t).
Proof. split; vm_compute; [reflexivity | discriminate]. Qed.


Lemma w_out2_fits queued1 queued2 :
  Forall (fits (RM := Sample.rays)) queued1 ->
  Forall (fits (RM := Sample.rays)) queued2 ->
  ∀ t rays, outQueue (Sample.w_out2 queued1 queued2) !! t = Some rays ->
    Forall fits rays.
Proof.
  intros Hfits1 Hfits2 t rays Hlook. unfold Sample.w_out2 in Hlook.
  simpl in Hlook.
  apply lookup_insert_Some in Hlook as [[_ <-]|[_ Hlook]]; [exact Hfits1|].
  apply lookup_insert_Some in Hlook as [[_ <-]|[_ Hlook]]; [exact Hfits2|].
  rewrite lookup_empty in Hlook. discriminate.
Qed.

(** Two queues: the packets for treelet 1 are built before the one for
    treelet 2, and the third ray of treelet 1 leaves in a packet of its
    own. *)
Example handleOutQueue_two_treelets :
  let w :=
    Sample.w_out2 [Sample.mid_ray 1; Sample.mid_ray 1; Sample.mid_ray 1]
      [Sample.small_ray 2] in
  map fst (map_in_order (outQueue w)) = [1; 2] ∧
  (map (fun p => (RayPacket.targetTreelet p, RayPacket.rayCount p,
                  len (packetPayload p))) <$>
     (rayPackets <$> handleOutQueue (RT := Sample.runtime) w))
    = Some [(1, 2, 1208); (1, 1, 604); (2, 1, 6)].
Proof. vm_compute. split; reflexivity. Qed.


Lemma w_sent_run :
  handleOutQueue (RT := Sample.runtime)
    (Sample.w_out [Sample.mid_ray 7; Sample.mid_ray 7; Sample.mid_ray 7])
  = Some Sample.w_sent.
Proof. vm_compute. reflexivity. Qed.

Example w_sent_sequence :
  map RayPacket.sequenceNumber (rayPackets Sample.w_sent) = [0; 1] ∧
  map RayPacket.rayCount (rayPackets Sample.w_sent) = [2; 1] ∧
  map (fun p => len (packetPayload p)) (rayPackets Sample.w_sent) = [1208; 604] ∧
  seqNoFor Sample.w_sent Sample.addrA = 2.
Proof. vm_compute. repeat split. Qed.

Lemma sequence_numbers_increase_witness :
  let w := Sample.w_out [Sample.mid_ray 7; Sample.mid_ray 7; Sample.mid_ray 7] in
  handleOutQueue (RT := Sample.runtime) w = Some Sample.w_sent ∧
  0 <= seqNoFor w Sample.addrA ∧
  seqNoFor w Sample.addrA
    + Z.of_nat (length (rayPackets Sample.w_sent) - length (rayPackets w))
    < 2 ^ 64 ∧
  ∃ new,
    rayPackets Sample.w_sent = rayPackets w ++ new ∧
    StronglySorted Z.lt
      (map RayPacket.sequenceNumber (packetsTo Sample.addrA new)).
Proof.
  intros w.
  assert (H2 : handleOutQueue (RT := Sample.runtime) w = Some Sample.w_sent)
    by exact w_sent_run.
  assert (H3 : 0 <= seqNoFor w Sample.addrA) by (vm_compute; discriminate).
  assert (H4 : seqNoFor w Sample.addrA
               + Z.of_nat (length (rayPackets Sample.w_sent)
                           - length (rayPackets w)) < 2 ^ 64)
    by (vm_compute; reflexivity).
  split; [exact H2|]. split; [exact H3|]. split; [exact H4|].
  destruct (sequence_numbers_increase (RT := Sample.runtime) w Sample.w_sent
              Sample.addrA H2 H3 H4)
    as [(new & Hrp & _ & Hsorted & _) _].
  exists new. auto.
Defined.

(** C5, as stated, fails: the response of peer 2 matches the seed and
    announces treelet 7, but it confirms only interface 0; the peer stays
    [Connecting], treelet 7 is not recorded and the pending ray stays where it
    is. *)
Lemma treelet_not_recorded_before_connected :
  ConnectResponse.your_seed Sample.response2 = mySeed Sample.w_pending ∧
  pendingQueue Sample.w_pending !! 7 = Some [Sample.small_ray 7] ∧
  ∃ w',
    processConnectionResponse (RT := Sample.runtime) Sample.response2 100
      Sample.w_pending = Some w' ∧
    Worker.state <$> peers w' !! 2 = Some Worker.Connecting ∧
    treeletToWorker w' !! 7 = None ∧
    neededTreelets w' = {[7]} ∧
    pendingQueue w' !! 7 = Some [Sample.small_ray 7] ∧
    outQueue w' !! 7 = None ∧
    pendingQueueSize w' = 1 ∧ outQueueSize w' = 0.
Proof.
  split; [reflexivity|]. split; [vm_compute; reflexivity|].
  eexists. split; [vm_compute; reflexivity|]. vm_compute. repeat split.
Qed.

Lemma pending_promotion_witness :
  peers Sample.w_half_pending !! ConnectResponse.worker_id Sample.response2
    = Some Sample.peer2_half ∧
  Worker.state Sample.peer2_half ≠ Worker.Connected ∧
  ConnectResponse.your_seed Sample.response2 = mySeed Sample.w_half_pending ∧
  arr2_set (Worker.connected Sample.peer2_half)
    (ConnectResponse.address_no Sample.response2) true = Some (true, true) ∧
  ∃ w',
    processConnectionResponse (RT := Sample.runtime) Sample.response2 100
      Sample.w_half_pending = Some w' ∧
    (∀ t, t ∈ ConnectResponse.treelet_ids Sample.response2 ->
       pendingFor w' t = [] ∧
       outFor w' t
         = outFor Sample.w_half_pending t ++ pendingFor Sample.w_half_pending t).
Proof.
  assert (H1 : peers Sample.w_half_pending
                 !! ConnectResponse.worker_id Sample.response2
               = Some Sample.peer2_half) by (vm_compute; reflexivity).
  assert (H2 : Worker.state Sample.peer2_half ≠ Worker.Connected)
    by (vm_compute; discriminate).
  assert (H3 : ConnectResponse.your_seed Sample.response2
               = mySeed Sample.w_half_pending) by reflexivity.
  assert (H4 : arr2_set (Worker.connected Sample.peer2_half)
                 (ConnectResponse.address_no Sample.response2) true
               = Some (true, true)) by (vm_compute; reflexivity).
  split; [exact H1|]. split; [exact H2|]. split; [exact H3|].
  split; [exact H4|].
  destruct (pending_promotion (RT := Sample.runtime) Sample.response2 100
              Sample.w_half_pending Sample.peer2_half (true, true)
              H1 H2 H3 H4) as (w' & Hrun & [Hdone|Hnot]).
  - exists w'. split; [exact Hrun|].
    destruct Hdone as (_ & Hin & _). intros t Ht.
    destruct (Hin t Ht) as (_ & _ & _ & Hp & Ho). auto.
  - destruct Hnot as [Hne _]. exfalso. apply Hne. reflexivity.
Defined.

Lemma w_peer_reachable : reachable (RT := Sample.runtime) Sample.w_peer.
Proof.
  eapply reachable_step; [|apply step_connectTo].
  eapply reachable_step; [apply (reachable_initial true 42)|].
  apply step_other; reflexivity.
Qed.

Lemma connected_needs_both_interfaces_witness :
  reachable (RT := Sample.runtime) Sample.w_peer ∧
  (∀ id p, peers Sample.w_peer !! id = Some p ->
           Worker.state p = Worker.Connected ->
           Worker.connected p = (true, true)) ∧
  ∃ w' p',
    processConnectionResponse (RT := Sample.runtime) Sample.response2 100
      Sample.w_peer = Some w' ∧
    peers w' !! 2 = Some p' ∧
    Worker.connected p' = (true, false) ∧
    Worker.state p' = Worker.Connecting.
Proof.
  pose proof w_peer_reachable as Hreach.
  destruct (connected_needs_both_interfaces (RT := Sample.runtime)
              Sample.w_peer Hreach) as [Hinv Hresp].
  split; [exact Hreach|]. split; [exact Hinv|].
  destruct (Hresp Sample.response2 100
              (default (Worker.make 2) (peers Sample.w_peer !! 2)))
    as (w' & p' & Hrun & Hp' & Hset & Hother & _ & Hstay).
  - vm_compute. reflexivity.
  - vm_compute. discriminate.
  - reflexivity.
  - left. reflexivity.
  - exists w', p'. split; [exact Hrun|]. split; [exact Hp'|].
    split; [|apply Hstay; vm_compute; reflexivity].
    destruct (Worker.connected p') as [c0 c1].
    change (Some c0 = Some true) in Hset.
    change (Some c1 = Some false) in Hother.
    congruence.
Defined.


(** * More of the handlers at work on the sample instance *)

Lemma min_timeout_ms_spec_witness :
  Forall (fun c : bool * Z => c.1 = false -> 0 < c.2 < 2 ^ 31 * 1000)
    SampleRun.channels ∧
  min_timeout_ms SampleRun.channels = 1.
Proof.
  assert (H1 : Forall (fun c : bool * Z => c.1 = false ->
                         0 < c.2 < 2 ^ 31 * 1000) SampleRun.channels).
  { repeat constructor; simpl; intros; try discriminate; lia. }
  split; [exact H1|].
  destruct (min_timeout_ms_spec SampleRun.channels H1)
    as [[Hall _]|(Hge & _ & Hle)].
  - exfalso. apply Forall_cons in Hall as [_ Hall].
    apply Forall_cons in Hall as [Hfalse _]. discriminate Hfalse.
  - assert (Hin : (false, 700) ∈ SampleRun.channels)
      by (right; right; left).
    specialize (Hle (false, 700) Hin eq_refl).
    change (Z.max 1 ((false, 700).2 / 1000)) with 1 in Hle.
    apply Z.le_antisymm; assumption.
Defined.

Lemma sendRays_round_trip_witness :
  Forall (fun ray => len (serialize (RayModel := Sample.rays) ray) < 2 ^ 32)
    SampleRun.two_rays ∧
  Message.payload SampleRun.sendRays
    = framedRays (RM := Sample.rays) SampleRun.two_rays ∧
  rayQueue (processSendRays (RR := SampleRun.records) SampleRun.sendRays
              Sample.w0)
  = rayQueue Sample.w0 ++
      map (fun ray =>
             resetTick (RayRecords := SampleRun.records)
               (incHop (RayRecords := SampleRun.records)
                  (deserialize (RayRecords := SampleRun.records)
                     (serialize (RayModel := Sample.rays) ray))))
        SampleRun.two_rays.
Proof.
  assert (H1 : Forall (fun ray =>
                         len (serialize (RayModel := Sample.rays) ray) < 2 ^ 32)
                 SampleRun.two_rays)
    by (repeat constructor; vm_compute; reflexivity).
  assert (H2 : Message.payload SampleRun.sendRays
               = framedRays (RM := Sample.rays) SampleRun.two_rays)
    by reflexivity.
  split; [exact H1|]. split; [exact H2|].
  exact (proj1 (sendRays_round_trip (RR := SampleRun.records)
                  SampleRun.two_rays SampleRun.sendRays Sample.w0 H1 H2)).
Defined.

Lemma handleRayQueue_budget_witness :
  handleRayQueue (RM := Sample.rays) SampleRun.w_queue
    = Some SampleRun.w_traced ∧
  ∃ again,
    rayQueue SampleRun.w_traced
      = drop (Z.to_nat MAX_RAYS) (rayQueue SampleRun.w_queue) ++ again ∧
    treeletIds SampleRun.w_traced = treeletIds SampleRun.w_queue.
Proof.
  assert (H1 : handleRayQueue (RM := Sample.rays) SampleRun.w_queue
               = Some SampleRun.w_traced) by (vm_compute; reflexivity).
  split; [exact H1|].
  destruct (handleRayQueue_budget (RM := Sample.rays) SampleRun.w_queue
              SampleRun.w_traced H1) as (again & Hq & _ & Ht & _).
  exists again. split; [exact Hq | exact Ht].
Defined.

Lemma handleUdpReceive_delivery_witness :
  handleUdpReceive (RM := Sample.rays) Sample.addrA [Sample.message1] Sample.w0
    = Some SampleRun.w_received ∧
  tailRead (messageParser SampleRun.w_received).
Proof.
  assert (H1 : handleUdpReceive (RM := Sample.rays) Sample.addrA
                 [Sample.message1] Sample.w0
               = Some SampleRun.w_received) by (vm_compute; reflexivity).
  split; [exact H1|].
  exact (proj1 (handleUdpReceive_delivery (RM := Sample.rays) Sample.addrA
                  [Sample.message1] Sample.w0 SampleRun.w_received H1)).
Defined.



(** The same run, computed: the receiver acknowledges number 17; at the scan
    at time 50 the sender drops the packets 17 and 18 from its outstanding
    queue and queues only 18 again; packet 19 is not due. *)
Example acknowledged_packet_dropped :
  let r1 :=
    default Sample.w0
      (handleUdpReceive (RM := Sample.rays) Sample.addrA [Sample.message1]
         Sample.w0) in
  let acks :=
    servicePackets (handleRayAcknowledgements (RT := Sample.runtime) 50 r1) in
  let s1 :=
    default Sample.w0 (receiveAcks Sample.addrB acks SampleRun.w_sender) in
  let s2 := handleRayAcknowledgements (RT := Sample.runtime) 50 s1 in
  map ServicePacket.destination acks = [Sample.addrA] ∧
  rayPackets SampleRun.w_sender = [] ∧
  map (fun e => (e.1, RayPacket.sequenceNumber e.2))
    (outstandingRayPackets SampleRun.w_sender) = [(10, 17); (20, 18); (900, 19)] ∧
  map (fun e => (e.1, RayPacket.sequenceNumber e.2))
    (outstandingRayPackets s2) = [(900, 19)] ∧
  rayPackets s2 = [retransmitted (SampleRun.packetTo 18)].
Proof. vm_compute. repeat split. Qed.

Lemma w_pending_running :
  running (RM := Sample.rays) (RT := Sample.runtime)
    (RR := SampleRun.records) Sample.w_pending.
Proof.
  eapply running_activation;
    [|apply (act_generateRays (RM := Sample.rays) (RT := Sample.runtime)
              (RR := SampleRun.records) [Sample.small_ray 7])].
  eapply running_activation; [|apply act_connectTo].
  eapply running_activation; [apply (running_initial true 42)|].
  apply act_other; reflexivity.
Defined.

Lemma w_run2_running :
  running (RM := Sample.rays) (RT := Sample.runtime)
    (RR := SampleRun.records) SampleRun.w_run2.
Proof.
  eapply running_activation;
    [|apply (act_connectionResponse SampleRun.response2b 200 SampleRun.w_run1);
      vm_compute; reflexivity].
  eapply running_activation;
    [|apply (act_connectionResponse Sample.response2 100 Sample.w_pending);
      vm_compute; reflexivity].
  exact w_pending_running.
Defined.

Lemma counters_agree_witness :
  running (RM := Sample.rays) (RT := Sample.runtime)
    (RR := SampleRun.records) SampleRun.w_run2 ∧
  outQueueSize SampleRun.w_run2 = queuedRays (outQueue SampleRun.w_run2) ∧
  pendingQueueSize SampleRun.w_run2
    = queuedRays (pendingQueue SampleRun.w_run2).
Proof.
  pose proof w_run2_running as H1.
  split; [exact H1|].
  destruct (counters_agree (RM := Sample.rays) (RT := Sample.runtime)
              (RR := SampleRun.records)
              SampleRun.w_run2 H1) as (_ & Hout & Hpend).
  split.
  - apply Hout. vm_compute. reflexivity.
  - apply Hpend. vm_compute. reflexivity.
Defined.

Lemma outQueue_always_sends_witness :
  running (RM := Sample.rays) (RT := Sample.runtime)
    (RR := SampleRun.records) SampleRun.w_run2 ∧
  outQueue SampleRun.w_run2 !! 7 = Some [Sample.small_ray 7] ∧
  is_Some (handleOutQueue (RT := Sample.runtime) SampleRun.w_run2).
Proof.
  pose proof w_run2_running as H1.
  split; [exact H1|]. split; [vm_compute; reflexivity|].
  exact (proj2 (proj2 (outQueue_always_sends (RM := Sample.rays)
                         (RT := Sample.runtime)
                         (RR := SampleRun.records) SampleRun.w_run2 H1))).
Defined.

Lemma queues_keyed_by_treelet_witness :
  running (RM := Sample.rays) (RT := Sample.runtime)
    (RR := SampleRun.records) SampleRun.w_run2 ∧
  (outQueue SampleRun.w_run2 !! 7 = Some [Sample.small_ray 7] ∨
   pendingQueue SampleRun.w_run2 !! 7 = Some [Sample.small_ray 7]) ∧
  Forall (fun ray => CurrentTreelet (RayModel := Sample.rays) ray = 7)
    [Sample.small_ray 7].
Proof.
  pose proof w_run2_running as H1.
  assert (H2 : outQueue SampleRun.w_run2 !! 7 = Some [Sample.small_ray 7] ∨
               pendingQueue SampleRun.w_run2 !! 7 = Some [Sample.small_ray 7])
    by (left; vm_compute; reflexivity).
  split; [exact H1|]. split; [exact H2|].
  exact (queues_keyed_by_treelet (RM := Sample.rays) (RT := Sample.runtime)
           (RR := SampleRun.records) SampleRun.w_run2 H1 7
           [Sample.small_ray 7] H2).
Defined.

Lemma pending_rays_remembered_witness :
  running (RM := Sample.rays) (RT := Sample.runtime)
    (RR := SampleRun.records) Sample.w_pending ∧
  pendingQueue Sample.w_pending !! 7 = Some [Sample.small_ray 7] ∧
  7 ∈ neededTreelets Sample.w_pending ∪ requestedTreelets Sample.w_pending.
Proof.
  pose proof w_pending_running as H1.
  assert (H2 : pendingQueue Sample.w_pending !! 7 = Some [Sample.small_ray 7])
    by (vm_compute; reflexivity).
  assert (H3 : [Sample.small_ray 7] ≠ []) by discriminate.
  split; [exact H1|]. split; [exact H2|].
  exact (pending_rays_remembered (RM := Sample.rays) (RT := Sample.runtime)
           (RR := SampleRun.records) Sample.w_pending H1 7
           [Sample.small_ray 7] H2 H3).
Defined.

Lemma packets_carry_rays_witness :
  let w :=
    Sample.w_out2 [Sample.mid_ray 1; Sample.mid_ray 1; Sample.mid_ray 1]
      [Sample.small_ray 2] in
  let w' := default Sample.w0 (handleOutQueue (RT := Sample.runtime) w) in
  handleOutQueue (RT := Sample.runtime) w = Some w' ∧
  (∀ t rays, outQueue w !! t = Some rays -> Forall fits rays) ∧
  ∃ new groups,
    rayPackets w' = rayPackets w ++ new ∧
    Forall2 (fun p g => RayPacket.targetTreelet p = g.1 ∧ carries p g.2)
      new groups ∧
    ∀ t, raysFor t groups = default [] (outQueue w !! t).
Proof.
  intros w w'.
  assert (H1 : handleOutQueue (RT := Sample.runtime) w = Some w')
    by (vm_compute; reflexivity).
  assert (H2 : ∀ t rays, outQueue w !! t = Some rays -> Forall fits rays).
  { apply w_out2_fits; repeat constructor;
      first [apply mid_ray_fits | apply small_ray_fits]. }
  split; [exact H1|]. split; [exact H2|].
  exact (packets_carry_rays (RT := Sample.runtime) w w' H1 H2).
Defined.

(** The packets of that run: treelet, [rayCount], number of tracked rays. *)
Example two_queues_packets_run :
  let w :=
    Sample.w_out2 [Sample.mid_ray 1; Sample.mid_ray 1; Sample.mid_ray 1]
      [Sample.small_ray 2] in
  (map (fun p => (RayPacket.targetTreelet p, RayPacket.rayCount p,
                  length (RayPacket.trackedRays p))) <$>
     (rayPackets <$> handleOutQueue (RT := Sample.runtime) w))
    = Some [(1, 2, 2%nat); (1, 1, 1%nat); (2, 1, 0%nat)].
Proof. vm_compute. reflexivity. Qed.


(** The packets of that run: the first one for treelet 1 is empty, the
    second one holds both rays of the queue and fills the datagram. *)
Example wide_ray_packets_run :
  let w :=
    Sample.w_out2 [Sample.wide_ray 1; Sample.small_ray 1]
      [Sample.small_ray 2] in
  (map (fun p => (RayPacket.targetTreelet p, RayPacket.rayCount p,
                  len (packetPayload p))) <$>
     (rayPackets <$> handleOutQueue (RT := Sample.runtime) w))
    = Some [(1, 0, 0); (1, 2, 1350); (2, 1, 6)].
Proof. vm_compute. reflexivity. Qed.
